(** * Verse cards: grouping of ayahs, range labels, numerals and theme choice

    A shallow embedding of the two service modules of the repository,
    [src/unnamed/part_000] and [src/services/geminiService.ts], and the
    properties their specification states about them.

    Both modules export [fetchVerseAndDesign].  The embedding starts where
    the two editions have been found in the response of the API: the
    arrays [arabicAyahs] and [transAyahs] and the name of the surah are
    the inputs.  The draw of [Math.random], the lower-casing of strings
    and, in geminiService.ts, the answer of the language model are inputs
    as well.

    JavaScript strings are sequences of UTF-16 code units and [length]
    counts code units: a string is a [list N].  Verse numbers are
    integer-valued Numbers: an [N].  The draw of [Math.random] and its
    product with [types.length] are binary64 Numbers: a [spec_float]
    with the arithmetic of the Standard Library's [SpecFloat].  A call
    that can throw returns a [completion]. *)

From Stdlib Require Import Ascii String.
From Stdlib Require Import List NArith ZArith QArith Bool Arith Lia.
From Stdlib Require Import SpecFloat.
Import ListNotations.

Close Scope Q_scope.
Set Implicit Arguments.

(* ===================================================================== *)
(** ** JavaScript strings                                                 *)
(* ===================================================================== *)

Module Js.

Definition char16 := N.
Definition jsstring := list char16.

(** An ASCII literal of the source text as code units. *)
Definition lit (s : string) : jsstring :=
  List.map N_of_ascii (list_ascii_of_string s).

(** [Array.prototype.join]. *)
Fixpoint join (sep : jsstring) (parts : list jsstring) : jsstring :=
  match parts with
  | [] => []
  | [p] => p
  | p :: rest => p ++ sep ++ join sep rest
  end.

(** [s.startsWith(w)] and [s.includes(w)]. *)
Fixpoint startsWith (s w : jsstring) : bool :=
  match w, s with
  | [], _ => true
  | _ :: _, [] => false
  | b :: w', a :: s' => (a =? b)%N && startsWith s' w'
  end.

Fixpoint includes (s w : jsstring) : bool :=
  startsWith s w ||
  match s with
  | [] => false
  | _ :: s' => includes s' w
  end.

(** Decimal digits of [n], most significant first. *)
Fixpoint digitsAux (fuel : nat) (n : N) (acc : list N) : list N :=
  match fuel with
  | O => acc
  | S fuel' =>
      let acc' := (n mod 10)%N :: acc in
      if (n / 10 =? 0)%N then acc' else digitsAux fuel' (n / 10)%N acc'
  end.

Definition decimalDigits (n : N) : list N :=
  digitsAux (S (N.to_nat (N.log2 n))) n [].

(** [Number.prototype.toString] on a Number whose value is the integer
    [n].  Up to [MAX_SAFE_INTEGER] every integer is a Number and is printed
    as its decimal expansion, which is what this definition gives; beyond,
    not every integer is a Number, and from 1e21 on the printed form has
    an exponent.  Verse numbers are below 300. *)
Definition MAX_SAFE_INTEGER : N := 9007199254740991.

Definition Number_toString (n : N) : jsstring :=
  List.map (fun d => 48 + d)%N (decimalDigits n).

(** [parseInt(d)] on a one-unit string holding a decimal digit. *)
Definition parseInt_digit (d : char16) : nat := N.to_nat (d - 48).

Definition isDigit (c : char16) : bool := (48 <=? c)%N && (c <=? 57)%N.

(** [s.replace(/\d/g, f)]: every unit matching [\d] is replaced by the
    string [f] returns for it, the others are kept. *)
Definition replace_digits (f : char16 -> jsstring) (s : jsstring) : jsstring :=
  List.flat_map (fun c => if isDigit c then f c else [c]) s.

(** The value a digit list denotes in base ten, read after [start]. *)
Definition valueFrom (start : N) (ds : list N) : N :=
  List.fold_left (fun acc d => 10 * acc + d)%N ds start.

Definition digitsValue (ds : list N) : N := valueFrom 0 ds.

(** An ASCII-only lower-casing, used to run the classifier on examples;
    the development itself is parametric in [String.prototype.toLowerCase]. *)
Definition asciiLower (s : jsstring) : jsstring :=
  List.map (fun c => if (65 <=? c)%N && (c <=? 90)%N then (c + 32)%N else c) s.

End Js.

Import Js.

(* ===================================================================== *)
(** ** Abrupt completion                                                  *)
(* ===================================================================== *)

Inductive JsError := TypeError.

Inductive completion (A : Type) : Type :=
| Normal : A -> completion A
| Throw : JsError -> completion A.

Arguments Normal {A} _.
Arguments Throw {A} _.

Definition bind {A B} (c : completion A) (k : A -> completion B) : completion B :=
  match c with
  | Normal a => k a
  | Throw e => Throw e
  end.

Notation "x <- c ;; k" := (bind c (fun x => k))
  (at level 61, c at next level, right associativity).

(** Reading a property of a value that may be [undefined]. *)
Definition deref {A} (v : option A) : completion A :=
  match v with
  | Some a => Normal a
  | None => Throw TypeError
  end.

(* ===================================================================== *)
(** ** types.ts                                                           *)
(* ===================================================================== *)

Record VerseSegment := {
  arabic : jsstring;
  translation : jsstring;
  surah : jsstring;
  ayah : jsstring
}.

Inductive BackgroundType := SKY | NATURE | JANNAT.

Inductive TextColor := white | black.

Record DesignConfig := {
  backgroundType : BackgroundType;
  textColor : TextColor;
  opacity : Q
}.

Record CombinedResponse := {
  segments : list VerseSegment;
  design : DesignConfig
}.

(** An element of the [ayahs] array of an edition in the API response. *)
Record Ayah := {
  text : jsstring;
  numberInSurah : N
}.

(* ===================================================================== *)
(** ** convertToArabicNumerals                                            *)
(* ===================================================================== *)

Definition arabicDigits : list jsstring :=
  [[0x660]; [0x661]; [0x662]; [0x663]; [0x664];
   [0x665]; [0x666]; [0x667]; [0x668]; [0x669]]%N.

(** [arabicDigits[k]] inside a replacement callback: an index outside the
    array gives [undefined], which [replace] prints as such. *)
Definition arabicDigitAt (k : nat) : jsstring :=
  match nth_error arabicDigits k with
  | Some g => g
  | None => lit "undefined"
  end.

Definition convertToArabicNumerals (n : N) : jsstring :=
  replace_digits (fun d => arabicDigitAt (parseInt_digit d)) (Number_toString n).

(* ===================================================================== *)
(** ** pushSegment (the same text in both service modules)                *)
(* ===================================================================== *)

Fixpoint mapM {A B} (f : A -> completion B) (l : list A) : completion (list B) :=
  match l with
  | [] => Normal []
  | a :: l' => b <- f a ;; bs <- mapM f l' ;; Normal (b :: bs)
  end.

(** The verse-end mark of the template literal: a space and U+06DD. *)
Definition ayahMark : jsstring := [0x20; 0x6DD]%N.

Definition arabicPart (a : Ayah) : jsstring :=
  text a ++ ayahMark ++ convertToArabicNumerals (numberInSurah a).

Definition transPart (t : Ayah) : jsstring :=
  text t ++ lit " (" ++ Number_toString (numberInSurah t) ++ lit ")".

Definition rangeLabel (firstNum lastNum : N) : jsstring :=
  if (firstNum =? lastNum)%N then Number_toString firstNum
  else Number_toString firstNum ++ lit "-" ++ Number_toString lastNum.

(** An element of [transChunk] is [undefined] when the translation array
    had no entry at that index and nothing was substituted. *)
Definition pushSegment (segs : list VerseSegment) (arabicChunk : list Ayah)
    (transChunk : list (option Ayah)) (surahName : jsstring)
  : completion (list VerseSegment) :=
  first <- deref (nth_error arabicChunk 0) ;;
  let firstNum := numberInSurah first in
  last <- deref (nth_error arabicChunk (length arabicChunk - 1)) ;;
  let lastNum := numberInSurah last in
  let arabicText := join (lit " ") (List.map arabicPart arabicChunk) in
  transParts <- mapM (fun t => t' <- deref t ;; Normal (transPart t')) transChunk ;;
  let transText := join (lit " ") transParts in
  Normal (segs ++ [ {| arabic := arabicText;
                       translation := transText;
                       surah := surahName;
                       ayah := rangeLabel firstNum lastNum |} ]).

(* ===================================================================== *)
(** ** The grouping loop of fetchVerseAndDesign                           *)
(* ===================================================================== *)

Definition TARGET_CARD_CAPACITY : nat := 450.

Record LoopState := {
  segs : list VerseSegment;
  currentChunkArabic : list Ayah;
  currentChunkTrans : list (option Ayah);
  currentLength : nat
}.

Section GroupingLoop.

(** The two modules differ in one line of the loop body, the one that
    reads the translation of index [i]. *)
Variable readTrans : list Ayah -> nat -> Ayah -> option Ayah.
Variable transAyahs : list Ayah.
Variable surahName : jsstring.

(** [for (let i = 0; i < arabicAyahs.length; i++)]: [rest] is what is
    left of [arabicAyahs] from index [i] on. *)
Fixpoint groupingLoop (rest : list Ayah) (i : nat) (st : LoopState)
  : completion LoopState :=
  match rest with
  | [] => Normal st
  | verse :: rest' =>
      let trans := readTrans transAyahs i verse in
      let verseLength := length (text verse) in
      st1 <- (if (TARGET_CARD_CAPACITY <? currentLength st + verseLength)
                 && (0 <? length (currentChunkArabic st))
              then
                segs' <- pushSegment (segs st) (currentChunkArabic st)
                           (currentChunkTrans st) surahName ;;
                Normal {| segs := segs';
                          currentChunkArabic := [];
                          currentChunkTrans := [];
                          currentLength := 0 |}
              else Normal st) ;;
      groupingLoop rest' (S i)
        {| segs := segs st1;
           currentChunkArabic := currentChunkArabic st1 ++ [verse];
           currentChunkTrans := currentChunkTrans st1 ++ [trans];
           currentLength := currentLength st1 + verseLength |}
  end.

(** The push of what is left in the buffer after the loop. *)
Definition pushRemaining (st : LoopState) : completion (list VerseSegment) :=
  if 0 <? length (currentChunkArabic st)
  then pushSegment (segs st) (currentChunkArabic st) (currentChunkTrans st) surahName
  else Normal (segs st).

(** Section 2 of [fetchVerseAndDesign], from the declaration of
    [segments] to the push of the remaining buffer. *)
Definition groupAyahs (arabicAyahs : list Ayah) : completion (list VerseSegment) :=
  st <- groupingLoop arabicAyahs 0
          {| segs := []; currentChunkArabic := []; currentChunkTrans := [];
             currentLength := 0 |} ;;
  pushRemaining st.

End GroupingLoop.

(** [segments[0]?.translation || ""]. *)
Definition firstTranslation (segments : list VerseSegment) : jsstring :=
  match segments with
  | s :: _ => translation s
  | [] => []
  end.

Definition BackgroundType_eqb (a b : BackgroundType) : bool :=
  match a, b with
  | SKY, SKY | NATURE, NATURE | JANNAT, JANNAT => true
  | _, _ => false
  end.

(** A Number is an IEEE 754 binary64 value: 53 bits of precision,
    exponents below 1024.  The operations are those of [SpecFloat], which
    round to the nearest Number, ties to the even mantissa. *)
Module Number.

Definition prec : Z := 53.
Definition emax : Z := 1024.

(** The mantissa and the exponent are those of a binary64 value. *)
Definition valid (x : spec_float) : bool := valid_binary prec emax x.

Definition sign (x : spec_float) : bool :=
  match x with
  | S754_zero s | S754_infinity s | S754_finite s _ _ => s
  | S754_nan => false
  end.

(** The Number of an integer literal or of an array length. *)
Definition ofZ (z : Z) : spec_float := binary_normalize prec emax z 0 false.

Definition one : spec_float := ofZ 1.

(** [x * y], [x / y], [x < y] and [x <= y]. *)
Definition mul (x y : spec_float) : spec_float := SFmul prec emax x y.
Definition div (x y : spec_float) : spec_float := SFdiv prec emax x y.
Definition ltb (x y : spec_float) : bool := SFltb x y.
Definition leb (x y : spec_float) : bool := SFleb x y.

(** [Math.floor(x)]: for a finite [x] the greatest integer not above it,
    kept as an integer; NaN and the infinities are returned by
    [Math.floor] as they are, and are no integers. *)
Definition floor (x : spec_float) : option Z :=
  match x with
  | S754_zero _ => Some 0%Z
  | S754_finite s m e => Some (Z.shiftl (cond_Zopp s (Zpos m)) e)
  | S754_infinity _ | S754_nan => None
  end.

(** The real number a finite Number stands for. *)
Definition toQ (x : spec_float) : Q :=
  match x with
  | S754_finite s m e => (inject_Z (cond_Zopp s (Zpos m)) * Qpower 2 e)%Q
  | _ => 0%Q
  end.

End Number.

(** [array[index]] for the result [index] of [Math.floor]: [undefined]
    when the index is no integer from 0 to [array.length - 1]. *)
Definition elementAt {A : Type} (array : list A) (index : option Z) : option A :=
  match index with
  | Some z => if (z <? 0)%Z then None else nth_error array (Z.to_nat z)
  | None => None
  end.

(** [Math.random()]: a Number with positive sign, at least +0 and less
    than 1. *)
Record RandomDraw := {
  draw : spec_float;
  draw_valid : Number.valid draw = true;
  draw_sign : Number.sign draw = false;
  draw_range : Number.ltb draw Number.one = true
}.

(* ===================================================================== *)
(** ** src/unnamed/part_000                                               *)
(* ===================================================================== *)

Module Part000.

Definition keywords : list (BackgroundType * list jsstring) :=
  [ (JANNAT, List.map lit
       ["paradise"; "garden"; "river"; "heaven"; "reward"; "fruit"; "shade";
        "eternity"; "jannah"; "bliss"; "springs"; "gold"; "silk"; "peace"]%string);
    (SKY, List.map lit
       ["sky"; "sun"; "moon"; "star"; "night"; "day"; "cloud"; "rain";
        "thunder"; "universe"; "light"; "darkness"; "space"; "planet";
        "orbit"; "rising"; "setting"]%string);
    (NATURE, List.map lit
       ["earth"; "mountain"; "sea"; "ocean"; "land"; "water"; "tree";
        "plant"; "wind"; "creation"; "animal"; "bird"; "cattle"; "camel";
        "desert"; "rock"]%string) ].

Definition types : list BackgroundType := [NATURE; SKY; JANNAT].

(** [scores[type]++]. *)
Definition increment (scores : BackgroundType -> Z) (type : BackgroundType)
  : BackgroundType -> Z :=
  fun t => if BackgroundType_eqb t type then (scores t + 1)%Z else scores t.

(** The two nested loops over [Object.entries(keywords)]. *)
Definition countScores (lowerText : jsstring) : BackgroundType -> Z :=
  List.fold_left
    (fun scores entry =>
       List.fold_left
         (fun scores word =>
            if includes lowerText word then increment scores (fst entry)
            else scores)
         (snd entry) scores)
    keywords (fun _ => 0%Z).

(** The loop over [types], on the pair [(bestType, maxScore)]. *)
Definition selectBest (scores : BackgroundType -> Z) : BackgroundType * Z :=
  List.fold_left
    (fun best t =>
       if (snd best <? scores t)%Z then (t, scores t) else best)
    types (NATURE, (-1)%Z).

(** [Math.floor(Math.random() * types.length)]: the product of the two
    Numbers is rounded to the nearest Number before the floor is taken. *)
Definition randomIndex (random : RandomDraw) : option Z :=
  Number.floor
    (Number.mul (draw random) (Number.ofZ (Z.of_nat (length types)))).

Section Classifier.

(** [String.prototype.toLowerCase], left abstract. *)
Variable toLowerCase : jsstring -> jsstring.
Variable random : RandomDraw.

(** [text || ''] is [text] itself: the empty string is the only falsy
    string.  The index drawn is 0, 1 or 2 for every draw (see
    [randomIndex_thirds]), so [types[...]] is never [undefined] and the
    branch for it is never taken. *)
Definition getDesignFromText (text : jsstring) : DesignConfig :=
  let lowerText := toLowerCase text in
  let scores := countScores lowerText in
  let best := selectBest scores in
  let bestType :=
    if (snd best =? 0)%Z
    then match elementAt types (randomIndex random) with
         | Some t => t
         | None => fst best
         end
    else fst best in
  {| backgroundType := bestType; textColor := white; opacity := (1 # 2)%Q |}.

(** The fallback object of the loop body:
    [transAyahs[i] || { text: '', numberInSurah: verse.numberInSurah }]. *)
Definition readTrans (transAyahs : list Ayah) (i : nat) (verse : Ayah)
  : option Ayah :=
  match nth_error transAyahs i with
  | Some t => Some t
  | None => Some {| text := []; numberInSurah := numberInSurah verse |}
  end.

(** [fetchVerseAndDesign] from the point where the two editions have
    been found in the response. *)
Definition fetchVerseAndDesign (arabicAyahs transAyahs : list Ayah)
    (surahName : jsstring) : completion CombinedResponse :=
  segments <- groupAyahs readTrans transAyahs surahName arabicAyahs ;;
  let contextText := firstTranslation segments in
  let design := getDesignFromText contextText in
  Normal {| segments := segments; design := design |}.

End Classifier.

End Part000.

(* ===================================================================== *)
(** ** src/services/geminiService.ts                                      *)
(* ===================================================================== *)

Module GeminiService.

(** [const trans = transAyahs[i];] *)
Definition readTrans (transAyahs : list Ayah) (i : nat) (verse : Ayah)
  : option Ayah :=
  nth_error transAyahs i.

(** What [JSON.parse] gave for the model's answer: each field is either
    missing (or falsy) or holds a value. *)
Record AiResult := {
  aiBackgroundType : option BackgroundType;
  aiTextColor : option TextColor;
  aiOpacity : option Q
}.

Definition defaultDesign : DesignConfig :=
  {| backgroundType := NATURE; textColor := white; opacity := (1 # 2)%Q |}.

(** The [try] block of section 3.  The text cut from the first segment
    only goes into the prompt; [None] is any exception inside the block,
    [Some result] what [JSON.parse] returned. *)
Definition aiDesign (ai : option AiResult) : DesignConfig :=
  match ai with
  | None => defaultDesign
  | Some result =>
      let d1 := match aiBackgroundType result with
                | Some b => {| backgroundType := b;
                               textColor := textColor defaultDesign;
                               opacity := opacity defaultDesign |}
                | None => defaultDesign
                end in
      let d2 := match aiTextColor result with
                | Some c => {| backgroundType := backgroundType d1;
                               textColor := c; opacity := opacity d1 |}
                | None => d1
                end in
      match aiOpacity result with
      | Some o => {| backgroundType := backgroundType d2;
                     textColor := textColor d2; opacity := o |}
      | None => d2
      end
  end.

Definition fetchVerseAndDesign (ai : option AiResult)
    (arabicAyahs transAyahs : list Ayah) (surahName : jsstring)
  : completion CombinedResponse :=
  segments <- groupAyahs readTrans transAyahs surahName arabicAyahs ;;
  Normal {| segments := segments; design := aiDesign ai |}.

End GeminiService.

(* ===================================================================== *)
(** ** The groups behind the segments                                     *)
(* ===================================================================== *)

(** The loop closes a buffer of verses at each call of [pushSegment]; the
    segment keeps only the joined strings.  [chunkLoop] follows the same
    decisions and keeps the buffers themselves. *)
Section Chunks.

Variable X : Type.
Variable len : X -> nat.

Definition totalLen (c : list X) : nat := list_sum (List.map len c).

Fixpoint chunkLoop (rest cur : list X) (curLen : nat) : list (list X) :=
  match rest with
  | [] => if 0 <? length cur then [cur] else []
  | v :: rest' =>
      if (TARGET_CARD_CAPACITY <? curLen + len v) && (0 <? length cur)
      then cur :: chunkLoop rest' [v] (len v)
      else chunkLoop rest' (cur ++ [v]) (curLen + len v)
  end.

Definition chunks (vs : list X) : list (list X) := chunkLoop vs [] 0.

(** Each group but the last is followed by a verse that did not fit. *)
Fixpoint closedWhenFull (cs : list (list X)) : Prop :=
  match cs with
  | [] => True
  | c :: cs' =>
      match cs' with
      | (v :: _) :: _ => TARGET_CARD_CAPACITY < totalLen c + len v
      | _ => True
      end /\ closedWhenFull cs'
  end.

End Chunks.

(** Each verse with what the loop body read as its translation. *)
Fixpoint pairTrans (readTrans : list Ayah -> nat -> Ayah -> option Ayah)
    (transAyahs : list Ayah) (i : nat) (rest : list Ayah)
  : list (Ayah * option Ayah) :=
  match rest with
  | [] => []
  | verse :: rest' =>
      (verse, readTrans transAyahs i verse)
        :: pairTrans readTrans transAyahs (S i) rest'
  end.

(** The calls of [pushSegment] on a list of closed buffers. *)
Fixpoint pushAll (segs : list VerseSegment) (cs : list (list (Ayah * option Ayah)))
    (surahName : jsstring) : completion (list VerseSegment) :=
  match cs with
  | [] => Normal segs
  | c :: cs' =>
      segs' <- pushSegment segs (List.map fst c) (List.map snd c) surahName ;;
      pushAll segs' cs' surahName
  end.

(** A verse unit: a verse and its translation, the missing one replaced
    as [Part000.readTrans] does. *)
Definition VerseUnit : Type := Ayah * Ayah.

Definition emptyTranslation (verse : Ayah) : Ayah :=
  {| text := []; numberInSurah := numberInSurah verse |}.

Fixpoint verseUnitsFrom (transAyahs : list Ayah) (i : nat) (rest : list Ayah)
  : list VerseUnit :=
  match rest with
  | [] => []
  | verse :: rest' =>
      (verse, match nth_error transAyahs i with
              | Some t => t
              | None => emptyTranslation verse
              end) :: verseUnitsFrom transAyahs (S i) rest'
  end.

Definition verseUnits (arabicAyahs transAyahs : list Ayah) : list VerseUnit :=
  verseUnitsFrom transAyahs 0 arabicAyahs.

Definition withTranslation (u : VerseUnit) : Ayah * option Ayah :=
  (fst u, Some (snd u)).

Definition pairLength (p : Ayah * option Ayah) : nat := length (text (fst p)).

Definition sourceLength (u : VerseUnit) : nat := length (text (fst u)).

Definition verseNumber (u : VerseUnit) : N := numberInSurah (fst u).

(** The groups of verse units the loop forms on an input. *)
Definition verseGroups (arabicAyahs transAyahs : list Ayah) : list (list VerseUnit) :=
  chunks sourceLength (verseUnits arabicAyahs transAyahs).

(** The segment [pushSegment] appends for a non-empty group. *)
Definition renderGroup (surahName : jsstring) (c : list VerseUnit) : VerseSegment :=
  {| arabic := join (lit " ") (List.map (fun u => arabicPart (fst u)) c);
     translation := join (lit " ") (List.map (fun u => transPart (snd u)) c);
     surah := surahName;
     ayah := match c with
             | [] => []
             | u :: _ => rangeLabel (verseNumber u) (verseNumber (last c u))
             end |}.

Definition segmentsOf (r : completion CombinedResponse) : completion (list VerseSegment) :=
  r' <- r ;; Normal (segments r').

(** [segs] is what [fetchVerseAndDesign] returns as segments on the two
    fetched arrays: always in part_000, and in geminiService.ts when every
    verse has a translation; there the call throws otherwise. *)
Definition producesSegments (arabicAyahs transAyahs : list Ayah)
    (surahName : jsstring) (segs : list VerseSegment) : Prop :=
  (forall toLowerCase random,
      segmentsOf (Part000.fetchVerseAndDesign toLowerCase random
                    arabicAyahs transAyahs surahName) = Normal segs)
  /\ (forall ai,
      segmentsOf (GeminiService.fetchVerseAndDesign ai
                    arabicAyahs transAyahs surahName)
      = if length arabicAyahs <=? length transAyahs
        then Normal segs else Throw TypeError).

(** Where group [j] starts in the input, and the unit at place [k] of
    group [j]. *)
Definition groupOffset (X : Type) (cs : list (list X)) (j : nat) : nat :=
  length (concat (firstn j cs)).

Definition unitAt (X : Type) (cs : list (list X)) (j k : nat) : option X :=
  match nth_error cs j with
  | Some c => nth_error c k
  | None => None
  end.

(** A verse of a given number and source length, for examples. *)
Definition sampleVerse (n : N) (len : nat) : Ayah :=
  {| text := repeat 0x627%N len; numberInSurah := n |}.

(** The label the specification gives to a group. *)
Definition specLabel (c : list VerseUnit) : jsstring :=
  match c with
  | [] => []
  | [u] => Number_toString (verseNumber u)
  | u :: _ => Number_toString (verseNumber u) ++ lit "-"
              ++ Number_toString (verseNumber (last c u))
  end.

(** [w] occurs in [s]. *)
Definition occursIn (w s : jsstring) : Prop :=
  exists pre post, s = pre ++ w ++ post.

(** The keyword list of a category. *)
Definition keywordsOf (t : BackgroundType) : list jsstring :=
  match List.find (fun e => BackgroundType_eqb (fst e) t) Part000.keywords with
  | Some e => snd e
  | None => []
  end.

(** How many words of a list occur in the text, each counted once. *)
Definition matchCount (lowerText : jsstring) (words : list jsstring) : Z :=
  Z.of_nat (length (List.filter (includes lowerText) words)).

Definition list_sum_Z (l : list Z) : Z := List.fold_right Z.add 0%Z l.

(** The score the specification gives a category: the number of its
    keywords that occur in the text. *)
Definition specScore (lowerText : jsstring) (t : BackgroundType) : Z :=
  matchCount lowerText (keywordsOf t).

(** Position in the priority order nature, sky, paradise. *)
Definition priority (t : BackgroundType) : nat :=
  match t with
  | NATURE => 0
  | SKY => 1
  | JANNAT => 2
  end.

Definition maxScoreOf (scores : BackgroundType -> Z) : Z :=
  Z.max (scores NATURE) (Z.max (scores SKY) (scores JANNAT)).

(** The two fields of a returned ThemeDecision that the specification
    calls fixed. *)
Definition themeIsConstant (r : completion CombinedResponse) : Prop :=
  forall response,
    r = Normal response ->
    textColor (design response) = white
    /\ opacity (design response) = (1 # 2)%Q.

(** The Numbers [1/3] and [2/3]: 0.3333333333333333 and
    0.6666666666666666, both below the thirds they are nearest to. *)
Definition oneThird : spec_float := Number.div (Number.ofZ 1) (Number.ofZ 3).
Definition twoThirds : spec_float := Number.div (Number.ofZ 2) (Number.ofZ 3).

(** Three draws, one for each category: [0], [1/2] and [5/6]. *)
Definition drawLow : RandomDraw :=
  {| draw := S754_zero false;
     draw_valid := eq_refl; draw_sign := eq_refl; draw_range := eq_refl |}.

Definition drawMiddle : RandomDraw :=
  {| draw := Number.div (Number.ofZ 1) (Number.ofZ 2);
     draw_valid := eq_refl; draw_sign := eq_refl; draw_range := eq_refl |}.

Definition drawHigh : RandomDraw :=
  {| draw := Number.div (Number.ofZ 5) (Number.ofZ 6);
     draw_valid := eq_refl; draw_sign := eq_refl; draw_range := eq_refl |}.

(** Draws whose product with 3 is rounded: the Numbers [1/3] and [2/3],
    and the largest Number below 1. *)
Definition drawOneThird : RandomDraw :=
  {| draw := oneThird;
     draw_valid := eq_refl; draw_sign := eq_refl; draw_range := eq_refl |}.

Definition drawTwoThirds : RandomDraw :=
  {| draw := twoThirds;
     draw_valid := eq_refl; draw_sign := eq_refl; draw_range := eq_refl |}.

Definition drawLargest : RandomDraw :=
  {| draw := S754_finite false 9007199254740991 (-53);
     draw_valid := eq_refl; draw_sign := eq_refl; draw_range := eq_refl |}.

(** An answer of the model that sets all three fields. *)
Definition darkAnswer : GeminiService.AiResult :=
  {| GeminiService.aiBackgroundType := Some SKY;
     GeminiService.aiTextColor := Some black;
     GeminiService.aiOpacity := Some (3 # 5)%Q |}.

(** The Arabic-Indic glyph of a digit value. *)
Definition arabicGlyph (d : N) : char16 := (0x660 + d)%N.

(** A digit list is the decimal representation of [n]: digits below ten,
    no leading zero except for zero itself, and the value is [n]. *)
Definition isDecimalOf (ds : list N) (n : N) : Prop :=
  Forall (fun d => d < 10)%N ds
  /\ ds <> []
  /\ (hd 0%N ds = 0%N -> ds = [0%N])
  /\ digitsValue ds = n.

(* ===================================================================== *)
(** ** Other ways to cut the verses into groups                           *)
(* ===================================================================== *)

(** A group a card could hold under the rule of the loop: it is not empty
    and, unless it is a single verse, its source length is within the
    capacity. *)
Definition validGroup (X : Type) (len : X -> nat) (c : list X) : Prop :=
  c <> [] /\ (2 <= length c -> totalLen len c <= TARGET_CARD_CAPACITY).

(* ===================================================================== *)
(** ** src/App.tsx: cards and download names                              *)
(* ===================================================================== *)

(** The number of the first verse of a group. *)
Definition firstNumber (c : list VerseUnit) : N :=
  match c with
  | u :: _ => verseNumber u
  | [] => 0%N
  end.

Definition designBackgroundType (d : DesignConfig) : BackgroundType := backgroundType d.
Definition designTextColor (d : DesignConfig) : TextColor := textColor d.
Definition designOpacity (d : DesignConfig) : Q := opacity d.

Module App.

(** [CardConfig] of types.ts, without the optional [customImage], which
    [handleFetchVerse] never sets. *)
Record CardConfig := {
  verse : VerseSegment;
  backgroundType : BackgroundType;
  fontSize : N;
  showTranslation : bool;
  opacity : Q;
  textColor : TextColor
}.

(** [baseSettings]: its [opacity] is not read by [handleFetchVerse]. *)
Definition baseFontSize : N := 55.
Definition baseShowTranslation : bool := true.

(** [newCards] of [handleFetchVerse], from the response of the service. *)
Definition newCards (response : CombinedResponse) : list CardConfig :=
  List.map
    (fun segment =>
       {| verse := segment;
          backgroundType := designBackgroundType (design response);
          textColor := designTextColor (design response);
          opacity := designOpacity (design response);
          fontSize := baseFontSize;
          showTranslation := baseShowTranslation |})
    (segments response).

(** [link.download] of [handleDownload]. *)
Definition downloadName (v : VerseSegment) : jsstring :=
  lit "quran-card-" ++ surah v ++ lit "-" ++ ayah v ++ lit ".png".

End App.

(* ===================================================================== *)
(** ** src/components/VerseCard.tsx: sizes                                *)
(* ===================================================================== *)

Module VerseCard.

(** [dynamicFontSize]: the empty string is falsy and gets 65. *)
Definition dynamicFontSize (arabicText : jsstring) : N :=
  let length := N.of_nat (length arabicText) in
  (if length =? 0 then 65
   else if length <? 60 then 90
   else if length <? 120 then 72
   else if length <? 200 then 60
   else if length <? 300 then 52
   else if length <? 500 then 44
   else if length <? 800 then 36
   else if length <? 1200 then 28
   else if length <? 1800 then 24
   else if length <? 2500 then 20
   else if length <? 3500 then 18
   else 16)%N.

(** [translationFontSize]. *)
Definition translationFontSize (v : VerseSegment) : N :=
  let length := N.of_nat (length (translation v)) in
  let arabicLength := N.of_nat (Datatypes.length (arabic v)) in
  (if length =? 0 then 28
   else if 2000 <? arabicLength then 18
   else if 1000 <? arabicLength then 20
   else if length <? 50 then 40
   else if length <? 100 then 34
   else if length <? 200 then 30
   else if length <? 350 then 26
   else 22)%N.

(** [lineHeight], on the value of [dynamicFontSize]. *)
Definition lineHeight (fontSize : N) : Q :=
  if (60 <? fontSize)%N then (21 # 10)%Q
  else if (40 <? fontSize)%N then (2 # 1)%Q
  else if (fontSize <? 20)%N then (18 # 10)%Q
  else (19 # 10)%Q.

(** [textAlign] of the Arabic paragraph: [true] stands for justify,
    [false] for center. *)
Definition justified (arabicText : jsstring) : bool :=
  (100 <? N.of_nat (length arabicText))%N.

(** [showTranslation && verse.translation]: whether the translation block
    is rendered. *)
Definition showsTranslation (show : bool) (v : VerseSegment) : bool :=
  show && negb (N.of_nat (length (translation v)) =? 0)%N.

End VerseCard.

(* ===================================================================== *)
(** ** The verse range of a request                                       *)
(* ===================================================================== *)

(** The first lines of [fetchVerseAndDesign], the same in both modules.
    [endAyah] is [None] when the argument is omitted; in
    [endAyah && endAyah >= startAyah] the number 0 is falsy. *)
Definition actualEndAyah (startAyah : Z) (endAyah : option Z) : Z :=
  match endAyah with
  | Some e => if negb (e =? 0)%Z && (startAyah <=? e)%Z then e else startAyah
  | None => startAyah
  end.

Definition requestLimit (startAyah : Z) (endAyah : option Z) : Z :=
  (actualEndAyah startAyah endAyah - startAyah + 1)%Z.

Definition requestOffset (startAyah : Z) : Z := (startAyah - 1)%Z.

(* ===================================================================== *)
(** ** src/App.tsx: the selection of verses                               *)
(* ===================================================================== *)

Module Selection.

(** The state behind the three selects and the range switch. *)
Record State := {
  selectedSurah : N;
  startAyah : N;
  endAyah : N;
  isRangeMode : bool
}.

(** The initial values of the [useState] calls. *)
Definition initial : State :=
  {| selectedSurah := 1; startAyah := 1; endAyah := 1; isRangeMode := true |}.

Definition handleSurahChange (newSurah : N) (s : State) : State :=
  {| selectedSurah := newSurah; startAyah := 1; endAyah := 1;
     isRangeMode := isRangeMode s |}.

Definition handleStartAyahChange (val : N) (s : State) : State :=
  {| selectedSurah := selectedSurah s;
     startAyah := val;
     endAyah := if negb (isRangeMode s) || (endAyah s <? val)%N
                then val else endAyah s;
     isRangeMode := isRangeMode s |}.

Definition setEndAyah (val : N) (s : State) : State :=
  {| selectedSurah := selectedSurah s; startAyah := startAyah s;
     endAyah := val; isRangeMode := isRangeMode s |}.

Definition toggleRangeMode (s : State) : State :=
  {| selectedSurah := selectedSurah s; startAyah := startAyah s;
     endAyah := endAyah s; isRangeMode := negb (isRangeMode s) |}.

(** The text of an option in the preview branch of [renderAyahOptions]. *)
Definition previewText (text : jsstring) : jsstring :=
  if 40 <? length text then firstn 40 text ++ lit "..." else text.

(** The options of [previewVerses.map(...)] from index [idx] on: the
    entries below [startFrom] give [null] and render nothing. *)
Fixpoint previewOptions (previewVerses : list Ayah) (idx : nat) (startFrom : N)
  : list (N * option jsstring) :=
  match previewVerses with
  | [] => []
  | ayahObj :: rest =>
      let ayahNum := (N.of_nat idx + 1)%N in
      let others := previewOptions rest (S idx) startFrom in
      if (ayahNum <? startFrom)%N then others
      else (ayahNum, Some (previewText (text ayahObj))) :: others
  end.

(** [renderAyahOptions]: the value of each option and, in the preview
    branch, the verse text shown after the number.
    [Array.from({length: count}, ...)] is empty for a count below one. *)
Definition renderAyahOptions (loadingVerses : bool) (previewVerses : list Ayah)
    (count : Z) (startFrom : N) : list (N * option jsstring) :=
  if negb loadingVerses && (0 <? length previewVerses)
  then previewOptions previewVerses 0 startFrom
  else List.map (fun i => ((N.of_nat i + startFrom)%N, None))
                (seq 0 (Z.to_nat count)).

(** What a click on the button does before the request is sent; the
    language, the fourth argument of the call, is left out. *)
Inductive FetchAction :=
| RangeAlert
| CallService (surahNumber startAyah : N) (endAyah : option N).

Definition handleFetchVerse (s : State) : FetchAction :=
  if isRangeMode s && (endAyah s <? startAyah s)%N
  then RangeAlert
  else CallService (selectedSurah s) (startAyah s)
         (if isRangeMode s then Some (endAyah s) else None).

(** One event of the selection controls.  A select reports one of the
    values it offers; the preview list, its loading flag and the verse
    count of the surah are whatever they are at that moment. *)
Inductive step : State -> State -> Prop :=
| step_surah (newSurah : N) (s : State) :
    step s (handleSurahChange newSurah s)
| step_start (val : N) (s : State) (loadingVerses : bool)
    (previewVerses : list Ayah) (maxVerseCount : Z) :
    In val (List.map fst
              (renderAyahOptions loadingVerses previewVerses maxVerseCount 1)) ->
    step s (handleStartAyahChange val s)
| step_end (val : N) (s : State) (loadingVerses : bool)
    (previewVerses : list Ayah) (maxVerseCount : Z) :
    isRangeMode s = true ->
    In val (List.map fst
              (renderAyahOptions loadingVerses previewVerses
                 (maxVerseCount - Z.of_N (startAyah s) + 1) (startAyah s))) ->
    step s (setEndAyah val s)
| step_toggle (s : State) :
    step s (toggleRangeMode s).

Inductive reachable : State -> Prop :=
| reachable_initial : reachable initial
| reachable_step (s s' : State) : reachable s -> step s s' -> reachable s'.

End Selection.

(* ===================================================================== *)
(** ** The response of the API                                            *)
(* ===================================================================== *)

(** [a === b] on strings. *)
Fixpoint strictEquals (a b : jsstring) : bool :=
  match a, b with
  | [], [] => true
  | x :: a', y :: b' => (x =? y)%N && strictEquals a' b'
  | _, _ => false
  end.

(** [d.edition] of an element of [json.data]. *)
Record EditionInfo := {
  identifier : jsstring;
  language : jsstring;
  editionType : jsstring
}.

(** An element of [json.data]: an object whose [edition] may be missing. *)
Record EditionData := {
  edition : option EditionInfo;
  ayahs : list Ayah;
  englishName : jsstring
}.

(** What [response.json()] resolves to, by the tests the code makes on
    it: a falsy value, a value whose [data] is missing or falsy, one
    whose [data] is not an array, or one with the array [data]. *)
Inductive ResponseJson :=
| JsonFalsy
| JsonWithoutData
| JsonDataNotArray
| JsonData (data : list EditionData).

(** The response of [fetch]: [body] is [None] when the body is not JSON
    and [response.json()] rejects. *)
Record HttpResponse := {
  ok : bool;
  status : N;
  errorText : jsstring;
  body : option ResponseJson
}.

(** How the promise of [fetchVerseAndDesign] is rejected: an [Error]
    with a message, or a TypeError or SyntaxError of the runtime. *)
Inductive Rejection :=
| ErrorMessage (message : jsstring)
| TypeErrorThrown
| SyntaxErrorThrown.

Inductive outcome (A : Type) : Type :=
| Fulfilled : A -> outcome A
| Rejected : Rejection -> outcome A.

Arguments Fulfilled {A} _.
Arguments Rejected {A} _.

Definition ofCompletion {A} (c : completion A) : outcome A :=
  match c with
  | Normal a => Fulfilled a
  | Throw TypeError => Rejected TypeErrorThrown
  end.

(** [throw new Error(`Quran API Error: ${response.status} - ${errorText}`)]. *)
Definition apiError (response : HttpResponse) : Rejection :=
  ErrorMessage (lit "Quran API Error: " ++ Number_toString (status response)
                ++ lit " - " ++ errorText response).

(** [Array.prototype.find], with the index of each element at hand:
    [d !== arabicEd] compares two elements of one array by identity,
    which is the identity of their places. *)
Fixpoint findFrom (A : Type) (p : nat -> A -> bool) (l : list A) (i : nat)
  : option (nat * A) :=
  match l with
  | [] => None
  | a :: l' => if p i a then Some (i, a) else findFrom p l' (S i)
  end.

(** [find] with a callback that can throw. *)
Fixpoint findThrowing (A : Type) (p : A -> completion bool) (l : list A)
  : completion (option A) :=
  match l with
  | [] => Normal None
  | a :: l' => b <- p a ;; if b then Normal (Some a) else findThrowing p l'
  end.

Module Part000Response.

(** [d.edition?.identifier === 'quran-uthmani' ||
     (d.edition?.language === 'ar' && d.edition?.type === 'quran')]. *)
Definition isArabicEdition (d : EditionData) : bool :=
  match edition d with
  | Some e =>
      strictEquals (identifier e) (lit "quran-uthmani")
      || (strictEquals (language e) (lit "ar")
          && strictEquals (editionType e) (lit "quran"))
  | None => false
  end.

(** [d.edition?.identifier !== 'quran-uthmani']: true without [edition]. *)
Definition notUthmani (d : EditionData) : bool :=
  match edition d with
  | Some e => negb (strictEquals (identifier e) (lit "quran-uthmani"))
  | None => true
  end.

(** [d !== arabicEd]. *)
Definition differsFrom (arabicEd : option (nat * EditionData)) (i : nat) : bool :=
  match arabicEd with
  | Some (k, _) => negb (i =? k)
  | None => true
  end.

Definition missingEditions : Rejection :=
  ErrorMessage
    (lit "Invalid response format from Quran API: missing Arabic or Translation editions").

Definition dataArrayMissing : Rejection :=
  ErrorMessage (lit "Invalid response format from Quran API: data array missing").

(** The two [find] calls and the test that follows them. *)
Definition findEditions (data : list EditionData)
  : outcome ((nat * EditionData) * (nat * EditionData)) :=
  let arabicEd := findFrom (fun _ d => isArabicEdition d) data 0 in
  let otherEd :=
    findFrom (fun i d => notUthmani d && differsFrom arabicEd i) data 0 in
  match arabicEd, otherEd with
  | Some a, Some o => Fulfilled (a, o)
  | _, _ => Rejected missingEditions
  end.

Section OnResponse.

Variable toLowerCase : jsstring -> jsstring.
Variable random : RandomDraw.

(** [fetchVerseAndDesign] of part_000 from the response of [fetch] on. *)
Definition fetchVerseAndDesign (response : HttpResponse)
  : outcome CombinedResponse :=
  if negb (ok response) then Rejected (apiError response)
  else
    match body response with
    | None => Rejected SyntaxErrorThrown
    | Some (JsonData data) =>
        match findEditions data with
        | Fulfilled ((_, arabicEd), (_, otherEd)) =>
            ofCompletion
              (Part000.fetchVerseAndDesign toLowerCase random
                 (ayahs arabicEd) (ayahs otherEd) (englishName arabicEd))
        | Rejected r => Rejected r
        end
    | Some _ => Rejected dataArrayMissing
    end.

End OnResponse.

End Part000Response.

Module GeminiResponse.

(** [d.edition.type === wanted]: reading [type] of a missing [edition]
    throws. *)
Definition hasType (wanted : jsstring) (d : EditionData) : completion bool :=
  e <- deref (edition d) ;; Normal (strictEquals (editionType e) wanted).

Definition invalidFormat : Rejection :=
  ErrorMessage (lit "Invalid response format from Quran API").

(** [fetchVerseAndDesign] of geminiService.ts from the response of
    [fetch] on; [ai] is the outcome of the model step. *)
Definition fetchVerseAndDesign (ai : option GeminiService.AiResult)
    (response : HttpResponse) : outcome CombinedResponse :=
  if negb (ok response) then Rejected (apiError response)
  else
    match body response with
    | None => Rejected SyntaxErrorThrown
    | Some (JsonData data) =>
        match findThrowing (hasType (lit "quran")) data with
        | Throw _ => Rejected TypeErrorThrown
        | Normal arabicEd =>
            match findThrowing (hasType (lit "translation")) data with
            | Throw _ => Rejected TypeErrorThrown
            | Normal transEd =>
                match arabicEd, transEd with
                | Some a, Some t =>
                    ofCompletion
                      (GeminiService.fetchVerseAndDesign ai
                         (ayahs a) (ayahs t) (englishName a))
                | _, _ => Rejected invalidFormat
                end
            end
        end
    | Some _ => Rejected TypeErrorThrown
    end.

End GeminiResponse.

(** A response that is [ok] and carries the array [data]. *)
Definition okResponse (data : list EditionData) : HttpResponse :=
  {| ok := true; status := 200; errorText := []; body := Some (JsonData data) |}.

(** The two editions a request asks for, as the API describes them. *)
Definition uthmaniEdition (d : EditionData) : Prop :=
  exists e, edition d = Some e
            /\ identifier e = lit "quran-uthmani"
            /\ editionType e = lit "quran".

Definition translationEdition (d : EditionData) : Prop :=
  exists e, edition d = Some e
            /\ identifier e <> lit "quran-uthmani"
            /\ editionType e = lit "translation".

(** Sample editions for examples. *)
Definition sampleUthmani (verses : list Ayah) : EditionData :=
  {| edition := Some {| identifier := lit "quran-uthmani"; language := lit "ar";
                        editionType := lit "quran" |};
     ayahs := verses; englishName := lit "Al-Faatiha" |}.

Definition sampleTranslation (verses : list Ayah) : EditionData :=
  {| edition := Some {| identifier := lit "en.sahih"; language := lit "en";
                        editionType := lit "translation" |};
     ayahs := verses; englishName := lit "Al-Faatiha" |}.

(* ===================================================================== *)
(** ** The edition of a language                                          *)
(* ===================================================================== *)

(** The names every object inherits from [Object.prototype]: reading one
    of them from an object literal gives a function or an object, not
    [undefined]. *)
Definition objectPrototypeKeys : list jsstring :=
  [lit "constructor"; lit "hasOwnProperty"; lit "isPrototypeOf";
   lit "propertyIsEnumerable"; lit "toLocaleString"; lit "toString";
   lit "valueOf"; lit "__proto__"; lit "__defineGetter__";
   lit "__defineSetter__"; lit "__lookupGetter__"; lit "__lookupSetter__"].

(** The edition put into the request: a string, or the inherited member
    that [LANGUAGE_EDITIONS[language]] gives for such a name. *)
Inductive EditionChoice :=
| EditionName (name : jsstring)
| PrototypeMember.

(** [table[language] || 'en.sahih'] on an object literal with the entries
    [table]: an empty string is falsy as [undefined] is. *)
Definition editionIn (table : list (jsstring * jsstring)) (language : jsstring)
  : EditionChoice :=
  match List.find (fun entry => strictEquals (fst entry) language) table with
  | Some entry =>
      if length (snd entry) =? 0 then EditionName (lit "en.sahih")
      else EditionName (snd entry)
  | None =>
      if List.existsb (strictEquals language) objectPrototypeKeys
      then PrototypeMember
      else EditionName (lit "en.sahih")
  end.

Module Part000Request.

Definition LANGUAGE_EDITIONS : list (jsstring * jsstring) :=
  [(lit "English", lit "en.sahih");
   (lit "French", lit "fr.hamidullah");
   (lit "Spanish", lit "es.cortes");
   (lit "German", lit "de.bubenheim");
   (lit "Russian", lit "ru.kuliev");
   (lit "Indonesian", lit "id.indonesian");
   (lit "Turkish", lit "tr.diyanet");
   (lit "Urdu", lit "ur.jalandhry");
   (lit "Italian", lit "it.piccardo");
   (lit "Dutch", lit "nl.keyzer");
   (lit "Chinese", lit "zh.jian")].

Definition edition (language : jsstring) : EditionChoice :=
  editionIn LANGUAGE_EDITIONS language.

End Part000Request.

Module GeminiRequest.

Definition LANGUAGE_EDITIONS : list (jsstring * jsstring) :=
  [(lit "English", lit "en.sahih");
   (lit "French", lit "fr.hamidullah");
   (lit "Spanish", lit "es.cortes");
   (lit "German", lit "de.bubenheim");
   (lit "Russian", lit "ru.kuliev");
   (lit "Greek", lit "el.vlachos");
   (lit "Indonesian", lit "id.indonesian");
   (lit "Turkish", lit "tr.diyanet");
   (lit "Urdu", lit "ur.jalandhry");
   (lit "Italian", lit "it.piccardo");
   (lit "Dutch", lit "nl.keyzer");
   (lit "Chinese", lit "zh.jian")].

Definition edition (language : jsstring) : EditionChoice :=
  editionIn LANGUAGE_EDITIONS language.

End GeminiRequest.

(* ===================================================================== *)
(** * Properties                                                          *)
(* ===================================================================== *)

(** ** The buffers of the loop *)

Section ChunkFacts.

Variable X : Type.
Variable len : X -> nat.

Lemma totalLen_app (a b : list X) :
  totalLen len (a ++ b) = totalLen len a + totalLen len b.
Proof.
  unfold totalLen. rewrite map_app, list_sum_app. reflexivity.
Qed.

Lemma totalLen_one (v : X) : totalLen len [v] = len v.
Proof. unfold totalLen. simpl. lia. Qed.

Lemma totalLen_snoc (cur : list X) (v : X) :
  totalLen len (cur ++ [v]) = totalLen len cur + len v.
Proof. rewrite totalLen_app, totalLen_one. reflexivity. Qed.

Lemma positive_length_nonempty (l : list X) :
  (0 <? length l) = true <-> l <> [].
Proof.
  destruct l; simpl; split; intro H; try congruence; try discriminate.
  reflexivity.
Qed.

Lemma chunkLoop_concat (rest cur : list X) (n : nat) :
  concat (chunkLoop len rest cur n) = cur ++ rest.
Proof.
  revert cur n. induction rest as [|v rest IH]; intros cur n; simpl.
  - destruct cur; simpl; [reflexivity|].
    now rewrite !app_nil_r.
  - destruct ((TARGET_CARD_CAPACITY <? n + len v) && (0 <? length cur)).
    + simpl. rewrite IH. reflexivity.
    + rewrite IH, <- app_assoc. reflexivity.
Qed.

Lemma chunkLoop_nonempty (rest cur : list X) (n : nat) :
  Forall (fun c => c <> []) (chunkLoop len rest cur n).
Proof.
  revert cur n. induction rest as [|v rest IH]; intros cur n; simpl.
  - destruct cur; simpl; constructor; [discriminate | constructor].
  - destruct (TARGET_CARD_CAPACITY <? n + len v); simpl; [|apply IH].
    destruct (0 <? length cur) eqn:E; [|apply IH].
    constructor; [now apply positive_length_nonempty | apply IH].
Qed.

(** A buffer that is not empty is the beginning of the first group. *)
Lemma chunkLoop_head (rest cur : list X) (n : nat) :
  cur <> [] ->
  exists more cs, chunkLoop len rest cur n = (cur ++ more) :: cs.
Proof.
  revert cur n. induction rest as [|v rest IH]; intros cur n Hne; simpl.
  - apply positive_length_nonempty in Hne. rewrite Hne.
    exists [], []. now rewrite app_nil_r.
  - destruct ((TARGET_CARD_CAPACITY <? n + len v) && (0 <? length cur)).
    + exists [], (chunkLoop len rest [v] (len v)). now rewrite app_nil_r.
    + destruct (IH (cur ++ [v]) (n + len v)) as (more & cs & E).
      { destruct cur; discriminate. }
      exists (v :: more), cs. rewrite E, <- app_assoc. reflexivity.
Qed.

(** Groups of two verses or more stay within the capacity. *)
Lemma chunkLoop_capacity (rest cur : list X) (n : nat) :
  n = totalLen len cur ->
  (2 <= length cur -> totalLen len cur <= TARGET_CARD_CAPACITY) ->
  Forall (fun c => 2 <= length c -> totalLen len c <= TARGET_CARD_CAPACITY)
         (chunkLoop len rest cur n).
Proof.
  revert cur n. induction rest as [|v rest IH]; intros cur n Hn Hcap; simpl.
  - destruct (0 <? length cur); [apply Forall_cons; [assumption|] |]; apply Forall_nil.
  - destruct (TARGET_CARD_CAPACITY <? n + len v) eqn:Eover; simpl.
    + destruct (0 <? length cur) eqn:Ecur.
      * constructor; [assumption|].
        apply IH; [now rewrite totalLen_one | simpl; lia].
      * apply Nat.ltb_ge in Ecur.
        assert (cur = []) by (destruct cur; [reflexivity | simpl in Ecur; lia]).
        subst cur. apply IH; [now rewrite totalLen_snoc, Hn | simpl; lia].
    + apply Nat.ltb_ge in Eover.
      apply IH; [now rewrite totalLen_snoc, Hn |].
      intros _. rewrite totalLen_snoc. lia.
Qed.

Lemma chunkLoop_closedWhenFull (rest cur : list X) (n : nat) :
  n = totalLen len cur ->
  closedWhenFull len (chunkLoop len rest cur n).
Proof.
  revert cur n. induction rest as [|v rest IH]; intros cur n Hn; simpl.
  - destruct (0 <? length cur); simpl; auto.
  - destruct (TARGET_CARD_CAPACITY <? n + len v) eqn:Eover; simpl.
    + destruct (0 <? length cur) eqn:Ecur.
      * destruct (chunkLoop_head rest (len v) (cur := [v])) as (more & cs & E);
          [discriminate|].
        simpl. split.
        -- rewrite E. simpl. apply Nat.ltb_lt in Eover. lia.
        -- apply IH. now rewrite totalLen_one.
      * apply IH. now rewrite totalLen_snoc, Hn.
    + apply IH. now rewrite totalLen_snoc, Hn.
Qed.

Lemma closedWhenFull_nth (cs : list (list X)) (j : nat) (c d : list X) (v : X) :
  closedWhenFull len cs ->
  nth_error cs j = Some c ->
  nth_error cs (S j) = Some d ->
  hd_error d = Some v ->
  TARGET_CARD_CAPACITY < totalLen len c + len v.
Proof.
  revert j. induction cs as [|c0 cs IH]; intros j Hcl Hc Hd Hv.
  - destruct j; discriminate.
  - destruct j as [|j]; simpl in Hc, Hd.
    + injection Hc as ->. destruct cs as [|d0 cs]; [discriminate|].
      simpl in Hd. injection Hd as ->.
      destruct d as [|v0 d]; [discriminate|]. injection Hv as ->.
      apply Hcl.
    + apply (IH j); [apply Hcl | assumption | assumption | assumption].
Qed.

End ChunkFacts.

Lemma chunkLoop_map (X Y : Type) (lenX : X -> nat) (lenY : Y -> nat) (f : X -> Y)
    (rest cur : list X) (n : nat) :
  (forall x, lenY (f x) = lenX x) ->
  chunkLoop lenY (List.map f rest) (List.map f cur) n
  = List.map (List.map f) (chunkLoop lenX rest cur n).
Proof.
  intros Hlen. revert cur n. induction rest as [|v rest IH]; intros cur n; simpl.
  - rewrite length_map. destruct (0 <? length cur); reflexivity.
  - rewrite length_map, Hlen.
    destruct ((TARGET_CARD_CAPACITY <? n + lenX v) && (0 <? length cur)).
    + simpl. f_equal. apply (IH [v]).
    + rewrite <- IH, map_app. reflexivity.
Qed.

(** ** From the loop to its groups *)

Lemma combine_snoc (A B : Type) (la : list A) (lb : list B) (a : A) (b : B) :
  length la = length lb ->
  combine (la ++ [a]) (lb ++ [b]) = combine la lb ++ [(a, b)].
Proof.
  revert lb. induction la as [|x la IH]; intros [|y lb] H; simpl in *;
    try discriminate; [reflexivity|].
  f_equal. apply IH. lia.
Qed.

Lemma map_fst_combine (A B : Type) (la : list A) (lb : list B) :
  length la = length lb -> List.map fst (combine la lb) = la.
Proof.
  revert lb. induction la as [|x la IH]; intros [|y lb] H; simpl in *;
    try discriminate; [reflexivity|].
  f_equal. apply IH. lia.
Qed.

Lemma map_snd_combine (A B : Type) (la : list A) (lb : list B) :
  length la = length lb -> List.map snd (combine la lb) = lb.
Proof.
  revert lb. induction la as [|x la IH]; intros [|y lb] H; simpl in *;
    try discriminate; [reflexivity|].
  f_equal. apply IH. lia.
Qed.

Section LoopFacts.

Variable readTrans : list Ayah -> nat -> Ayah -> option Ayah.
Variable transAyahs : list Ayah.
Variable surahName : jsstring.

Lemma groupingLoop_pushAll (rest : list Ayah) (i : nat) (st : LoopState) :
  length (currentChunkArabic st) = length (currentChunkTrans st) ->
  (st' <- groupingLoop readTrans transAyahs surahName rest i st ;;
   pushRemaining surahName st')
  = pushAll (segs st)
      (chunkLoop pairLength (pairTrans readTrans transAyahs i rest)
         (combine (currentChunkArabic st) (currentChunkTrans st))
         (currentLength st))
      surahName.
Proof.
  revert i st. induction rest as [|verse rest IH]; intros i st Hlen.
  - simpl. unfold pushRemaining. rewrite length_combine, <- Hlen, Nat.min_id.
    destruct (0 <? length (currentChunkArabic st)); simpl; [|reflexivity].
    rewrite map_fst_combine, map_snd_combine by assumption.
    destruct (pushSegment _ _ _ _); reflexivity.
  - simpl. rewrite length_combine, <- Hlen, Nat.min_id.
    unfold pairLength at 1. simpl fst.
    destruct ((TARGET_CARD_CAPACITY <? currentLength st + length (text verse))
              && (0 <? length (currentChunkArabic st))).
    + simpl. rewrite map_fst_combine, map_snd_combine by assumption.
      destruct (pushSegment _ _ _ _) as [segs'|e]; simpl; [|reflexivity].
      rewrite IH by reflexivity. reflexivity.
    + simpl. rewrite IH by (simpl; rewrite !length_app; simpl; lia).
      simpl. rewrite combine_snoc by assumption. reflexivity.
Qed.

Lemma groupAyahs_pushAll (arabicAyahs : list Ayah) :
  groupAyahs readTrans transAyahs surahName arabicAyahs
  = pushAll [] (chunks pairLength (pairTrans readTrans transAyahs 0 arabicAyahs))
      surahName.
Proof.
  unfold groupAyahs, chunks.
  exact (groupingLoop_pushAll arabicAyahs 0
           {| segs := []; currentChunkArabic := []; currentChunkTrans := [];
              currentLength := 0 |} eq_refl).
Qed.

End LoopFacts.

(** ** pushSegment on a group *)

Lemma throw_is_TypeError (A : Type) (e : JsError) : @Throw A e = Throw TypeError.
Proof. destruct e. reflexivity. Qed.

Lemma mapM_defined (A B : Type) (f : A -> B) (l : list A) :
  mapM (fun t : option A => t' <- deref t ;; Normal (f t')) (List.map Some l)
  = Normal (List.map f l).
Proof.
  induction l as [|a l IH]; simpl; [reflexivity|].
  rewrite IH. reflexivity.
Qed.

Lemma mapM_undefined (A B : Type) (f : A -> B) (l : list (option A)) :
  In None l ->
  mapM (fun t : option A => t' <- deref t ;; Normal (f t')) l = Throw TypeError.
Proof.
  induction l as [|a l IH]; simpl; [tauto|].
  intros [-> | H]; [reflexivity|].
  destruct a; simpl; [|reflexivity].
  rewrite (IH H). reflexivity.
Qed.

Lemma nth_error_last (A : Type) (l : list A) (d : A) :
  l <> [] -> nth_error l (length l - 1) = Some (last l d).
Proof.
  induction l as [|a l IH]; [congruence|]. intros _.
  destruct l as [|b l]; [reflexivity|].
  replace (length (a :: b :: l) - 1) with (S (length (b :: l) - 1))
    by (simpl; lia).
  change (last (a :: b :: l) d) with (last (b :: l) d).
  simpl nth_error at 1. apply IH. discriminate.
Qed.

Lemma last_map (A B : Type) (f : A -> B) (l : list A) (d : A) :
  last (List.map f l) (f d) = f (last l d).
Proof.
  induction l as [|a l IH]; [reflexivity|].
  destruct l; [reflexivity|]. exact IH.
Qed.

Lemma pushSegment_rendered (segs0 : list VerseSegment) (c : list VerseUnit)
    (surahName : jsstring) :
  c <> [] ->
  pushSegment segs0 (List.map fst (List.map withTranslation c))
    (List.map snd (List.map withTranslation c)) surahName
  = Normal (segs0 ++ [renderGroup surahName c]).
Proof.
  intros Hne. destruct c as [|u c]; [congruence|].
  unfold pushSegment, VerseUnit in *. rewrite !map_map.
  change (fun x : Ayah * Ayah => fst (withTranslation x)) with (@fst Ayah Ayah).
  change (fun x : Ayah * Ayah => snd (withTranslation x))
    with (fun x : Ayah * Ayah => Some (snd x)).
  rewrite (@nth_error_last _ (List.map fst (u :: c)) (fst u)) by discriminate.
  rewrite last_map.
  rewrite <- (map_map snd Some), mapM_defined.
  cbn [deref bind nth_error List.map]. unfold renderGroup, verseNumber.
  rewrite !map_map. reflexivity.
Qed.

Lemma pushSegment_undefined (segs0 : list VerseSegment) (arabicChunk : list Ayah)
    (transChunk : list (option Ayah)) (surahName : jsstring) :
  In None transChunk ->
  pushSegment segs0 arabicChunk transChunk surahName = Throw TypeError.
Proof.
  intros H. unfold pushSegment.
  destruct (deref (nth_error arabicChunk 0)); simpl; [|apply throw_is_TypeError].
  destruct (deref (nth_error arabicChunk _)); simpl; [|apply throw_is_TypeError].
  rewrite (mapM_undefined _ _ H). reflexivity.
Qed.

Lemma pushAll_rendered (segs0 : list VerseSegment) (cs : list (list VerseUnit))
    (surahName : jsstring) :
  Forall (fun c => c <> []) cs ->
  pushAll segs0 (List.map (List.map withTranslation) cs) surahName
  = Normal (segs0 ++ List.map (renderGroup surahName) cs).
Proof.
  intros H. revert segs0. induction H as [|c cs Hc _ IH]; intros segs0; simpl.
  - now rewrite app_nil_r.
  - rewrite (pushSegment_rendered segs0 surahName Hc). simpl.
    rewrite IH, <- app_assoc. reflexivity.
Qed.

Lemma pushAll_undefined (segs0 : list VerseSegment)
    (cs : list (list (Ayah * option Ayah))) (surahName : jsstring) :
  In None (List.map snd (concat cs)) ->
  pushAll segs0 cs surahName = Throw TypeError.
Proof.
  revert segs0. induction cs as [|c cs IH]; intros segs0 H; simpl in *; [tauto|].
  rewrite map_app in H. apply in_app_or in H.
  destruct (pushSegment segs0 _ _ surahName) as [segs'|e] eqn:E; simpl.
  - destruct H as [H|H]; [|now apply IH].
    rewrite pushSegment_undefined in E by exact H. discriminate.
  - apply throw_is_TypeError.
Qed.

(** ** What the two modules read as translations *)

Lemma pairTrans_part000 (transAyahs rest : list Ayah) (i : nat) :
  pairTrans Part000.readTrans transAyahs i rest
  = List.map withTranslation (verseUnitsFrom transAyahs i rest).
Proof.
  revert i. induction rest as [|verse rest IH]; intros i; simpl; [reflexivity|].
  rewrite IH. unfold Part000.readTrans, withTranslation, emptyTranslation. simpl.
  destruct (nth_error transAyahs i); reflexivity.
Qed.

Lemma pairTrans_gemini_covered (transAyahs rest : list Ayah) (i : nat) :
  i + length rest <= length transAyahs ->
  pairTrans GeminiService.readTrans transAyahs i rest
  = pairTrans Part000.readTrans transAyahs i rest.
Proof.
  revert i. induction rest as [|verse rest IH]; intros i H; simpl in *; [reflexivity|].
  rewrite IH by lia. unfold GeminiService.readTrans, Part000.readTrans.
  destruct (nth_error transAyahs i) eqn:E; [reflexivity|].
  apply nth_error_None in E. lia.
Qed.

Lemma pairTrans_gemini_short (transAyahs rest : list Ayah) (i : nat) :
  i <= length transAyahs ->
  length transAyahs < i + length rest ->
  In None (List.map snd (pairTrans GeminiService.readTrans transAyahs i rest)).
Proof.
  revert i. induction rest as [|verse rest IH]; intros i Hi H; simpl in *; [lia|].
  unfold GeminiService.readTrans at 1.
  destruct (nth_error transAyahs i) eqn:E; [right | left; reflexivity].
  assert (i < length transAyahs) by (apply nth_error_Some; congruence).
  apply IH; lia.
Qed.

Lemma verseUnits_sourceLength (u : VerseUnit) :
  pairLength (withTranslation u) = sourceLength u.
Proof. reflexivity. Qed.

(** ** The segments of a call *)

Lemma groupAyahs_part000 (arabicAyahs transAyahs : list Ayah) (surahName : jsstring) :
  groupAyahs Part000.readTrans transAyahs surahName arabicAyahs
  = Normal (List.map (renderGroup surahName) (verseGroups arabicAyahs transAyahs)).
Proof.
  rewrite groupAyahs_pushAll, pairTrans_part000. unfold chunks.
  change (@nil (Ayah * option Ayah)) with (List.map withTranslation []).
  rewrite (chunkLoop_map sourceLength pairLength withTranslation _ _ _
             verseUnits_sourceLength).
  rewrite pushAll_rendered by apply chunkLoop_nonempty.
  reflexivity.
Qed.

Lemma groupAyahs_gemini (arabicAyahs transAyahs : list Ayah) (surahName : jsstring) :
  groupAyahs GeminiService.readTrans transAyahs surahName arabicAyahs
  = if length arabicAyahs <=? length transAyahs
    then Normal (List.map (renderGroup surahName) (verseGroups arabicAyahs transAyahs))
    else Throw TypeError.
Proof.
  destruct (Nat.leb_spec (length arabicAyahs) (length transAyahs)) as [H|H].
  - rewrite <- groupAyahs_part000, !groupAyahs_pushAll.
    rewrite pairTrans_gemini_covered by (simpl; lia). reflexivity.
  - rewrite groupAyahs_pushAll. apply pushAll_undefined.
    unfold chunks. rewrite chunkLoop_concat. simpl.
    apply pairTrans_gemini_short; simpl; lia.
Qed.

Lemma produces_verseGroups (arabicAyahs transAyahs : list Ayah) (surahName : jsstring) :
  producesSegments arabicAyahs transAyahs surahName
    (List.map (renderGroup surahName) (verseGroups arabicAyahs transAyahs)).
Proof.
  split.
  - intros toLowerCase random. unfold Part000.fetchVerseAndDesign, segmentsOf.
    rewrite groupAyahs_part000. reflexivity.
  - intros ai. unfold GeminiService.fetchVerseAndDesign, segmentsOf.
    rewrite groupAyahs_gemini.
    destruct (length arabicAyahs <=? length transAyahs); reflexivity.
Qed.

(** ** Verse units and positions inside groups *)

Lemma verseUnitsFrom_fst (transAyahs rest : list Ayah) (i : nat) :
  List.map fst (verseUnitsFrom transAyahs i rest) = rest.
Proof.
  revert i. induction rest as [|verse rest IH]; intros i; simpl; [reflexivity|].
  now rewrite IH.
Qed.

Lemma verseUnits_fst (arabicAyahs transAyahs : list Ayah) :
  List.map fst (verseUnits arabicAyahs transAyahs) = arabicAyahs.
Proof. apply verseUnitsFrom_fst. Qed.

Lemma verseUnits_length (arabicAyahs transAyahs : list Ayah) :
  length (verseUnits arabicAyahs transAyahs) = length arabicAyahs.
Proof. rewrite <- (verseUnits_fst arabicAyahs transAyahs) at 2. now rewrite length_map. Qed.

Lemma verseUnitsFrom_nth (transAyahs rest : list Ayah) (i k : nat) (verse : Ayah) :
  nth_error rest k = Some verse ->
  nth_error (verseUnitsFrom transAyahs i rest) k
  = Some (verse, match nth_error transAyahs (i + k) with
                 | Some t => t
                 | None => emptyTranslation verse
                 end).
Proof.
  revert i k. induction rest as [|v rest IH]; intros i [|k] H; simpl in *;
    try discriminate.
  - injection H as ->. now rewrite Nat.add_0_r.
  - rewrite (IH (S i) k H). now rewrite Nat.add_succ_r.
Qed.

Lemma verseGroups_concat (arabicAyahs transAyahs : list Ayah) :
  concat (verseGroups arabicAyahs transAyahs) = verseUnits arabicAyahs transAyahs.
Proof. unfold verseGroups, chunks. now rewrite chunkLoop_concat. Qed.

Lemma verseGroups_nonempty (arabicAyahs transAyahs : list Ayah) :
  Forall (fun c => c <> []) (verseGroups arabicAyahs transAyahs).
Proof. apply chunkLoop_nonempty. Qed.

Lemma verseGroups_capacity (arabicAyahs transAyahs : list Ayah) :
  Forall (fun c => 2 <= length c -> totalLen sourceLength c <= TARGET_CARD_CAPACITY)
         (verseGroups arabicAyahs transAyahs).
Proof. apply chunkLoop_capacity; [reflexivity | simpl; lia]. Qed.

Section Positions.

Variable X : Type.

Lemma groupOffset_succ (c : list X) (cs : list (list X)) (j : nat) :
  groupOffset (c :: cs) (S j) = length c + groupOffset cs j.
Proof. unfold groupOffset. simpl. now rewrite length_app. Qed.

Lemma unitAt_bound (cs : list (list X)) (j k : nat) (x : X) :
  unitAt cs j k = Some x ->
  exists c, nth_error cs j = Some c /\ k < length c.
Proof.
  unfold unitAt. destruct (nth_error cs j) as [c|]; [|discriminate].
  intros H. exists c. split; [reflexivity|].
  apply nth_error_Some. congruence.
Qed.

(** Every position of the concatenation lies in some group. *)
Lemma concat_position (cs : list (list X)) (i : nat) (x : X) :
  nth_error (concat cs) i = Some x ->
  exists j k, unitAt cs j k = Some x /\ groupOffset cs j + k = i.
Proof.
  revert i. induction cs as [|c cs IH]; intros i H; simpl in H.
  - destruct i; discriminate.
  - destruct (Nat.lt_ge_cases i (length c)) as [Hlt|Hge].
    + rewrite nth_error_app1 in H by assumption.
      exists 0, i. split; [exact H | reflexivity].
    + rewrite nth_error_app2 in H by assumption.
      destruct (IH _ H) as (j & k & Hu & Ho).
      exists (S j), k. split; [exact Hu|].
      rewrite groupOffset_succ. lia.
Qed.

(** Two places in the groups are never the same position of the input. *)
Lemma position_unique (cs : list (list X)) (j k j' k' : nat) (x x' : X) :
  unitAt cs j k = Some x ->
  unitAt cs j' k' = Some x' ->
  groupOffset cs j + k = groupOffset cs j' + k' ->
  j = j' /\ k = k'.
Proof.
  revert j j'. induction cs as [|c cs IH]; intros j j' H H' E.
  - unfold unitAt in H. destruct j; discriminate.
  - destruct j as [|j], j' as [|j'].
    + unfold groupOffset in E. simpl in E. split; [reflexivity | lia].
    + apply unitAt_bound in H. destruct H as (c0 & Hc & Hk).
      simpl in Hc. injection Hc as <-.
      rewrite groupOffset_succ in E. unfold groupOffset in E. simpl in E. lia.
    + apply unitAt_bound in H'. destruct H' as (c0 & Hc & Hk).
      simpl in Hc. injection Hc as <-.
      rewrite groupOffset_succ in E. unfold groupOffset in E. simpl in E. lia.
    + rewrite !groupOffset_succ in E.
      destruct (IH j j' H H') as [-> ->]; [lia|]. split; reflexivity.
Qed.

(** The group that holds position [i], split around it. *)
Lemma concat_split_at (cs : list (list X)) (i : nat) (x : X) :
  nth_error (concat cs) i = Some x ->
  exists before c1 c2 after,
    cs = before ++ (c1 ++ x :: c2) :: after
    /\ i = length (concat before) + length c1.
Proof.
  revert i. induction cs as [|c cs IH]; intros i H; simpl in H.
  - destruct i; discriminate.
  - destruct (Nat.lt_ge_cases i (length c)) as [Hlt|Hge].
    + rewrite nth_error_app1 in H by assumption.
      apply nth_error_split in H. destruct H as (c1 & c2 & -> & Hlen).
      exists [], c1, c2, cs. split; [reflexivity | simpl; lia].
    + rewrite nth_error_app2 in H by assumption.
      destruct (IH _ H) as (before & c1 & c2 & after & -> & Hi).
      exists (c :: before), c1, c2, after. split; [reflexivity|].
      simpl. rewrite length_app. lia.
Qed.

End Positions.

(* ===================================================================== *)
(** * The Segmenter                                                       *)
(* ===================================================================== *)

(** C1. The segments of a call are the renderings, in order, of groups of
    consecutive verses whose concatenation is the input: each position of
    the input is one place of exactly one group, and the empty input gives
    no segment. *)
Theorem segments_partition_input
    (arabicAyahs transAyahs : list Ayah) (surahName : jsstring) :
  let groups := verseGroups arabicAyahs transAyahs in
  producesSegments arabicAyahs transAyahs surahName
    (List.map (renderGroup surahName) groups)
  /\ concat groups = verseUnits arabicAyahs transAyahs
  /\ concat (List.map (List.map fst) groups) = arabicAyahs
  /\ (forall i u,
        nth_error (verseUnits arabicAyahs transAyahs) i = Some u ->
        exists j k,
          unitAt groups j k = Some u
          /\ groupOffset groups j + k = i
          /\ forall j' k' u',
               unitAt groups j' k' = Some u' ->
               groupOffset groups j' + k' = i ->
               j' = j /\ k' = k)
  /\ producesSegments [] transAyahs surahName [].
Proof.
  intros groups. split; [apply produces_verseGroups|].
  split; [apply verseGroups_concat|].
  split.
  { rewrite <- concat_map, <- (verseUnits_fst arabicAyahs transAyahs).
    f_equal. apply verseGroups_concat. }
  split; [|apply (produces_verseGroups [] transAyahs surahName)].
  intros i u Hu. subst groups.
  rewrite <- verseGroups_concat in Hu.
  destruct (concat_position _ _ Hu) as (j & k & Hjk & Ho).
  exists j, k. split; [exact Hjk|]. split; [exact Ho|].
  intros j' k' u' Hjk' Ho'.
  eapply position_unique; [exact Hjk' | exact Hjk | lia].
Qed.

Lemma segments_partition_input_witness :
  exists j k,
    unitAt (verseGroups [sampleVerse 1 200; sampleVerse 2 100; sampleVerse 3 200] [])
           j k
    = Some (sampleVerse 3 200, emptyTranslation (sampleVerse 3 200))
    /\ j = 1 /\ k = 0.
Proof.
  destruct (segments_partition_input
              [sampleVerse 1 200; sampleVerse 2 100; sampleVerse 3 200] [] [])
    as (_ & _ & _ & H & _).
  destruct (H 2 (sampleVerse 3 200, emptyTranslation (sampleVerse 3 200)) eq_refl)
    as (j & k & Hu & Ho & Huniq).
  exists j, k. split; [exact Hu|].
  destruct (Huniq 1 0 (sampleVerse 3 200, emptyTranslation (sampleVerse 3 200)))
    as [<- <-]; [vm_compute; reflexivity | vm_compute; reflexivity |].
  split; reflexivity.
Defined.

(** C2. With the capacity 450, a segment of two verses or more has a
    combined source length within the capacity, and a segment that is not
    the last one was closed because the first verse of the next segment
    would have taken it over the capacity. *)
Theorem segments_within_capacity_and_maximal
    (arabicAyahs transAyahs : list Ayah) (surahName : jsstring) :
  let groups := verseGroups arabicAyahs transAyahs in
  producesSegments arabicAyahs transAyahs surahName
    (List.map (renderGroup surahName) groups)
  /\ TARGET_CARD_CAPACITY = 450
  /\ Forall (fun c => 2 <= length c -> totalLen sourceLength c <= 450) groups
  /\ (forall j c next v,
        nth_error groups j = Some c ->
        nth_error groups (S j) = Some next ->
        hd_error next = Some v ->
        450 < totalLen sourceLength c + sourceLength v).
Proof.
  intros groups. split; [apply produces_verseGroups|].
  split; [reflexivity|].
  split; [apply verseGroups_capacity|].
  intros j c next v Hc Hn Hv.
  eapply closedWhenFull_nth; [|exact Hc | exact Hn | exact Hv].
  apply chunkLoop_closedWhenFull. reflexivity.
Qed.

Lemma segments_within_capacity_and_maximal_witness :
  450 < totalLen sourceLength
          [(sampleVerse 1 200, emptyTranslation (sampleVerse 1 200));
           (sampleVerse 2 100, emptyTranslation (sampleVerse 2 100))]
        + sourceLength (sampleVerse 3 200, emptyTranslation (sampleVerse 3 200)).
Proof.
  destruct (segments_within_capacity_and_maximal
              [sampleVerse 1 200; sampleVerse 2 100; sampleVerse 3 200] [] [])
    as (_ & _ & _ & H).
  apply (H 0 _ [(sampleVerse 3 200, emptyTranslation (sampleVerse 3 200))]);
    reflexivity.
Defined.

(** C10. No segment is empty, so there are at most as many segments as
    verses. *)
Theorem segments_nonempty_and_bounded
    (arabicAyahs transAyahs : list Ayah) (surahName : jsstring) :
  let groups := verseGroups arabicAyahs transAyahs in
  let segs := List.map (renderGroup surahName) groups in
  producesSegments arabicAyahs transAyahs surahName segs
  /\ Forall (fun c => 1 <= length c) groups
  /\ length segs <= length arabicAyahs.
Proof.
  intros groups segs. split; [apply produces_verseGroups|].
  assert (Hne : Forall (fun c : list VerseUnit => 1 <= length c) groups).
  { eapply Forall_impl; [|apply verseGroups_nonempty].
    intros [|u c] H; [congruence | simpl; lia]. }
  split; [exact Hne|].
  subst segs. rewrite length_map, <- (verseUnits_length arabicAyahs transAyahs).
  rewrite <- verseGroups_concat. fold groups.
  clear - Hne. induction Hne as [|c cs Hc _ IH]; simpl; [lia|].
  rewrite length_app. lia.
Qed.

(** C3. A verse longer than the capacity is in the output, whole, in a
    segment that holds no other verse, at its place in the order. *)
Theorem oversized_verse_has_own_segment
    (arabicAyahs transAyahs : list Ayah) (surahName : jsstring)
    (i : nat) (verse : Ayah) :
  nth_error arabicAyahs i = Some verse ->
  450 < length (text verse) ->
  exists t before after,
    nth_error (verseUnits arabicAyahs transAyahs) i = Some (verse, t)
    /\ verseGroups arabicAyahs transAyahs = before ++ [(verse, t)] :: after
    /\ concat before = firstn i (verseUnits arabicAyahs transAyahs)
    /\ producesSegments arabicAyahs transAyahs surahName
         (List.map (renderGroup surahName) before
            ++ renderGroup surahName [(verse, t)]
            :: List.map (renderGroup surahName) after)
    /\ arabic (renderGroup surahName [(verse, t)])
       = text verse ++ ayahMark ++ convertToArabicNumerals (numberInSurah verse).
Proof.
  intros Hverse Hbig.
  pose proof (verseUnitsFrom_nth transAyahs arabicAyahs 0 i Hverse) as Hu.
  fold (verseUnits arabicAyahs transAyahs) in Hu.
  set (t := match nth_error transAyahs (0 + i) with
            | Some t => t
            | None => emptyTranslation verse
            end) in Hu.
  exists t.
  pose proof Hu as Hsplit. rewrite <- verseGroups_concat in Hsplit.
  apply concat_split_at in Hsplit.
  destruct Hsplit as (before & c1 & c2 & after & Hgroups & Hi).
  assert (Halone : c1 = [] /\ c2 = []).
  { pose proof (verseGroups_capacity arabicAyahs transAyahs) as Hcap.
    rewrite Hgroups in Hcap. apply Forall_app in Hcap. destruct Hcap as [_ Hcap].
    apply Forall_inv in Hcap.
    rewrite totalLen_app, length_app in Hcap.
    change (c1 ++ (verse, t) :: c2) with (c1 ++ [(verse, t)] ++ c2) in Hcap.
    change ((verse, t) :: c2) with ([(verse, t)] ++ c2) in Hcap.
    rewrite totalLen_app, totalLen_one, length_app in Hcap.
    unfold sourceLength in Hcap at 2. simpl in Hcap.
    unfold TARGET_CARD_CAPACITY in Hcap.
    destruct c1, c2; simpl in Hcap; try (split; reflexivity); lia. }
  destruct Halone as [-> ->]. simpl in Hgroups, Hi.
  exists before, after. split; [exact Hu|]. split; [exact Hgroups|].
  split.
  { rewrite <- verseGroups_concat, Hgroups, concat_app, Hi, Nat.add_0_r.
    rewrite firstn_app, Nat.sub_diag, firstn_all, firstn_O, app_nil_r.
    reflexivity. }
  split; [|reflexivity].
  pose proof (produces_verseGroups arabicAyahs transAyahs surahName) as Hp.
  rewrite Hgroups, map_app in Hp. exact Hp.
Qed.

Lemma oversized_verse_has_own_segment_witness :
  let input := [sampleVerse 1 100; sampleVerse 2 451; sampleVerse 3 100] in
  nth_error input 1 = Some (sampleVerse 2 451)
  /\ 450 < length (text (sampleVerse 2 451))
  /\ exists t before after,
       verseGroups input [] = before ++ [(sampleVerse 2 451, t)] :: after
       /\ concat before = firstn 1 (verseUnits input []).
Proof.
  intros input.
  assert (Hverse : nth_error input 1 = Some (sampleVerse 2 451)) by reflexivity.
  assert (Hbig : 450 < length (text (sampleVerse 2 451))) by (vm_compute; lia).
  split; [exact Hverse|]. split; [exact Hbig|].
  destruct (oversized_verse_has_own_segment input [] [] 1 Hverse Hbig)
    as (t & before & after & _ & Hgroups & Hbefore & _).
  exists t, before, after. split; [exact Hgroups | exact Hbefore].
Defined.

(** ** Range labels *)

Lemma NoDup_concat_part (X Y : Type) (f : X -> Y) (cs : list (list X)) :
  NoDup (List.map f (concat cs)) ->
  Forall (fun c => NoDup (List.map f c)) cs.
Proof.
  induction cs as [|c cs IH]; intros H; simpl in *; constructor.
  - rewrite map_app in H. now apply NoDup_app_remove_r in H.
  - apply IH. rewrite map_app in H. now apply NoDup_app_remove_l in H.
Qed.

Lemma last_In (X : Type) (l : list X) (d : X) : l <> [] -> In (last l d) l.
Proof.
  induction l as [|a l IH]; [congruence|]. intros _.
  destruct l as [|b l]; [left; reflexivity|].
  right. apply IH. discriminate.
Qed.

Lemma rangeLabel_same (n : N) : rangeLabel n n = Number_toString n.
Proof. unfold rangeLabel. now rewrite N.eqb_refl. Qed.

Lemma rangeLabel_different (a b : N) :
  a <> b -> rangeLabel a b = Number_toString a ++ lit "-" ++ Number_toString b.
Proof.
  intros H. unfold rangeLabel. apply N.eqb_neq in H. now rewrite H.
Qed.

Lemma renderGroup_label (surahName : jsstring) (c : list VerseUnit) :
  NoDup (List.map verseNumber c) ->
  ayah (renderGroup surahName c) = specLabel c.
Proof.
  intros Hnd. destruct c as [|u [|v c]]; simpl.
  - reflexivity.
  - apply rangeLabel_same.
  - apply rangeLabel_different. intros E.
    change (List.map verseNumber (u :: v :: c))
      with (verseNumber u :: List.map verseNumber (v :: c)) in Hnd.
    apply NoDup_cons_iff in Hnd. destruct Hnd as [Hnotin _].
    apply Hnotin. rewrite E.
    apply in_map. change (In (last (v :: c) u) (v :: c)).
    apply last_In. discriminate.
Qed.

(** C8. When the verse numbers of the input are pairwise different, as in
    a verse range of a chapter, the label of every segment is the number
    of its first verse when it holds one verse and first-last when it
    holds more; a single verse 5 is labelled 5, verses 5 to 8 are labelled
    5-8. *)
Theorem segment_range_labels
    (arabicAyahs transAyahs : list Ayah) (surahName : jsstring) :
  NoDup (List.map numberInSurah arabicAyahs) ->
  let groups := verseGroups arabicAyahs transAyahs in
  producesSegments arabicAyahs transAyahs surahName
    (List.map (renderGroup surahName) groups)
  /\ Forall (fun c => ayah (renderGroup surahName c) = specLabel c) groups
  /\ (segs <- pushSegment [] [sampleVerse 5 9] [Some (sampleVerse 5 12)] surahName ;;
      Normal (List.map ayah segs)) = Normal [lit "5"]
  /\ (segs <- pushSegment []
                [sampleVerse 5 9; sampleVerse 6 9; sampleVerse 7 9; sampleVerse 8 9]
                [Some (sampleVerse 5 12); Some (sampleVerse 6 12);
                 Some (sampleVerse 7 12); Some (sampleVerse 8 12)] surahName ;;
      Normal (List.map ayah segs)) = Normal [lit "5-8"].
Proof.
  intros Hnd groups. split; [apply produces_verseGroups|].
  split; [|split; reflexivity].
  assert (Hparts : Forall (fun c => NoDup (List.map verseNumber c)) groups).
  { apply NoDup_concat_part. subst groups. rewrite verseGroups_concat.
    replace (List.map verseNumber (verseUnits arabicAyahs transAyahs))
      with (List.map numberInSurah (List.map fst (verseUnits arabicAyahs transAyahs)))
      by (rewrite map_map; reflexivity).
    rewrite verseUnits_fst. exact Hnd. }
  eapply Forall_impl; [|exact Hparts].
  intros c Hc. now apply renderGroup_label.
Qed.

Lemma segment_range_labels_witness :
  let input :=
    [sampleVerse 5 200; sampleVerse 6 100; sampleVerse 7 100; sampleVerse 8 300] in
  NoDup (List.map numberInSurah input)
  /\ Forall (fun c => ayah (renderGroup [] c) = specLabel c) (verseGroups input []).
Proof.
  intros input.
  assert (Hnd : NoDup (List.map numberInSurah input))
    by (repeat constructor; simpl; intuition discriminate).
  split; [exact Hnd|].
  destruct (segment_range_labels input [] [] Hnd) as (_ & H & _).
  exact H.
Defined.

(** ** A translation array shorter than the source array *)

(** C4. When the translation array is shorter than the source array,
    [fetchVerseAndDesign] of part_000 returns its segments, built with an
    empty translation text and the verse's own number at each index
    without a translation; [fetchVerseAndDesign] of geminiService.ts reads
    [undefined] there and throws in [pushSegment]. *)
Theorem missing_translation
    (arabicAyahs transAyahs : list Ayah) (surahName : jsstring) :
  length transAyahs < length arabicAyahs ->
  (forall toLowerCase random,
     exists design,
       Part000.fetchVerseAndDesign toLowerCase random arabicAyahs transAyahs surahName
       = Normal {| segments := List.map (renderGroup surahName)
                                 (verseGroups arabicAyahs transAyahs);
                   design := design |})
  /\ (forall i verse,
        nth_error arabicAyahs i = Some verse ->
        length transAyahs <= i ->
        nth_error (verseUnits arabicAyahs transAyahs) i
        = Some (verse, {| text := []; numberInSurah := numberInSurah verse |}))
  /\ (forall ai,
        GeminiService.fetchVerseAndDesign ai arabicAyahs transAyahs surahName
        = Throw TypeError).
Proof.
  intros Hshort. split; [|split].
  - intros toLowerCase random. unfold Part000.fetchVerseAndDesign.
    rewrite groupAyahs_part000. simpl. eexists. reflexivity.
  - intros i verse Hverse Hi. unfold verseUnits.
    rewrite (verseUnitsFrom_nth transAyahs arabicAyahs 0 i Hverse). simpl.
    apply nth_error_None in Hi. rewrite Hi. reflexivity.
  - intros ai. unfold GeminiService.fetchVerseAndDesign.
    rewrite groupAyahs_gemini.
    apply Nat.leb_gt in Hshort. rewrite Hshort. reflexivity.
Qed.

Lemma missing_translation_witness :
  let arabicAyahs := [sampleVerse 1 3; sampleVerse 2 3] in
  let transAyahs := [sampleVerse 1 4] in
  length transAyahs < length arabicAyahs
  /\ (forall ai,
        GeminiService.fetchVerseAndDesign ai arabicAyahs transAyahs (lit "Al-Faatiha")
        = Throw TypeError)
  /\ nth_error (verseUnits arabicAyahs transAyahs) 1
     = Some (sampleVerse 2 3, {| text := []; numberInSurah := 2 |}).
Proof.
  intros arabicAyahs transAyahs.
  assert (Hshort : length transAyahs < length arabicAyahs) by (simpl; lia).
  split; [exact Hshort|].
  destruct (missing_translation arabicAyahs transAyahs (lit "Al-Faatiha") Hshort)
    as (_ & Hfallback & Hthrow).
  split; [exact Hthrow|].
  apply Hfallback; [reflexivity | simpl; lia].
Defined.

(* ===================================================================== *)
(** * The Theme Classifier                                                *)
(* ===================================================================== *)

(** ** Substrings *)

Lemma startsWith_spec (s w : jsstring) :
  startsWith s w = true <-> exists post, s = w ++ post.
Proof.
  revert s. induction w as [|b w IH]; intros s; simpl.
  - destruct s; simpl; (split; [intros _; eexists; reflexivity | reflexivity]).
  - destruct s as [|a s]; simpl.
    + split; [discriminate | intros [post H]; discriminate].
    + rewrite andb_true_iff, N.eqb_eq, IH. split.
      * intros [-> [post ->]]. exists post. reflexivity.
      * intros [post H]. injection H as -> ->. split; [reflexivity | now exists post].
Qed.

Lemma includes_spec (s w : jsstring) :
  includes s w = true <-> occursIn w s.
Proof.
  unfold occursIn. induction s as [|a s IH].
  - change (includes [] w) with (startsWith [] w || false).
    rewrite orb_false_r, startsWith_spec. split.
    + intros [post H]. exists [], post. exact H.
    + intros [pre [post H]]. destruct pre; [now exists post | discriminate].
  - change (includes (a :: s) w) with (startsWith (a :: s) w || includes s w).
    rewrite orb_true_iff, startsWith_spec, IH. split.
    + intros [[post H] | [pre [post H]]].
      * exists [], post. exact H.
      * exists (a :: pre), post. simpl. now rewrite H.
    + intros [pre [post H]]. destruct pre as [|a' pre].
      * left. now exists post.
      * right. simpl in H. injection H as _ H. now exists pre, post.
Qed.

(** ** Scores *)

Lemma count_words (lowerText : jsstring) (type : BackgroundType)
    (words : list jsstring) (scores : BackgroundType -> Z) (t : BackgroundType) :
  List.fold_left
    (fun scores word =>
       if includes lowerText word then Part000.increment scores type else scores)
    words scores t
  = (scores t + if BackgroundType_eqb t type then matchCount lowerText words else 0)%Z.
Proof.
  unfold matchCount.
  revert scores. induction words as [|w words IH]; intros scores; simpl.
  - destruct (BackgroundType_eqb t type); lia.
  - rewrite IH. unfold Part000.increment.
    destruct (includes lowerText w), (BackgroundType_eqb t type); simpl length; lia.
Qed.

Lemma count_entries (lowerText : jsstring)
    (table : list (BackgroundType * list jsstring))
    (scores : BackgroundType -> Z) (t : BackgroundType) :
  List.fold_left
    (fun scores entry =>
       List.fold_left
         (fun scores word =>
            if includes lowerText word then Part000.increment scores (fst entry)
            else scores)
         (snd entry) scores)
    table scores t
  = (scores t
     + list_sum_Z (List.map (fun entry =>
                     if BackgroundType_eqb t (fst entry)
                     then matchCount lowerText (snd entry) else 0%Z) table))%Z.
Proof.
  revert scores. induction table as [|entry table IH]; intros scores; simpl.
  - lia.
  - rewrite IH, count_words. lia.
Qed.

Lemma countScores_spec (lowerText : jsstring) (t : BackgroundType) :
  Part000.countScores lowerText t = specScore lowerText t.
Proof.
  unfold Part000.countScores. rewrite count_entries.
  unfold specScore, keywordsOf, matchCount, Part000.keywords.
  destruct t;
    cbn [List.map list_sum_Z List.fold_right fst snd BackgroundType_eqb List.find];
    lia.
Qed.

Lemma keywords_distinct (t : BackgroundType) : NoDup (keywordsOf t).
Proof.
  destruct t; cbv;
    repeat (constructor; [simpl; intros H; intuition discriminate|]);
    constructor.
Qed.

Lemma countScores_nonneg (lowerText : jsstring) (t : BackgroundType) :
  (0 <= Part000.countScores lowerText t)%Z.
Proof. rewrite countScores_spec. unfold specScore, matchCount. lia. Qed.

(** ** The best type *)

Lemma selectBest_spec (scores : BackgroundType -> Z) :
  (forall t, 0 <= scores t)%Z ->
  snd (Part000.selectBest scores) = maxScoreOf scores
  /\ scores (fst (Part000.selectBest scores)) = maxScoreOf scores
  /\ forall t, priority t < priority (fst (Part000.selectBest scores)) ->
               (scores t < maxScoreOf scores)%Z.
Proof.
  intros Hpos.
  pose proof (Hpos NATURE) as Hn. pose proof (Hpos SKY) as Hs.
  pose proof (Hpos JANNAT) as Hj.
  unfold Part000.selectBest, Part000.types, maxScoreOf. cbn [List.fold_left snd fst].
  destruct (Z.ltb_spec (-1) (scores NATURE)) as [_|]; [|lia]. cbn [snd fst].
  destruct (Z.ltb_spec (scores NATURE) (scores SKY)); cbn [snd fst];
    [destruct (Z.ltb_spec (scores SKY) (scores JANNAT))
    |destruct (Z.ltb_spec (scores NATURE) (scores JANNAT))]; cbn [snd fst];
    (split; [lia|]); (split; [lia|]); intros [| |]; simpl; lia.
Qed.

(** ** The random index *)

(** Facts on the rounding of [SpecFloat]: what [shr] leaves of a
    mantissa, the number of digits of a mantissa, and the product of a
    Number below 1 with the Number 3. *)
Section NumberFacts.

Local Open Scope Z_scope.

Lemma iter_pos_nat (A : Type) (f : A -> A) (p : positive) (x : A) :
  iter_pos f p x = Nat.iter (Pos.to_nat p) f x.
Proof.
  revert x. induction p as [p IH | p IH |]; intros x; simpl iter_pos.
  - rewrite !IH, Pos2Nat.inj_xI.
    replace (S (2 * Pos.to_nat p))%nat
      with (Pos.to_nat p + (Pos.to_nat p + 1))%nat by lia.
    rewrite !Nat.iter_add. reflexivity.
  - rewrite !IH, Pos2Nat.inj_xO.
    replace (2 * Pos.to_nat p)%nat with (Pos.to_nat p + Pos.to_nat p)%nat by lia.
    rewrite Nat.iter_add. reflexivity.
  - reflexivity.
Qed.

Lemma shr_1_spec (m : Z) (r s : bool) :
  0 <= m ->
  shr_1 {| shr_m := m; shr_r := r; shr_s := s |}
  = {| shr_m := m / 2; shr_r := Z.odd m; shr_s := r || s |}.
Proof.
  intros H. rewrite <- Z.div2_div.
  destruct m as [|[p|p|]|p]; try lia; reflexivity.
Qed.

Lemma shr_exact (k : nat) (x : Z) :
  0 <= x ->
  Nat.iter k shr_1 {| shr_m := x * 2 ^ Z.of_nat k; shr_r := false; shr_s := false |}
  = {| shr_m := x; shr_r := false; shr_s := false |}.
Proof.
  intros Hx. induction k as [|k IH].
  - simpl. rewrite Z.mul_1_r. reflexivity.
  - rewrite Nat.iter_succ_r, shr_1_spec by (apply Z.mul_nonneg_nonneg; lia).
    rewrite Nat2Z.inj_succ, Z.pow_succ_r by lia.
    replace (x * (2 * 2 ^ Z.of_nat k)) with (x * 2 ^ Z.of_nat k * 2) by ring.
    rewrite Z.div_mul by lia.
    rewrite Z.odd_mul, Bool.andb_false_r. exact IH.
Qed.

Lemma digits2_spec (p : positive) :
  2 ^ (Zpos (digits2_pos p) - 1) <= Zpos p < 2 ^ Zpos (digits2_pos p).
Proof.
  induction p as [p IH | p IH |]; simpl digits2_pos;
    rewrite ?Pos2Z.inj_succ.
  - replace (Z.succ (Zpos (digits2_pos p)) - 1) with (Z.succ (Zpos (digits2_pos p) - 1)) by lia.
    rewrite !Z.pow_succ_r by lia. lia.
  - replace (Z.succ (Zpos (digits2_pos p)) - 1) with (Z.succ (Zpos (digits2_pos p) - 1)) by lia.
    rewrite !Z.pow_succ_r by lia. lia.
  - simpl. lia.
Qed.

Lemma digits2_unique (p : positive) (k : Z) :
  2 ^ (k - 1) <= Zpos p < 2 ^ k -> Zpos (digits2_pos p) = k.
Proof.
  intros [Hl Hu]. destruct (digits2_spec p) as [Dl Du].
  set (d := Zpos (digits2_pos p)) in *.
  assert (0 < d) by (unfold d; lia).
  destruct (Z.lt_trichotomy d k) as [Hlt | [Heq | Hgt]]; [| exact Heq |].
  - assert (2 ^ d <= 2 ^ (k - 1)) by (apply Z.pow_le_mono_r; lia). lia.
  - destruct (Z.le_gt_cases k 0) as [Hk | Hk].
    + assert (2 ^ k <= 2 ^ 0) by (apply Z.pow_le_mono_r; lia). simpl in *. lia.
    + assert (2 ^ k <= 2 ^ (d - 1)) by (apply Z.pow_le_mono_r; lia). lia.
Qed.

Lemma digits2_shift (p : positive) (k : positive) :
  Zpos (digits2_pos (p * 2 ^ k)%positive) = Zpos (digits2_pos p) + Zpos k.
Proof.
  apply digits2_unique. destruct (digits2_spec p) as [Dl Du].
  rewrite Pos2Z.inj_mul, Pos2Z.inj_pow.
  replace (Zpos (digits2_pos p) + Zpos k - 1)
    with (Zpos (digits2_pos p) - 1 + Zpos k) by lia.
  rewrite !Z.pow_add_r by lia.
  assert (0 < 2 ^ Zpos k) by (apply Z.pow_pos_nonneg; lia).
  nia.
Qed.

Lemma shr_fexp_product (m : positive) (e j : Z) :
  0 <= j ->
  fexp 53 1024 (Zpos (digits2_pos (m * 3)) + e) = e + j ->
  shr_fexp 53 1024 (Zpos (m * 6755399441055744)) (e + -51) loc_Exact
  = (Nat.iter (Z.to_nat j) shr_1
       {| shr_m := Zpos (m * 3); shr_r := false; shr_s := false |},
     e + j).
Proof.
  intros Hj Hexp. unfold shr_fexp, Zdigits2.
  change 6755399441055744%positive with (3 * 2 ^ 51)%positive.
  rewrite Pos.mul_assoc, digits2_shift.
  replace (Zpos (digits2_pos (m * 3)) + 51 + (e + -51))
    with (Zpos (digits2_pos (m * 3)) + e) by lia.
  rewrite Hexp.
  replace (e + j - (e + -51)) with (Zpos (Z.to_pos (j + 51))) by lia.
  unfold shr, shr_record_of_loc. f_equal; [| lia].
  rewrite iter_pos_nat.
  replace (Pos.to_nat (Z.to_pos (j + 51))) with (Z.to_nat j + 51)%nat by lia.
  rewrite Nat.iter_add. f_equal.
  rewrite Pos2Z.inj_mul, Pos2Z.inj_pow.
  exact (@shr_exact 51 (Zpos (m * 3)) ltac:(lia)).
Qed.

Lemma shr_fexp_rounded (rounded e' : Z) :
  0 < rounded <= 2 ^ 53 ->
  -1074 <= e' ->
  (rounded < 2 ^ 52 -> e' = -1074) ->
  shr_m (fst (shr_fexp 53 1024 rounded e' loc_Exact)) * 2 ^ (snd (shr_fexp 53 1024 rounded e' loc_Exact) - e')
  = rounded
  /\ 0 < shr_m (fst (shr_fexp 53 1024 rounded e' loc_Exact))
  /\ e' <= snd (shr_fexp 53 1024 rounded e' loc_Exact) <= e' + 1.
Proof.
  intros [Hpos Hle] He Hsub.
  destruct rounded as [|p|p]; try lia.
  unfold shr_fexp, Zdigits2, shr_record_of_loc.
  destruct (Z.eq_dec (Zpos p) (2 ^ 53)) as [Heq | Hne].
  - injection Heq as ->. 
    change (Zpos (digits2_pos 9007199254740992)) with 54.
    unfold fexp, emin.
    replace (Z.max (54 + e' - 53) (3 - 1024 - 53) - e') with 1 by lia.
    simpl shr. simpl fst. simpl snd. simpl shr_m.
    replace (e' + 1 - e') with 1 by lia. split; [reflexivity | lia].
  - destruct (digits2_spec p) as [Dl Du].
    assert (Hd : Zpos (digits2_pos p) <= 53).
    { destruct (Z.le_gt_cases (Zpos (digits2_pos p)) 53) as [H | H]; [exact H |].
      assert (2 ^ 53 <= 2 ^ (Zpos (digits2_pos p) - 1))
        by (apply Z.pow_le_mono_r; lia). lia. }
    assert (Hd' : Zpos (digits2_pos p) < 53 -> e' = -1074).
    { intros H. apply Hsub.
      assert (2 ^ Zpos (digits2_pos p) <= 2 ^ 52)
        by (apply Z.pow_le_mono_r; lia). lia. }
    unfold fexp, emin.
    assert (Hn : Z.max (Zpos (digits2_pos p) + e' - 53) (3 - 1024 - 53) - e' = 0) by lia.
    rewrite Hn. simpl shr. simpl fst. simpl snd. simpl shr_m.
    rewrite Z.sub_diag. simpl. lia.
Qed.

Lemma floor_shiftl (a e : Z) :
  e <= 0 -> Z.shiftl a e = a / 2 ^ (- e).
Proof.
  intros He. rewrite <- Z.shiftr_opp_r. apply Z.shiftr_div_pow2. lia.
Qed.

(** The floor of a rounded product: the rounded mantissa at the exponent
    of the first shift. *)
Lemma floor_mul_three_finite (m : positive) (e j : Z) :
  let shifted :=
    Nat.iter (Z.to_nat j) shr_1
      {| shr_m := Zpos (m * 3); shr_r := false; shr_s := false |} in
  let rounded := round_nearest_even (shr_m shifted) (loc_of_shr_record shifted) in
  0 <= j ->
  fexp 53 1024 (Zpos (digits2_pos (m * 3)) + e) = e + j ->
  0 < rounded <= 2 ^ 53 ->
  -1074 <= e + j <= -2 ->
  (rounded < 2 ^ 52 -> e + j = -1074) ->
  Number.floor (Number.mul (S754_finite false m e) (Number.ofZ 3))
  = Some (rounded / 2 ^ (- (e + j))).
Proof.
  intros shifted rounded Hj Hexp Hr He Hsub.
  change (Number.ofZ 3) with (S754_finite false 6755399441055744 (-51)).
  unfold Number.mul, Number.prec, Number.emax, SFmul, binary_round_aux.
  simpl xorb.
  rewrite (@shr_fexp_product m e j Hj Hexp).
  fold shifted. fold rounded.
  destruct (@shr_fexp_rounded rounded (e + j) Hr ltac:(lia) Hsub) as (Hval & Hm & Hs).
  destruct (shr_fexp 53 1024 rounded (e + j) loc_Exact) as [mrs e''].
  simpl fst in *. simpl snd in *.
  destruct (shr_m mrs) as [|p|p] eqn:Ep; try lia.
  replace (e'' <=? 1024 - 53) with true by (symmetry; apply Z.leb_le; lia).
  unfold Number.floor, cond_Zopp. f_equal.
  rewrite floor_shiftl by lia.
  rewrite <- Hval.
  replace (- (e + j)) with (- e'' + (e'' - (e + j))) by lia.
  rewrite Z.pow_add_r by lia.
  rewrite Z.div_mul_cancel_r; [reflexivity | |];
    apply Z.pow_nonzero; lia.
Qed.

Lemma digits2_le (p : positive) (k : Z) :
  Zpos p < 2 ^ k -> Zpos (digits2_pos p) <= k.
Proof.
  intros H. destruct (digits2_spec p) as [Dl _].
  destruct (Z.le_gt_cases (Zpos (digits2_pos p)) k) as [L | G]; [exact L |].
  destruct (Z.le_gt_cases 0 k) as [K | K].
  - assert (2 ^ k <= 2 ^ (Zpos (digits2_pos p) - 1))
      by (apply Z.pow_le_mono_r; lia). lia.
  - rewrite Z.pow_neg_r in H by lia. lia.
Qed.

Lemma digits2_ge (p : positive) (k : Z) :
  2 ^ (k - 1) <= Zpos p -> k <= Zpos (digits2_pos p).
Proof.
  intros H. destruct (digits2_spec p) as [_ Du].
  destruct (Z.le_gt_cases k (Zpos (digits2_pos p))) as [L | G]; [exact L |].
  assert (2 ^ Zpos (digits2_pos p) <= 2 ^ (k - 1))
    by (apply Z.pow_le_mono_r; lia). lia.
Qed.

Lemma shift_one (x : Z) :
  0 <= x ->
  Nat.iter (Z.to_nat 1) shr_1 {| shr_m := x; shr_r := false; shr_s := false |}
  = {| shr_m := x / 2; shr_r := Z.odd x; shr_s := false |}.
Proof.
  intros H. change (Z.to_nat 1) with 1%nat. unfold Nat.iter, nat_rect.
  apply shr_1_spec. exact H.
Qed.

Lemma shift_two (x : Z) :
  0 <= x ->
  Nat.iter (Z.to_nat 2) shr_1 {| shr_m := x; shr_r := false; shr_s := false |}
  = {| shr_m := x / 2 / 2; shr_r := Z.odd (x / 2); shr_s := Z.odd x |}.
Proof.
  intros H. change (Z.to_nat 2) with 2%nat. unfold Nat.iter, nat_rect.
  rewrite shr_1_spec by exact H.
  rewrite shr_1_spec by (apply Z.div_pos; lia).
  rewrite Bool.orb_false_r. reflexivity.
Qed.

Lemma ltb_finite (m m' : positive) (e e' : Z) :
  Number.ltb (S754_finite false m e) (S754_finite false m' e')
  = (e <? e') || ((e =? e') && (Zpos m <? Zpos m')).
Proof.
  unfold Number.ltb, SFltb, SFcompare.
  change (Pos.compare_cont Eq m m') with (Zpos m ?= Zpos m').
  destruct (Z.compare_spec e e') as [E | L | G].
  - subst e'. rewrite Z.ltb_irrefl, Z.eqb_refl. unfold Z.ltb.
    destruct (Zpos m ?= Zpos m'); reflexivity.
  - apply Z.ltb_lt in L. rewrite L. reflexivity.
  - replace (e <? e') with false by (symmetry; apply Z.ltb_ge; lia).
    replace (e =? e') with false by (symmetry; apply Z.eqb_neq; lia).
    reflexivity.
Qed.

(** [a / 2 ^ (- (e + j))] against the thresholds of [e] and [m]: below
    [-54] the quotient is 0, at [-54] and [-53] the power is a numeral. *)
Ltac floor_by_exponent e m bound :=
  destruct (Z.lt_trichotomy e (-54)) as [? | [? | ?]];
  [ replace (e <? -54) with true by (symmetry; apply Z.ltb_lt; lia);
    simpl orb; cbv iota;
    apply Z.div_small; split; [lia |];
    apply Z.lt_le_trans with (2 ^ bound);
    [ simpl Z.pow; lia | apply Z.pow_le_mono_r; lia ]
  | subst e; simpl Z.opp; simpl Z.add; simpl Z.pow; simpl Z.ltb; simpl Z.eqb;
    simpl orb; simpl andb;
    destruct (Z.ltb_spec (Zpos m) 6004799503160661); cbv iota;
    Z.div_mod_to_equations; lia
  | assert (e = -53) by lia;
    subst e; simpl Z.opp; simpl Z.add; simpl Z.pow; simpl Z.ltb; simpl Z.eqb;
    simpl orb; simpl andb;
    destruct (Z.ltb_spec (Zpos m) 6004799503160661); cbv iota;
    Z.div_mod_to_equations; lia ].

Lemma floor_mul_three (x : spec_float) :
  Number.valid x = true ->
  Number.sign x = false ->
  Number.ltb x (Number.ofZ 1) = true ->
  Number.floor (Number.mul x (Number.ofZ 3))
  = Some (if Number.ltb x oneThird then 0
          else if Number.ltb x twoThirds then 1 else 2).
Proof.
  intros Hvalid Hsign Hlt.
  destruct x as [s | s | | s m e]; simpl in Hsign; subst;
    try discriminate; try reflexivity.
  change (Number.ofZ 1) with (S754_finite false 4503599627370496 (-52)) in Hlt.
  change oneThird with (S754_finite false 6004799503160661 (-54)).
  change twoThirds with (S754_finite false 6004799503160661 (-53)).
  rewrite ltb_finite in Hlt. rewrite !ltb_finite.
  unfold Number.valid, Number.prec, Number.emax, valid_binary, bounded,
    canonical_mantissa in Hvalid.
  apply andb_prop in Hvalid. destruct Hvalid as [Hcanon Hbound].
  apply Z.eqb_eq in Hcanon. unfold fexp, emin in Hcanon.
  destruct (digits2_spec m) as [Dl Du].
  destruct (digits2_spec (m * 3)) as [Tl Tu].
  rewrite Pos2Z.inj_mul in Tl, Tu.
  set (d := Zpos (digits2_pos m)) in *.
  assert (Hd : d <= 53) by lia.
  assert (He : -1074 <= e) by lia.
  assert (Hnormal : d < 53 -> e = -1074) by lia.
  assert (Hm53 : Zpos m < 2 ^ 53).
  { assert (2 ^ d <= 2 ^ 53) by (apply Z.pow_le_mono_r; lia). lia. }
  assert (Hsub : Zpos m < 2 ^ 52 -> e = -1074).
  { intros H. apply Hnormal.
    assert (d <= 52) by (apply digits2_le; exact H). lia. }
  assert (He53 : e <= -53).
  { apply Bool.orb_true_iff in Hlt. destruct Hlt as [H | H].
    - apply Z.ltb_lt in H. lia.
    - apply andb_prop in H. destruct H as [H1 H2].
      apply Z.eqb_eq in H1. apply Z.ltb_lt in H2.
      change (Z.pos 4503599627370496) with (2 ^ 52) in H2. lia. }
  clear Hlt Hcanon Hbound Dl Du.
  change (2 ^ 53) with 9007199254740992 in *.
  change (2 ^ 52) with 4503599627370496 in *.
  destruct (Z.lt_ge_cases (Zpos m * 3) (2 ^ 53)) as [Small | Big].
  - (* the product is exact and subnormal *)
    assert (HD : Zpos (digits2_pos (m * 3)) <= 53).
    { apply digits2_le. rewrite Pos2Z.inj_mul. exact Small. }
    change (2 ^ 53) with 9007199254740992 in Small.
    assert (e = -1074) by lia. subst e.
    rewrite (@floor_mul_three_finite m (-1074) 0); try lia.
    + simpl. rewrite Z.div_small; [reflexivity |].
      split; [lia |]. rewrite Pos2Z.inj_mul.
      apply Z.lt_trans with (2 ^ 53); [exact Small | reflexivity].
    + unfold fexp, emin. lia.
    + simpl. rewrite Pos2Z.inj_mul. lia.
  - change (2 ^ 53) with 9007199254740992 in Big.
    destruct (Z.lt_ge_cases (Zpos m * 3) (2 ^ 54)) as [Mid | High].
    + (* one bit is rounded away *)
      assert (HD : Zpos (digits2_pos (m * 3)) = 54).
      { apply digits2_unique. rewrite Pos2Z.inj_mul. split; [exact Big | exact Mid]. }
      change (2 ^ 54) with 18014398509481984 in Mid.
      pose proof (@floor_mul_three_finite m e 1) as F.
      cbv zeta in F. rewrite shift_one in F by lia.
      simpl shr_m in F. rewrite Pos2Z.inj_mul in F.
      unfold loc_of_shr_record, round_nearest_even in F.
      rewrite HD in F. unfold fexp, emin in F.
      rewrite <- Z.negb_odd in F.
      pose proof (Zmod_odd (Zpos m * 3)) as O1.
      pose proof (Zmod_odd (Zpos m * 3 / 2)) as O2.
      pose proof (Z.div_mod (Zpos m * 3) 2 ltac:(lia)) as Q1.
      pose proof (Z.div_mod (Zpos m * 3 / 2) 2 ltac:(lia)) as Q2.
      set (q := Zpos m * 3 / 2) in *.
      change (2 ^ 53) with 9007199254740992 in F.
      change (2 ^ 52) with 4503599627370496 in F.
      destruct (Z.odd (Zpos m * 3)); destruct (Z.odd q);
        simpl negb in F; cbv iota in F;
        (rewrite F by lia); clear F; f_equal.
      all: floor_by_exponent e m 54.
    + (* two bits are rounded away: the number is normal *)
      assert (HD : Zpos (digits2_pos (m * 3)) = 55).
      { apply digits2_unique. rewrite Pos2Z.inj_mul.
        split; [exact High | change (2 ^ 55) with 36028797018963968; lia]. }
      change (2 ^ 54) with 18014398509481984 in High.
      pose proof (@floor_mul_three_finite m e 2) as F.
      cbv zeta in F. rewrite shift_two in F by lia.
      simpl shr_m in F. rewrite Pos2Z.inj_mul in F.
      unfold loc_of_shr_record, round_nearest_even in F.
      rewrite HD in F. unfold fexp, emin in F.
      rewrite <- Z.negb_odd in F.
      pose proof (Zmod_odd (Zpos m * 3)) as O1.
      pose proof (Zmod_odd (Zpos m * 3 / 2)) as O2.
      pose proof (Zmod_odd (Zpos m * 3 / 2 / 2)) as O3.
      pose proof (Z.div_mod (Zpos m * 3) 2 ltac:(lia)) as Q1.
      pose proof (Z.div_mod (Zpos m * 3 / 2) 2 ltac:(lia)) as Q2.
      pose proof (Z.div_mod (Zpos m * 3 / 2 / 2) 2 ltac:(lia)) as Q3.
      set (h := Zpos m * 3 / 2) in *.
      set (q := h / 2) in *.
      change (2 ^ 53) with 9007199254740992 in F.
      change (2 ^ 52) with 4503599627370496 in F.
      destruct (Z.odd (Zpos m * 3)); destruct (Z.odd h); destruct (Z.odd q);
        simpl negb in F; cbv iota in F;
        (rewrite F by lia); clear F; f_equal.
      all: floor_by_exponent e m 53.
Qed.

Lemma leb_ltb (x : spec_float) (m : positive) (e : Z) :
  Number.sign x = false ->
  Number.ltb x Number.one = true ->
  Number.leb (S754_finite false m e) x
  = negb (Number.ltb x (S754_finite false m e)).
Proof.
  intros Hsign Hlt.
  destruct x as [s | s | | s m' e']; simpl in Hsign; subst;
    try discriminate; try reflexivity.
  unfold Number.leb, Number.ltb, SFleb, SFltb, SFcompare.
  change (Pos.compare_cont Eq m m') with (m ?= m')%positive.
  change (Pos.compare_cont Eq m' m) with (m' ?= m)%positive.
  rewrite (Z.compare_antisym e' e), (Pos.compare_antisym m' m).
  destruct (e' ?= e); try reflexivity.
  simpl CompOpp. destruct (m' ?= m)%positive; reflexivity.
Qed.

Lemma ltb_thirds (x : spec_float) :
  Number.ltb x (S754_finite false 6004799503160661 (-54)) = true ->
  Number.ltb x (S754_finite false 6004799503160661 (-53)) = true.
Proof.
  destruct x as [s | s | | [|] m e]; try (intros H; exact H).
  rewrite !ltb_finite. intros H.
  apply Bool.orb_true_iff in H. apply Bool.orb_true_iff. left.
  apply Z.ltb_lt. destruct H as [H | H].
  - apply Z.ltb_lt in H. lia.
  - apply andb_prop in H. destruct H as [H _]. apply Z.eqb_eq in H. lia.
Qed.

End NumberFacts.

(** The index drawn: 0 below the Number [1/3], 1 from there up to the
    Number [2/3], 2 from there on. *)
Lemma randomIndex_thirds (random : RandomDraw) :
  Part000.randomIndex random
  = Some (if Number.ltb (draw random) oneThird then 0%Z
          else if Number.ltb (draw random) twoThirds then 1%Z else 2%Z).
Proof.
  unfold Part000.randomIndex.
  change (Z.of_nat (length Part000.types)) with 3%Z.
  apply floor_mul_three;
    [apply draw_valid | apply draw_sign | apply draw_range].
Qed.

(** ** Choice of the category *)

(** C5. The score of a category is the number of its keywords that occur
    in the lower-cased text, each counted once; a category whose score is
    strictly the highest is returned, and when the highest score is not
    zero the result has that score and no category before it in the order
    nature, sky, paradise reaches it. *)
Theorem classifier_scores_and_priority
    (toLowerCase : jsstring -> jsstring) (random : RandomDraw) (text : jsstring) :
  let lowerText := toLowerCase text in
  let scores := Part000.countScores lowerText in
  let result := backgroundType (Part000.getDesignFromText toLowerCase random text) in
  (forall t, scores t = specScore lowerText t /\ NoDup (keywordsOf t))
  /\ (forall w, includes lowerText w = true <-> occursIn w lowerText)
  /\ (forall b, (forall t, t <> b -> (scores t < scores b)%Z) -> result = b)
  /\ ((0 < maxScoreOf scores)%Z ->
      scores result = maxScoreOf scores
      /\ forall t, priority t < priority result -> (scores t < scores result)%Z).
Proof.
  intros lowerText scores result.
  destruct (selectBest_spec scores (countScores_nonneg lowerText))
    as (Hmax & Hbest & Hprio).
  split; [intros t; split; [apply countScores_spec | apply keywords_distinct]|].
  split; [intros w; apply includes_spec|].
  assert (Hresult : (0 < maxScoreOf scores)%Z ->
                    result = fst (Part000.selectBest scores)).
  { intros Hpos. subst result. unfold Part000.getDesignFromText.
    cbn [backgroundType]. fold lowerText. fold scores. rewrite Hmax.
    destruct (Z.eqb_spec (maxScoreOf scores) 0); [lia | reflexivity]. }
  split.
  - intros b Hstrict.
    pose proof (countScores_nonneg lowerText) as Hnn. fold scores in Hnn.
    assert (Hb : maxScoreOf scores = scores b /\ (0 < scores b)%Z).
    { unfold maxScoreOf.
      pose proof (Hnn NATURE). pose proof (Hnn SKY). pose proof (Hnn JANNAT).
      destruct b;
        [ pose proof (Hstrict NATURE ltac:(discriminate));
          pose proof (Hstrict JANNAT ltac:(discriminate))
        | pose proof (Hstrict SKY ltac:(discriminate));
          pose proof (Hstrict JANNAT ltac:(discriminate))
        | pose proof (Hstrict NATURE ltac:(discriminate));
          pose proof (Hstrict SKY ltac:(discriminate)) ]; lia. }
    destruct Hb as [Hb Hpos]. rewrite Hresult by lia.
    destruct (BackgroundType_eqb (fst (Part000.selectBest scores)) b) eqn:E.
    + destruct (fst (Part000.selectBest scores)), b; try discriminate; reflexivity.
    + assert (Hne : fst (Part000.selectBest scores) <> b)
        by (intros Heq; rewrite Heq in E; destruct b; discriminate).
      pose proof (Hstrict _ Hne). lia.
  - intros Hpos. rewrite (Hresult Hpos). split; [exact Hbest|].
    intros t Ht. rewrite Hbest. now apply Hprio.
Qed.

Lemma classifier_scores_and_priority_witness :
  backgroundType
    (Part000.getDesignFromText asciiLower drawHigh (lit "The Mountain and the River"))
  = NATURE.
Proof.
  pose proof (classifier_scores_and_priority asciiLower drawHigh
                (lit "The Mountain and the River")) as (_ & _ & _ & H).
  destruct H as [Hscore Hprio]; [vm_compute; reflexivity|].
  destruct (backgroundType
              (Part000.getDesignFromText asciiLower drawHigh
                 (lit "The Mountain and the River"))) eqn:E.
  - specialize (Hprio NATURE ltac:(simpl; lia)). vm_compute in Hprio. discriminate.
  - reflexivity.
  - specialize (Hprio NATURE ltac:(simpl; lia)). vm_compute in Hprio. discriminate.
Defined.

(** ** The fallback *)

Lemma getDesignFromText_fallback
    (toLowerCase : jsstring -> jsstring) (random : RandomDraw) (text : jsstring) :
  maxScoreOf (Part000.countScores (toLowerCase text)) = 0%Z ->
  elementAt Part000.types (Part000.randomIndex random)
  = Some (backgroundType (Part000.getDesignFromText toLowerCase random text)).
Proof.
  intros Hzero. unfold Part000.getDesignFromText. cbn [backgroundType].
  destruct (selectBest_spec _ (countScores_nonneg (toLowerCase text)))
    as (Hmax & _ & _).
  rewrite Hmax, Hzero. cbn [Z.eqb].
  rewrite randomIndex_thirds.
  destruct (Number.ltb (draw random) oneThird);
    [| destruct (Number.ltb (draw random) twoThirds)]; reflexivity.
Qed.

(** C6. On every text the classifier returns one of the three categories:
    the index [Math.floor(Math.random() * 3)] is 0, 1 or 2 for every
    draw, also where the product is rounded.  When no keyword matched,
    the category is the entry of [types] at that index: nature for a draw
    below the Number [1/3], sky from there up to the Number [2/3],
    paradise from there on, so each category is returned for some draw.
    The two Numbers lie within 2^-54 of the thirds of the unit interval.
    Nothing matches the empty text. *)
Theorem classifier_total_with_random_fallback
    (toLowerCase : jsstring -> jsstring) (random : RandomDraw) (text : jsstring) :
  let scores := Part000.countScores (toLowerCase text) in
  let classify := fun r => backgroundType (Part000.getDesignFromText toLowerCase r text) in
  In (classify random) Part000.types
  /\ (maxScoreOf scores = 0%Z ->
      elementAt Part000.types (Part000.randomIndex random) = Some (classify random)
      /\ (classify random = NATURE <-> Number.ltb (draw random) oneThird = true)
      /\ (classify random = SKY <->
          Number.leb oneThird (draw random) = true
          /\ Number.ltb (draw random) twoThirds = true)
      /\ (classify random = JANNAT <-> Number.leb twoThirds (draw random) = true)
      /\ classify drawLow = NATURE
      /\ classify drawMiddle = SKY
      /\ classify drawHigh = JANNAT)
  /\ maxScoreOf (Part000.countScores []) = 0%Z
  /\ (0 <= (1 # 3) - Number.toQ oneThird <= 1 # 2 ^ 54)%Q
  /\ (0 <= (2 # 3) - Number.toQ twoThirds <= 1 # 2 ^ 54)%Q.
Proof.
  intros scores classify.
  split; [|split; [|split; [reflexivity|]]].
  - unfold Part000.types. destruct (classify random); simpl; tauto.
  - intros Hzero. subst classify. cbv beta.
    pose proof (getDesignFromText_fallback toLowerCase random text Hzero) as Hr.
    pose proof (getDesignFromText_fallback toLowerCase drawLow text Hzero) as Hl.
    pose proof (getDesignFromText_fallback toLowerCase drawMiddle text Hzero) as Hm.
    pose proof (getDesignFromText_fallback toLowerCase drawHigh text Hzero) as Hh.
    split; [exact Hr|].
    rewrite randomIndex_thirds in Hr.
    generalize dependent
      (backgroundType (Part000.getDesignFromText toLowerCase random text)).
    generalize dependent
      (backgroundType (Part000.getDesignFromText toLowerCase drawLow text)).
    generalize dependent
      (backgroundType (Part000.getDesignFromText toLowerCase drawMiddle text)).
    generalize dependent
      (backgroundType (Part000.getDesignFromText toLowerCase drawHigh text)).
    intros high Hh middle Hm low Hl chosen Hr.
    change oneThird with (S754_finite false 6004799503160661 (-54)) in *.
    change twoThirds with (S754_finite false 6004799503160661 (-53)) in *.
    rewrite !(@leb_ltb (draw random) _ _ (draw_sign random) (draw_range random)).
    pose proof (@ltb_thirds (draw random)) as Hmono.
    assert (Hchosen :
              chosen
              = if Number.ltb (draw random) (S754_finite false 6004799503160661 (-54))
                then NATURE
                else if Number.ltb (draw random)
                          (S754_finite false 6004799503160661 (-53))
                     then SKY else JANNAT).
    { destruct (Number.ltb (draw random) (S754_finite false 6004799503160661 (-54)));
        [| destruct (Number.ltb (draw random)
                      (S754_finite false 6004799503160661 (-53)))];
        vm_compute in Hr; congruence. }
    assert (Hlow : low = NATURE) by (vm_compute in Hl; congruence).
    assert (Hmiddle : middle = SKY) by (vm_compute in Hm; congruence).
    assert (Hhigh : high = JANNAT) by (vm_compute in Hh; congruence).
    clear Hr Hl Hm Hh. rewrite Hchosen.
    split; [|split; [|split; [|split; [|split]]]]; try assumption.
    + destruct (Number.ltb (draw random) (S754_finite false 6004799503160661 (-54)));
        [| destruct (Number.ltb (draw random)
                      (S754_finite false 6004799503160661 (-53)))];
        split; intros H; try discriminate; reflexivity.
    + destruct (Number.ltb (draw random) (S754_finite false 6004799503160661 (-54)));
        [| destruct (Number.ltb (draw random)
                      (S754_finite false 6004799503160661 (-53)))];
        split; intros H; try discriminate;
        try (destruct H; discriminate); try reflexivity.
      split; reflexivity.
    + destruct (Number.ltb (draw random) (S754_finite false 6004799503160661 (-54)));
        [ rewrite (Hmono eq_refl)
        | destruct (Number.ltb (draw random)
                      (S754_finite false 6004799503160661 (-53))) ];
        split; intros H; try discriminate; reflexivity.
  - split; split; unfold Qle; vm_compute; discriminate.
Qed.

Lemma classifier_total_with_random_fallback_witness :
  backgroundType (Part000.getDesignFromText asciiLower drawMiddle []) = SKY
  /\ backgroundType (Part000.getDesignFromText asciiLower drawHigh []) = JANNAT.
Proof.
  destruct (classifier_total_with_random_fallback asciiLower drawMiddle [])
    as (_ & H & _).
  destruct H as (_ & _ & _ & _ & _ & Hm & Hh); [reflexivity|].
  split; [exact Hm | exact Hh].
Defined.

(** ** Text colour and opacity *)

(** C9, as stated, fails for geminiService.ts: when the model's answer
    names a colour and an opacity, the returned design carries them. *)
Lemma theme_fields_follow_model_answer :
  ~ themeIsConstant
      (GeminiService.fetchVerseAndDesign (Some darkAnswer)
         [sampleVerse 1 7] [sampleVerse 1 9] (lit "Al-Faatiha")).
Proof.
  intros H.
  destruct (H _ eq_refl) as [Hcolor _].
  discriminate Hcolor.
Qed.

(** C9, amended. The design of [getDesignFromText] has the text colour
    white and the opacity 0.5 on every text and draw, and so has every
    response of part_000's [fetchVerseAndDesign]; in geminiService.ts the
    same two values are the defaults, kept when the model step fails and
    for each field that the model's answer does not set. *)
Theorem theme_fields_constant_in_classifier
    (toLowerCase : jsstring -> jsstring) (random : RandomDraw) :
  (forall text,
     textColor (Part000.getDesignFromText toLowerCase random text) = white
     /\ opacity (Part000.getDesignFromText toLowerCase random text) = (1 # 2)%Q)
  /\ (forall arabicAyahs transAyahs surahName,
        themeIsConstant
          (Part000.fetchVerseAndDesign toLowerCase random
             arabicAyahs transAyahs surahName))
  /\ (textColor (GeminiService.aiDesign None) = white
      /\ opacity (GeminiService.aiDesign None) = (1 # 2)%Q)
  /\ (forall answer,
        textColor (GeminiService.aiDesign (Some answer))
        = match GeminiService.aiTextColor answer with
          | Some c => c
          | None => white
          end
        /\ opacity (GeminiService.aiDesign (Some answer))
           = match GeminiService.aiOpacity answer with
             | Some o => o
             | None => (1 # 2)%Q
             end).
Proof.
  split; [intros text; split; reflexivity|].
  split.
  - intros arabicAyahs transAyahs surahName response.
    unfold Part000.fetchVerseAndDesign.
    destruct (groupAyahs _ _ _ _); simpl; [|discriminate].
    intros H. injection H as <-. split; reflexivity.
  - split; [split; reflexivity|].
    intros [[b|] [c|] [o|]]; split; reflexivity.
Qed.

Lemma theme_fields_constant_in_classifier_witness :
  themeIsConstant
    (Part000.fetchVerseAndDesign asciiLower drawLow
       [sampleVerse 1 7] [sampleVerse 1 9] (lit "Al-Faatiha")).
Proof.
  destruct (theme_fields_constant_in_classifier asciiLower drawLow) as (_ & H & _).
  apply H.
Defined.

(* ===================================================================== *)
(** * Numeral conversion                                                  *)
(* ===================================================================== *)

Lemma digitsAux_value (fuel : nat) (n : N) (acc : list N) :
  (n < 2 ^ N.of_nat fuel)%N ->
  valueFrom 0 (digitsAux fuel n acc) = valueFrom n acc.
Proof.
  revert n acc. induction fuel as [|fuel IH]; intros n acc Hn.
  - simpl in *. assert (n = 0%N) by lia. now subst.
  - cbn [digitsAux].
    pose proof (N.div_mod n 10 ltac:(lia)) as Hdm.
    destruct (N.eqb_spec (n / 10) 0) as [E|E].
    + unfold valueFrom. cbn [List.fold_left]. f_equal. lia.
    + rewrite IH.
      * unfold valueFrom. cbn [List.fold_left]. f_equal. lia.
      * rewrite Nat2N.inj_succ, N.pow_succ_r' in Hn.
        apply N.Div0.div_lt_upper_bound. lia.
Qed.

Lemma digitsAux_small (fuel : nat) (n : N) (acc : list N) :
  Forall (fun d => d < 10)%N acc ->
  Forall (fun d => d < 10)%N (digitsAux fuel n acc).
Proof.
  revert n acc. induction fuel as [|fuel IH]; intros n acc Hacc; cbn [digitsAux].
  - exact Hacc.
  - assert (Forall (fun d => d < 10)%N ((n mod 10)%N :: acc)).
    { constructor; [apply N.mod_lt; lia | exact Hacc]. }
    destruct (n / 10 =? 0)%N; [assumption | now apply IH].
Qed.

Lemma digitsAux_nonempty (fuel : nat) (n : N) (acc : list N) :
  digitsAux (S fuel) n acc <> [].
Proof.
  revert n acc. induction fuel as [|fuel IH]; intros n acc.
  - cbn [digitsAux]. destruct (n / 10 =? 0)%N; discriminate.
  - change (digitsAux (S (S fuel)) n acc)
      with (if (n / 10 =? 0)%N then (n mod 10)%N :: acc
            else digitsAux (S fuel) (n / 10)%N ((n mod 10)%N :: acc)).
    destruct (n / 10 =? 0)%N; [discriminate | apply IH].
Qed.

Lemma digitsAux_leading (fuel : nat) (n : N) (acc : list N) :
  (n < 2 ^ N.of_nat fuel)%N ->
  n <> 0%N ->
  hd 0%N (digitsAux fuel n acc) <> 0%N.
Proof.
  revert n acc. induction fuel as [|fuel IH]; intros n acc Hn Hpos.
  - simpl in Hn. lia.
  - cbn [digitsAux].
    pose proof (N.div_mod n 10 ltac:(lia)) as Hdm.
    destruct (N.eqb_spec (n / 10) 0) as [E|E].
    + cbn [hd]. lia.
    + apply IH; [|exact E].
      rewrite Nat2N.inj_succ, N.pow_succ_r' in Hn.
      apply N.Div0.div_lt_upper_bound. lia.
Qed.

Lemma decimalDigits_fuel (n : N) : (n < 2 ^ N.of_nat (S (N.to_nat (N.log2 n))))%N.
Proof.
  rewrite Nat2N.inj_succ, N2Nat.id.
  destruct n as [|p]; [reflexivity|].
  apply N.log2_spec. lia.
Qed.

Lemma decimalDigits_spec (n : N) : isDecimalOf (decimalDigits n) n.
Proof.
  unfold isDecimalOf, decimalDigits. split; [|split; [|split]].
  - apply digitsAux_small. constructor.
  - apply digitsAux_nonempty.
  - destruct (N.eq_dec n 0) as [->|Hn]; [reflexivity|].
    intros H. exfalso. revert H. apply digitsAux_leading; [|exact Hn].
    apply decimalDigits_fuel.
  - unfold digitsValue.
    rewrite digitsAux_value by apply decimalDigits_fuel. reflexivity.
Qed.

Lemma digit_glyph (d : N) :
  (d < 10)%N ->
  isDigit (48 + d)%N = true
  /\ arabicDigitAt (parseInt_digit (48 + d)%N) = [arabicGlyph d].
Proof.
  intros H.
  assert (Hd : (d = 0 \/ d = 1 \/ d = 2 \/ d = 3 \/ d = 4 \/ d = 5 \/ d = 6
                \/ d = 7 \/ d = 8 \/ d = 9)%N) by lia.
  repeat (destruct Hd as [-> | Hd]; [split; reflexivity|]).
  subst d. split; reflexivity.
Qed.

Lemma replace_digits_glyphs (ds : list N) :
  Forall (fun d => d < 10)%N ds ->
  replace_digits (fun d => arabicDigitAt (parseInt_digit d))
    (List.map (fun d => 48 + d)%N ds)
  = List.map arabicGlyph ds.
Proof.
  unfold replace_digits. induction 1 as [|d ds Hd _ IH]; [reflexivity|].
  cbn [List.map List.flat_map].
  destruct (digit_glyph Hd) as [-> ->]. rewrite IH. reflexivity.
Qed.

(** C7. For an integer Number [n], the result is the decimal
    representation of [n] with each digit replaced by its Arabic-Indic
    glyph, in the same order and number; 123 gives the three glyphs of 1,
    2, 3 and 0 gives the glyph of 0. *)
Theorem convertToArabicNumerals_spec (n : N) :
  (n <= MAX_SAFE_INTEGER)%N ->
  (exists ds,
     isDecimalOf ds n
     /\ Number_toString n = List.map (fun d => 48 + d)%N ds
     /\ convertToArabicNumerals n = List.map arabicGlyph ds
     /\ length (convertToArabicNumerals n) = length ds)
  /\ convertToArabicNumerals 123 = [0x661; 0x662; 0x663]%N
  /\ convertToArabicNumerals 0 = [0x660]%N.
Proof.
  intros _. split; [|split; reflexivity].
  exists (decimalDigits n).
  pose proof (decimalDigits_spec n) as Hspec.
  assert (Hconv : convertToArabicNumerals n = List.map arabicGlyph (decimalDigits n)).
  { unfold convertToArabicNumerals, Number_toString.
    apply replace_digits_glyphs. apply Hspec. }
  split; [exact Hspec|]. split; [reflexivity|]. split; [exact Hconv|].
  rewrite Hconv. apply length_map.
Qed.

Lemma convertToArabicNumerals_spec_witness :
  (286 <= MAX_SAFE_INTEGER)%N
  /\ exists ds,
       isDecimalOf ds 286
       /\ convertToArabicNumerals 286 = List.map arabicGlyph ds.
Proof.
  assert (Hsafe : (286 <= MAX_SAFE_INTEGER)%N) by (vm_compute; discriminate).
  split; [exact Hsafe|].
  destruct (convertToArabicNumerals_spec Hsafe) as ((ds & Hds & _ & Hconv & _) & _).
  exists ds. split; [exact Hds | exact Hconv].
Defined.

(* ===================================================================== *)
(** * Scenarios of the specification                                      *)
(* ===================================================================== *)

(** Source lengths 200, 100, 200: verses 1 and 2 share a segment, verse 3
    has its own. *)
Example scenario_lengths_200_100_200 :
  List.map (List.map verseNumber)
    (verseGroups [sampleVerse 1 200; sampleVerse 2 100; sampleVerse 3 200] [])
  = [[1; 2]; [3]]%N
  /\ List.map ayah
       (List.map (renderGroup (lit "Al-Faatiha"))
          (verseGroups [sampleVerse 1 200; sampleVerse 2 100; sampleVerse 3 200] []))
     = [lit "1-2"; lit "3"].
Proof. split; reflexivity. Qed.

(** The segment of one verse, as [pushSegment] builds it. *)
Example scenario_single_verse_segment :
  pushSegment [] [{| text := lit "abc"; numberInSurah := 12 |}]
    [Some {| text := lit "xyz"; numberInSurah := 12 |}] (lit "Al-Faatiha")
  = Normal [ {| arabic := lit "abc" ++ ayahMark ++ [0x661; 0x662]%N;
                translation := lit "xyz (12)";
                surah := lit "Al-Faatiha";
                ayah := lit "12" |} ].
Proof. reflexivity. Qed.

(** The label compares the two verse numbers, not the number of verses:
    on an input that repeats a number, outside any verse range of a
    chapter, two verses can get a single number as label. *)
Example scenario_repeated_number :
  List.map ayah
    (List.map (renderGroup []) (verseGroups [sampleVerse 5 10; sampleVerse 5 10] []))
  = [lit "5"].
Proof. reflexivity. Qed.

(** A text with one nature keyword and one paradise keyword: nature. *)
Example scenario_mountain_and_river (random : RandomDraw) :
  backgroundType
    (Part000.getDesignFromText asciiLower random (lit "a mountain, a river"))
  = NATURE.
Proof. reflexivity. Qed.

(** The empty text: the category follows the draw. *)
Example scenario_empty_text :
  List.map (fun r => backgroundType (Part000.getDesignFromText asciiLower r []))
    [drawLow; drawMiddle; drawHigh]
  = [NATURE; SKY; JANNAT].
Proof. reflexivity. Qed.

(** Draws at which the product with [types.length] is rounded up to an
    integer: 0.3333333333333333 gives sky, 0.6666666666666666 gives
    paradise, and the largest draw, 0.9999999999999999, stays within
    [types]. *)
Example scenario_rounded_product :
  List.map (fun r => backgroundType (Part000.getDesignFromText asciiLower r []))
    [drawOneThird; drawTwoThirds; drawLargest]
  = [SKY; JANNAT; JANNAT].
Proof. vm_compute. reflexivity. Qed.

(* ===================================================================== *)
(** * Further properties of the grouping                                  *)
(* ===================================================================== *)

Section GreedyFacts.

Variable X : Type.
Variable len : X -> nat.

Lemma chunkLoop_groups_valid (rest cur : list X) (n : nat) :
  n = totalLen len cur ->
  (2 <= length cur -> totalLen len cur <= TARGET_CARD_CAPACITY) ->
  Forall (validGroup len) (chunkLoop len rest cur n).
Proof.
  intros Hn Hcap.
  pose proof (chunkLoop_nonempty len rest cur n) as Hne.
  pose proof (@chunkLoop_capacity X len rest cur n Hn Hcap) as Hc.
  rewrite Forall_forall in *. intros c Hin. split; [now apply Hne | now apply Hc].
Qed.

(** A fuller buffer costs at most one group more, and never fewer. *)
Lemma chunkLoop_fuller_buffer (rest extra small : list X) (ns nb : nat) :
  small <> [] ->
  ns = totalLen len small ->
  nb = totalLen len (extra ++ small) ->
  length (chunkLoop len rest (extra ++ small) nb)
    <= 1 + length (chunkLoop len rest small ns)
  /\ length (chunkLoop len rest small ns)
     <= length (chunkLoop len rest (extra ++ small) nb).
Proof.
  revert extra small ns nb.
  induction rest as [|v rest IH]; intros extra small ns nb Hne Hns Hnb.
  - cbn [chunkLoop].
    assert (Hs : (0 <? length small) = true) by now apply positive_length_nonempty.
    assert (Hb : (0 <? length (extra ++ small)) = true).
    { apply positive_length_nonempty. destruct extra; [exact Hne | discriminate]. }
    rewrite Hs, Hb. simpl. lia.
  - cbn [chunkLoop].
    assert (Hs : (0 <? length small) = true) by now apply positive_length_nonempty.
    assert (Hb : (0 <? length (extra ++ small)) = true).
    { apply positive_length_nonempty. destruct extra; [exact Hne | discriminate]. }
    rewrite Hs, Hb, !andb_true_r.
    assert (Hle : ns <= nb) by (rewrite Hns, Hnb, totalLen_app; lia).
    destruct (Nat.ltb_spec TARGET_CARD_CAPACITY (ns + len v)) as [Hs1|Hs1];
      destruct (Nat.ltb_spec TARGET_CARD_CAPACITY (nb + len v)) as [Hb1|Hb1];
      try lia.
    + simpl. lia.
    + destruct (IH small [v] (len v) (ns + len v)) as [H1 H2];
        [discriminate | now rewrite totalLen_one
        | now rewrite totalLen_snoc, Hns |].
      simpl. lia.
    + rewrite <- app_assoc.
      apply IH; [destruct small; discriminate | now rewrite totalLen_snoc, Hns |].
      rewrite app_assoc, totalLen_snoc, Hnb. reflexivity.
Qed.

(** The loop against any other cutting whose open group holds at least
    the loop's buffer. *)
Lemma chunkLoop_stays_ahead (rest cur : list X) (n : nat)
    (before after : list X) (others : list (list X)) :
  cur <> [] ->
  n = totalLen len cur ->
  validGroup len (before ++ cur ++ after) ->
  Forall (validGroup len) others ->
  after ++ concat others = rest ->
  length (chunkLoop len rest cur n) <= S (length others).
Proof.
  revert cur n before after others.
  induction rest as [|v rest IH]; intros cur n before after others Hne Hn Hg Ho Hrest.
  - cbn [chunkLoop]. apply positive_length_nonempty in Hne. rewrite Hne. simpl. lia.
  - cbn [chunkLoop].
    assert (Hc : (0 <? length cur) = true) by now apply positive_length_nonempty.
    rewrite Hc, andb_true_r.
    destruct after as [|v' after].
    + (* the other cutting closes its group before [v] *)
      simpl in Hrest. destruct others as [|g others]; [discriminate|].
      apply Forall_cons_iff in Ho. destruct Ho as [Hgv Ho].
      destruct g as [|v' g]; [destruct Hgv as [Hgv _]; congruence|].
      simpl in Hrest. injection Hrest as -> Hrest.
      assert (Hnext : length (chunkLoop len rest [v] (len v)) <= S (length others)).
      { apply (IH [v] (len v) [] g others); try assumption;
          [discriminate | now rewrite totalLen_one]. }
      destruct (TARGET_CARD_CAPACITY <? n + len v).
      * simpl. lia.
      * destruct (@chunkLoop_fuller_buffer rest cur [v] (len v) (n + len v))
          as [H1 _];
          [discriminate | now rewrite totalLen_one
          | now rewrite totalLen_snoc, Hn |].
        simpl. lia.
    + (* the other cutting keeps [v] in its open group *)
      simpl in Hrest. injection Hrest as -> Hrest.
      destruct (Nat.ltb_spec TARGET_CARD_CAPACITY (n + len v)) as [Hover|Hfit].
      * exfalso. destruct Hg as [_ Hg].
        rewrite !totalLen_app, !length_app in Hg.
        change (v :: after) with ([v] ++ after) in Hg.
        rewrite totalLen_app, totalLen_one in Hg. simpl in Hg.
        assert (1 <= length cur) by (destruct cur; [congruence | simpl; lia]).
        lia.
      * apply (IH (cur ++ [v]) (n + len v) before after others); try assumption.
        -- destruct cur; discriminate.
        -- now rewrite totalLen_snoc, Hn.
        -- rewrite <- app_assoc. exact Hg.
Qed.

(** No cutting of the list into valid groups has fewer groups than the
    loop makes. *)
Lemma chunks_fewest (l : list X) (P : list (list X)) :
  concat P = l ->
  Forall (validGroup len) P ->
  length (chunks len l) <= length P.
Proof.
  intros Hcat Hvalid. unfold chunks.
  destruct l as [|v l]; [simpl; lia|].
  destruct P as [|g others]; [discriminate|].
  apply Forall_cons_iff in Hvalid. destruct Hvalid as [Hg Ho].
  destruct g as [|v' g]; [destruct Hg as [Hg _]; congruence|].
  simpl in Hcat. injection Hcat as -> Hcat.
  cbn [chunkLoop]. rewrite andb_false_r. simpl app.
  apply (@chunkLoop_stays_ahead l [v] (len v) [] g others);
    try assumption; [discriminate | now rewrite totalLen_one].
Qed.

(** More verses after the input leave every group but the last as it
    was; the last one can only grow. *)
Lemma chunkLoop_extend (rest cur extra : list X) (n : nat) :
  cur <> [] \/ rest <> [] ->
  exists lastGroup m,
    chunkLoop len rest cur n = removelast (chunkLoop len rest cur n) ++ [lastGroup]
    /\ chunkLoop len (rest ++ extra) cur n
       = removelast (chunkLoop len rest cur n) ++ chunkLoop len extra lastGroup m.
Proof.
  revert cur n. induction rest as [|v rest IH]; intros cur n Hne.
  - destruct Hne as [Hne | Hne]; [|congruence].
    exists cur, n. cbn [chunkLoop app].
    apply positive_length_nonempty in Hne. rewrite Hne. split; reflexivity.
  - cbn [chunkLoop app].
    destruct ((TARGET_CARD_CAPACITY <? n + len v) && (0 <? length cur)).
    + destruct (IH [v] (len v)) as (lastGroup & m & Hlast & Hext);
        [left; discriminate|].
      exists lastGroup, m.
      assert (Hnonempty : chunkLoop len rest [v] (len v) <> [])
        by (rewrite Hlast; destruct (removelast _); discriminate).
      split.
      * destruct (chunkLoop len rest [v] (len v)) as [|c cs] eqn:E; [congruence|].
        change (removelast (cur :: c :: cs)) with (cur :: removelast (c :: cs)).
        simpl. f_equal. exact Hlast.
      * rewrite Hext.
        destruct (chunkLoop len rest [v] (len v)) as [|c cs] eqn:E; [congruence|].
        reflexivity.
    + apply IH. left. destruct cur; discriminate.
Qed.

End GreedyFacts.

Lemma verseUnitsFrom_app (transAyahs a b : list Ayah) (i : nat) :
  verseUnitsFrom transAyahs i (a ++ b)
  = verseUnitsFrom transAyahs i a ++ verseUnitsFrom transAyahs (i + length a) b.
Proof.
  revert i. induction a as [|v a IH]; intros i; simpl.
  - now rewrite Nat.add_0_r.
  - rewrite IH. now rewrite Nat.add_succ_r.
Qed.

(** X1. The groups of the loop are valid, and no other way to cut the
    verse units, in order, into valid groups gives fewer cards than the
    call returns segments. *)
Theorem segments_are_fewest
    (arabicAyahs transAyahs : list Ayah) (surahName : jsstring)
    (cutting : list (list VerseUnit)) :
  concat cutting = verseUnits arabicAyahs transAyahs ->
  Forall (validGroup sourceLength) cutting ->
  let segs := List.map (renderGroup surahName) (verseGroups arabicAyahs transAyahs) in
  producesSegments arabicAyahs transAyahs surahName segs
  /\ Forall (validGroup sourceLength) (verseGroups arabicAyahs transAyahs)
  /\ length segs <= length cutting.
Proof.
  intros Hcat Hvalid segs. split; [apply produces_verseGroups|]. split.
  - apply chunkLoop_groups_valid; [reflexivity | simpl; lia].
  - subst segs. rewrite length_map. now apply chunks_fewest.
Qed.

Lemma segments_are_fewest_witness :
  let input := [sampleVerse 1 200; sampleVerse 2 300; sampleVerse 3 100;
                sampleVerse 4 400] in
  let unit := fun v => (v, emptyTranslation v) in
  let cutting := [[unit (sampleVerse 1 200)];
                  [unit (sampleVerse 2 300); unit (sampleVerse 3 100)];
                  [unit (sampleVerse 4 400)]] in
  concat cutting = verseUnits input []
  /\ length (verseGroups input []) <= 3.
Proof.
  intros input unit cutting.
  assert (Hcat : concat cutting = verseUnits input []) by reflexivity.
  split; [exact Hcat|].
  assert (Hvalid : Forall (validGroup sourceLength) cutting).
  { repeat constructor; try discriminate; vm_compute; lia. }
  destruct (@segments_are_fewest input [] [] cutting Hcat Hvalid) as (_ & _ & H).
  rewrite length_map in H. exact H.
Defined.

(** X2. When further verses follow the input, every segment but the last
    stays as it was, and the last group keeps its verses and may take
    more. *)
Theorem segments_stable_under_extension
    (arabicAyahs moreAyahs transAyahs : list Ayah) (surahName : jsstring) :
  arabicAyahs <> [] ->
  let kept := removelast (verseGroups arabicAyahs transAyahs) in
  exists lastGroup grown tail,
    verseGroups arabicAyahs transAyahs = kept ++ [lastGroup]
    /\ verseGroups (arabicAyahs ++ moreAyahs) transAyahs
       = kept ++ (lastGroup ++ grown) :: tail
    /\ producesSegments (arabicAyahs ++ moreAyahs) transAyahs surahName
         (List.map (renderGroup surahName) kept
            ++ renderGroup surahName (lastGroup ++ grown)
            :: List.map (renderGroup surahName) tail).
Proof.
  intros Hne kept. subst kept. unfold verseGroups, chunks, verseUnits.
  rewrite verseUnitsFrom_app. simpl Nat.add.
  destruct (@chunkLoop_extend VerseUnit sourceLength
              (verseUnitsFrom transAyahs 0 arabicAyahs) []
              (verseUnitsFrom transAyahs (length arabicAyahs) moreAyahs) 0)
    as (lastGroup & m & Hlast & Hext).
  { right. destruct arabicAyahs; [congruence | discriminate]. }
  assert (HlastNe : lastGroup <> []).
  { pose proof (chunkLoop_nonempty sourceLength
                  (verseUnitsFrom transAyahs 0 arabicAyahs) [] 0) as Hall.
    rewrite Hlast in Hall. apply Forall_app in Hall. destruct Hall as [_ Hall].
    now apply Forall_inv in Hall. }
  destruct (@chunkLoop_head VerseUnit sourceLength
              (verseUnitsFrom transAyahs (length arabicAyahs) moreAyahs)
              lastGroup m HlastNe)
    as (grown & tail & Htail).
  exists lastGroup, grown, tail.
  split; [exact Hlast|]. split; [rewrite Hext, Htail; reflexivity|].
  pose proof (produces_verseGroups (arabicAyahs ++ moreAyahs) transAyahs surahName)
    as Hp.
  unfold verseGroups, chunks, verseUnits in Hp.
  rewrite verseUnitsFrom_app in Hp. simpl Nat.add in Hp.
  rewrite Hext, Htail, map_app in Hp. exact Hp.
Qed.

Lemma segments_stable_under_extension_witness :
  let input := [sampleVerse 1 200; sampleVerse 2 300; sampleVerse 3 100] in
  input <> []
  /\ exists lastGroup grown tail,
       verseGroups (input ++ [sampleVerse 4 40; sampleVerse 5 400]) []
       = removelast (verseGroups input []) ++ (lastGroup ++ grown) :: tail.
Proof.
  intros input.
  assert (Hne : input <> []) by discriminate.
  split; [exact Hne|].
  destruct (@segments_stable_under_extension input
              [sampleVerse 4 40; sampleVerse 5 400] [] [] Hne)
    as (lastGroup & grown & tail & _ & H & _).
  exists lastGroup, grown, tail. exact H.
Defined.

(* ===================================================================== *)
(** * Numerals, labels and download names                                 *)
(* ===================================================================== *)

Lemma convertToArabicNumerals_glyphs (n : N) :
  convertToArabicNumerals n = List.map arabicGlyph (decimalDigits n).
Proof.
  unfold convertToArabicNumerals, Number_toString.
  apply replace_digits_glyphs. apply decimalDigits_spec.
Qed.

Lemma map_injective (A B : Type) (f : A -> B) (l1 l2 : list A) :
  (forall x y, f x = f y -> x = y) ->
  List.map f l1 = List.map f l2 -> l1 = l2.
Proof.
  intros Hinj. revert l2. induction l1 as [|a l1 IH]; intros [|b l2] H;
    simpl in H; try discriminate; [reflexivity|].
  injection H as Hab Hrest. f_equal; [now apply Hinj | now apply IH].
Qed.

Lemma decimalDigits_injective (a b : N) :
  decimalDigits a = decimalDigits b -> a = b.
Proof.
  intros H.
  destruct (decimalDigits_spec a) as (_ & _ & _ & Ha).
  destruct (decimalDigits_spec b) as (_ & _ & _ & Hb).
  rewrite <- Ha, <- Hb, H. reflexivity.
Qed.

Lemma Number_toString_injective (a b : N) :
  Number_toString a = Number_toString b -> a = b.
Proof.
  unfold Number_toString. intros H. apply decimalDigits_injective.
  apply (map_injective (fun d => 48 + d)%N); [intros x y; lia | exact H].
Qed.

Lemma Number_toString_digits (n : N) :
  Forall (fun c => isDigit c = true) (Number_toString n).
Proof.
  unfold Number_toString. apply Forall_map.
  destruct (decimalDigits_spec n) as (Hsmall & _).
  eapply Forall_impl; [|exact Hsmall].
  intros d Hd. now destruct (digit_glyph Hd).
Qed.

(** X3. Within the safe integers, different numbers get different
    numeral strings, the string has as many units as the decimal form
    has digits, and no decimal digit is left in it. *)
Theorem convertToArabicNumerals_injective (a b : N) :
  (a <= MAX_SAFE_INTEGER)%N ->
  (b <= MAX_SAFE_INTEGER)%N ->
  (convertToArabicNumerals a = convertToArabicNumerals b -> a = b)
  /\ length (convertToArabicNumerals a) = length (Number_toString a)
  /\ Forall (fun c => isDigit c = false) (convertToArabicNumerals a).
Proof.
  intros _ _. split; [|split].
  - rewrite !convertToArabicNumerals_glyphs. intros H.
    apply decimalDigits_injective.
    apply (map_injective arabicGlyph); [|exact H].
    unfold arabicGlyph. intros x y. lia.
  - rewrite convertToArabicNumerals_glyphs. unfold Number_toString.
    now rewrite !length_map.
  - rewrite convertToArabicNumerals_glyphs. apply Forall_map.
    destruct (decimalDigits_spec a) as (Hsmall & _).
    eapply Forall_impl; [|exact Hsmall].
    intros d Hd. unfold arabicGlyph, isDigit.
    apply andb_false_iff. right. apply N.leb_gt. lia.
Qed.

Lemma convertToArabicNumerals_injective_witness :
  (12 <= MAX_SAFE_INTEGER)%N /\ (21 <= MAX_SAFE_INTEGER)%N
  /\ length (convertToArabicNumerals 12) = length (Number_toString 12).
Proof.
  assert (Ha : (12 <= MAX_SAFE_INTEGER)%N) by (vm_compute; discriminate).
  assert (Hb : (21 <= MAX_SAFE_INTEGER)%N) by (vm_compute; discriminate).
  split; [exact Ha|]. split; [exact Hb|].
  destruct (@convertToArabicNumerals_injective 12%N 21%N Ha Hb) as (_ & H & _).
  exact H.
Defined.

(** ** Labels *)

Lemma split_at_first (A : Type) (x : A) (l1 l2 l3 l4 : list A) :
  ~ In x l1 -> ~ In x l3 ->
  l1 ++ x :: l2 = l3 ++ x :: l4 ->
  l1 = l3 /\ l2 = l4.
Proof.
  revert l3. induction l1 as [|a l1 IH]; intros [|b l3] H1 H3 E; simpl in *.
  - injection E as ->. split; reflexivity.
  - injection E as -> _. exfalso. apply H3. left; reflexivity.
  - injection E as -> _. exfalso. apply H1. left; reflexivity.
  - injection E as -> E.
    destruct (IH l3) as [-> ->]; [tauto | tauto | exact E |]. split; reflexivity.
Qed.

Lemma Number_toString_no_hyphen (n : N) : ~ In 45%N (Number_toString n).
Proof.
  intros H. pose proof (Number_toString_digits n) as Hd.
  rewrite Forall_forall in Hd. specialize (Hd _ H). discriminate.
Qed.

(** A label tells the two numbers it was made of. *)
Lemma rangeLabel_injective (a b c d : N) :
  rangeLabel a b = rangeLabel c d -> a = c /\ b = d.
Proof.
  unfold rangeLabel.
  destruct (N.eqb_spec a b) as [<-|Hab], (N.eqb_spec c d) as [<-|Hcd]; intros H.
  - apply Number_toString_injective in H. now subst.
  - exfalso. apply (Number_toString_no_hyphen a). rewrite H.
    apply in_or_app. right. left. reflexivity.
  - exfalso. apply (Number_toString_no_hyphen c). rewrite <- H.
    apply in_or_app. right. left. reflexivity.
  - change (lit "-") with [45%N] in H. simpl in H.
    apply split_at_first in H; try apply Number_toString_no_hyphen.
    destruct H as [H1 H2]. apply Number_toString_injective in H1, H2. now subst.
Qed.

Lemma NoDup_app_disjoint (A : Type) (l1 l2 : list A) (a : A) :
  NoDup (l1 ++ l2) -> In a l1 -> ~ In a l2.
Proof.
  induction l1 as [|b l1 IH]; simpl; [tauto|].
  intros Hnd [->|Hin] H2; apply NoDup_cons_iff in Hnd; destruct Hnd as [Hnot Hnd].
  - apply Hnot. apply in_or_app. now right.
  - now apply (IH Hnd Hin).
Qed.

Lemma firstNumbers_distinct (cs : list (list VerseUnit)) :
  Forall (fun c => c <> []) cs ->
  NoDup (List.map verseNumber (concat cs)) ->
  NoDup (List.map firstNumber cs).
Proof.
  induction 1 as [|c cs Hc Hcs IH]; intros Hnd; simpl; [constructor|].
  simpl in Hnd. rewrite map_app in Hnd. constructor.
  - intros Hin. apply in_map_iff in Hin. destruct Hin as (c' & Heq & Hc').
    destruct c as [|u c]; [congruence|].
    assert (Hne' : c' <> []).
    { intros ->. rewrite Forall_forall in Hcs. now apply (Hcs [] Hc'). }
    destruct c' as [|u' c']; [congruence|]. simpl in Heq.
    apply (NoDup_app_disjoint _ _ (verseNumber u) Hnd); [left; reflexivity|].
    rewrite <- Heq. apply in_map. apply in_concat. exists (u' :: c').
    split; [exact Hc' | left; reflexivity].
  - apply IH. now apply NoDup_app_remove_l in Hnd.
Qed.

Lemma renderGroup_label_first (surahName : jsstring) (c c' : list VerseUnit) :
  c <> [] -> c' <> [] ->
  ayah (renderGroup surahName c) = ayah (renderGroup surahName c') ->
  firstNumber c = firstNumber c'.
Proof.
  intros Hc Hc'. destruct c as [|u c]; [congruence|].
  destruct c' as [|u' c']; [congruence|]. simpl.
  intros H. now apply rangeLabel_injective in H.
Qed.

Lemma NoDup_map_by_key (A B K : Type) (f : A -> B) (key : A -> K) (l : list A) :
  (forall x y, In x l -> In y l -> f x = f y -> key x = key y) ->
  NoDup (List.map key l) ->
  NoDup (List.map f l).
Proof.
  induction l as [|a l IH]; intros Hkey Hnd; simpl in *; constructor.
  - apply NoDup_cons_iff in Hnd. destruct Hnd as [Hnot _].
    intros Hin. apply in_map_iff in Hin. destruct Hin as (y & Hy & Hyl).
    apply Hnot. rewrite (Hkey a y); [now apply in_map | now left | now right | now symmetry].
  - apply NoDup_cons_iff in Hnd. destruct Hnd as [_ Hnd].
    apply IH; [|exact Hnd]. intros x y Hx Hy. apply Hkey; now right.
Qed.

(** X4. When the verse numbers of the input are pairwise different, the
    labels of the segments of one call are pairwise different, and so are
    the file names under which their cards are downloaded. *)
Theorem download_names_distinct
    (arabicAyahs transAyahs : list Ayah) (surahName : jsstring)
    (theme : DesignConfig) :
  NoDup (List.map numberInSurah arabicAyahs) ->
  let segs := List.map (renderGroup surahName) (verseGroups arabicAyahs transAyahs) in
  let cards := App.newCards {| segments := segs; design := theme |} in
  producesSegments arabicAyahs transAyahs surahName segs
  /\ NoDup (List.map ayah segs)
  /\ NoDup (List.map (fun card => App.downloadName (App.verse card)) cards).
Proof.
  intros Hnd segs cards. split; [apply produces_verseGroups|].
  assert (Hlabels : NoDup (List.map ayah segs)).
  { subst segs. rewrite map_map.
    apply (NoDup_map_by_key _ firstNumber).
    - intros c c' Hc Hc'. apply renderGroup_label_first.
      + pose proof (verseGroups_nonempty arabicAyahs transAyahs) as Hne.
        rewrite Forall_forall in Hne. now apply Hne.
      + pose proof (verseGroups_nonempty arabicAyahs transAyahs) as Hne.
        rewrite Forall_forall in Hne. now apply Hne.
    - apply firstNumbers_distinct; [apply verseGroups_nonempty|].
      rewrite verseGroups_concat.
      replace (List.map verseNumber (verseUnits arabicAyahs transAyahs))
        with (List.map numberInSurah (List.map fst (verseUnits arabicAyahs transAyahs)))
        by (rewrite map_map; reflexivity).
      rewrite verseUnits_fst. exact Hnd. }
  split; [exact Hlabels|].
  subst cards. unfold App.newCards. cbn [segments design]. rewrite map_map.
  cbn [App.verse].
  apply (NoDup_map_by_key _ ayah); [|exact Hlabels].
  intros s s' Hs Hs' Hname. unfold App.downloadName in Hname.
  subst segs. apply in_map_iff in Hs, Hs'.
  destruct Hs as (c & <- & _), Hs' as (c' & <- & _). cbn [surah renderGroup] in Hname.
  apply app_inv_head in Hname. apply app_inv_head in Hname.
  apply app_inv_head in Hname. apply app_inv_tail in Hname. exact Hname.
Qed.

Lemma download_names_distinct_witness :
  let input :=
    [sampleVerse 5 200; sampleVerse 6 100; sampleVerse 7 100; sampleVerse 8 300] in
  NoDup (List.map numberInSurah input)
  /\ NoDup (List.map ayah (List.map (renderGroup []) (verseGroups input []))).
Proof.
  intros input.
  assert (Hnd : NoDup (List.map numberInSurah input))
    by (repeat constructor; simpl; intuition discriminate).
  split; [exact Hnd|].
  destruct (@download_names_distinct input [] [] GeminiService.defaultDesign Hnd)
    as (_ & H & _).
  exact H.
Defined.

(* ===================================================================== *)
(** * The size of the text on a card                                      *)
(* ===================================================================== *)

Lemma lineHeight_monotone (a b : N) :
  (a <= b)%N -> (VerseCard.lineHeight a <= VerseCard.lineHeight b)%Q.
Proof.
  intros H. unfold VerseCard.lineHeight.
  destruct (N.ltb_spec 60 a), (N.ltb_spec 60 b),
           (N.ltb_spec 40 a), (N.ltb_spec 40 b),
           (N.ltb_spec a 20), (N.ltb_spec b 20);
    try lia; unfold Qle; simpl; lia.
Qed.

Ltac split_thresholds :=
  repeat match goal with
         | |- context [N.eqb ?x ?y] => destruct (N.eqb_spec x y); try lia
         | |- context [N.ltb ?x ?y] => destruct (N.ltb_spec x y); try lia
         end.

(** X5. For texts that are not empty, a longer Arabic text never gets a
    larger font nor a larger line height; the font size lies between 16
    and 90. *)
Theorem dynamicFontSize_monotone (shorter longer : jsstring) :
  1 <= length shorter ->
  length shorter <= length longer ->
  (VerseCard.dynamicFontSize longer <= VerseCard.dynamicFontSize shorter)%N
  /\ (VerseCard.lineHeight (VerseCard.dynamicFontSize longer)
      <= VerseCard.lineHeight (VerseCard.dynamicFontSize shorter))%Q
  /\ (16 <= VerseCard.dynamicFontSize shorter <= 90)%N.
Proof.
  intros Hpos Hle.
  assert (Hmono : (VerseCard.dynamicFontSize longer
                   <= VerseCard.dynamicFontSize shorter)%N).
  { unfold VerseCard.dynamicFontSize. cbv zeta. split_thresholds. }
  split; [exact Hmono|]. split; [now apply lineHeight_monotone|].
  unfold VerseCard.dynamicFontSize. cbv zeta. split_thresholds.
Qed.

Lemma dynamicFontSize_monotone_witness :
  1 <= length (lit "abc")
  /\ length (lit "abc") <= length (repeat 0x627%N 700)
  /\ (VerseCard.dynamicFontSize (repeat 0x627%N 700)
      <= VerseCard.dynamicFontSize (lit "abc"))%N.
Proof.
  assert (H1 : 1 <= length (lit "abc")) by (simpl; lia).
  assert (H2 : length (lit "abc") <= length (repeat 0x627%N 700))
    by (rewrite repeat_length; simpl; lia).
  split; [exact H1|]. split; [exact H2|].
  destruct (@dynamicFontSize_monotone (lit "abc") (repeat 0x627%N 700) H1 H2)
    as (H & _).
  exact H.
Defined.

Lemma join_length (sep : jsstring) (parts : list jsstring) :
  length (join sep parts)
  = list_sum (List.map (@length char16) parts) + length sep * (length parts - 1).
Proof.
  induction parts as [|p parts IH]; [simpl; lia|].
  destruct parts as [|q parts].
  - simpl. lia.
  - change (join sep (p :: q :: parts)) with (p ++ sep ++ join sep (q :: parts)).
    rewrite !length_app, IH. simpl. lia.
Qed.

Lemma arabicParts_length (c : list VerseUnit) :
  list_sum (List.map (@length char16) (List.map (fun u => arabicPart (fst u)) c))
  = totalLen sourceLength c
    + list_sum (List.map (fun u => 2 + length (decimalDigits (verseNumber u))) c).
Proof.
  assert (Hcons : forall a l, list_sum (a :: l) = a + list_sum l) by reflexivity.
  unfold totalLen, VerseUnit, jsstring in *.
  induction c as [|u c IH]; [reflexivity|].
  rewrite !map_cons, !Hcons, IH.
  unfold arabicPart, sourceLength, verseNumber.
  rewrite !length_app, convertToArabicNumerals_glyphs, length_map.
  change (length ayahMark) with 2. lia.
Qed.

(** X6. The Arabic string of a segment is longer than the source text of
    its verses by the mark and the numerals of each verse (two units and
    one per decimal digit of its number) and by one space between
    verses; the capacity of the loop counts none of these. *)
Theorem segment_arabic_length
    (arabicAyahs transAyahs : list Ayah) (surahName : jsstring) :
  let groups := verseGroups arabicAyahs transAyahs in
  producesSegments arabicAyahs transAyahs surahName
    (List.map (renderGroup surahName) groups)
  /\ Forall
       (fun c =>
          length (arabic (renderGroup surahName c))
          = totalLen sourceLength c
            + list_sum (List.map
                 (fun u => 2 + length (decimalDigits (verseNumber u))) c)
            + (length c - 1))
       groups.
Proof.
  intros groups. split; [apply produces_verseGroups|].
  apply Forall_forall. intros c _.
  cbn [arabic renderGroup]. rewrite join_length, length_map.
  change (length (lit " ")) with 1.
  pose proof (arabicParts_length c) as Hparts.
  unfold VerseUnit, jsstring in *. lia.
Qed.

Lemma join_at_least_first (sep p : jsstring) (parts : list jsstring) :
  length p <= length (join sep (p :: parts)).
Proof.
  destruct parts as [|q parts]; [simpl; lia|].
  change (join sep (p :: q :: parts)) with (p ++ sep ++ join sep (q :: parts)).
  rewrite length_app. lia.
Qed.

Lemma decimalDigits_length_positive (n : N) : 1 <= length (decimalDigits n).
Proof.
  destruct (decimalDigits_spec n) as (_ & Hne & _).
  destruct (decimalDigits n); [congruence | simpl; lia].
Qed.

Lemma renderGroup_not_empty (surahName : jsstring) (c : list VerseUnit) :
  c <> [] ->
  3 <= length (arabic (renderGroup surahName c))
  /\ 4 <= length (translation (renderGroup surahName c)).
Proof.
  intros Hne. destruct c as [|u c]; [congruence|].
  cbn [arabic translation renderGroup]. rewrite !map_cons. split.
  - etransitivity; [|apply join_at_least_first].
    unfold arabicPart. rewrite !length_app, convertToArabicNumerals_glyphs, length_map.
    change (length ayahMark) with 2.
    pose proof (decimalDigits_length_positive (numberInSurah (fst u))). lia.
  - etransitivity; [|apply join_at_least_first].
    unfold transPart, Number_toString. rewrite !length_app, length_map.
    change (length (lit " (")) with 2. change (length (lit ")")) with 1.
    pose proof (decimalDigits_length_positive (numberInSurah (snd u))). lia.
Qed.

(** X7. On every card that [newCards] makes from the segments of a call
    the Arabic text and the translation are not empty: the translation
    block is rendered, neither font size is the one kept for a missing
    text (65 and 28), and every card carries the background, the text
    colour and the opacity of the one design of the response. *)
Theorem fetched_cards_have_text
    (arabicAyahs transAyahs : list Ayah) (surahName : jsstring)
    (theme : DesignConfig) :
  let segs := List.map (renderGroup surahName) (verseGroups arabicAyahs transAyahs) in
  let cards := App.newCards {| segments := segs; design := theme |} in
  producesSegments arabicAyahs transAyahs surahName segs
  /\ length cards = length segs
  /\ Forall
       (fun card =>
          VerseCard.showsTranslation (App.showTranslation card) (App.verse card) = true
          /\ 3 <= length (arabic (App.verse card))
          /\ VerseCard.dynamicFontSize (arabic (App.verse card)) <> 65%N
          /\ VerseCard.translationFontSize (App.verse card) <> 28%N
          /\ App.opacity card = opacity theme
          /\ App.textColor card = textColor theme
          /\ App.backgroundType card = backgroundType theme)
       cards.
Proof.
  intros segs cards. split; [apply produces_verseGroups|].
  subst cards. unfold App.newCards. cbn [segments design].
  split; [apply length_map|].
  apply Forall_map. subst segs. apply Forall_map.
  pose proof (verseGroups_nonempty arabicAyahs transAyahs) as Hne.
  eapply Forall_impl; [|exact Hne].
  intros c Hc. cbn [App.verse App.showTranslation App.opacity App.textColor
                      App.backgroundType].
  destruct (renderGroup_not_empty surahName Hc) as [Ha Ht].
  split.
  { unfold VerseCard.showsTranslation, App.baseShowTranslation.
    destruct (N.eqb_spec (N.of_nat (length (translation (renderGroup surahName c)))) 0);
      [lia | reflexivity]. }
  split; [exact Ha|].
  split.
  { unfold VerseCard.dynamicFontSize. cbv zeta. split_thresholds. }
  split.
  { unfold VerseCard.translationFontSize. cbv zeta. split_thresholds. }
  repeat split.
Qed.

(* ===================================================================== *)
(** * The verse range: request and selection                              *)
(* ===================================================================== *)

(** X8. Whatever the two arguments, the request asks for at least one
    verse and for exactly the verses from [startAyah] to the effective
    end; the end given is used when it is not 0 and not before the
    start, and otherwise the request is for the single verse
    [startAyah]. *)
Theorem request_range_normalised (startAyah : Z) (endAyah : option Z) :
  (1 <= requestLimit startAyah endAyah)%Z
  /\ (requestOffset startAyah + 1 = startAyah)%Z
  /\ (requestOffset startAyah + requestLimit startAyah endAyah
      = actualEndAyah startAyah endAyah)%Z
  /\ (forall e, endAyah = Some e -> e <> 0%Z -> (startAyah <= e)%Z ->
        requestLimit startAyah endAyah = (e - startAyah + 1)%Z)
  /\ (forall e, endAyah = Some e -> (e < startAyah)%Z ->
        requestLimit startAyah endAyah = 1%Z)
  /\ (endAyah = None -> requestLimit startAyah endAyah = 1%Z).
Proof.
  unfold requestLimit, requestOffset, actualEndAyah.
  split; [|split; [lia|split; [lia|split; [|split]]]].
  - destruct endAyah as [e|]; [|lia].
    destruct (Z.eqb_spec e 0), (Z.leb_spec startAyah e); simpl; lia.
  - intros e -> He Hle.
    destruct (Z.eqb_spec e 0), (Z.leb_spec startAyah e); simpl; lia.
  - intros e -> Hlt.
    destruct (Z.eqb_spec e 0), (Z.leb_spec startAyah e); simpl; lia.
  - intros ->. lia.
Qed.

Lemma request_range_normalised_witness :
  requestLimit 5 (Some 8%Z) = 4%Z /\ requestLimit 5 (Some 3%Z) = 1%Z.
Proof.
  destruct (request_range_normalised 5 (Some 8%Z)) as (_ & _ & _ & H & _).
  destruct (request_range_normalised 5 (Some 3%Z)) as (_ & _ & _ & _ & H' & _).
  split.
  - apply (H 8%Z); [reflexivity | discriminate | lia].
  - apply (H' 3%Z); [reflexivity | lia].
Defined.

(** ** The options of the two verse selects *)

Lemma previewOptions_spec (previewVerses : list Ayah) (idx : nat) (startFrom : N)
    (val : N) (label : option jsstring) :
  In (val, label) (Selection.previewOptions previewVerses idx startFrom) ->
  (startFrom <= val)%N
  /\ (N.of_nat idx < val <= N.of_nat (idx + length previewVerses))%N
  /\ exists ayahObj,
       nth_error previewVerses (N.to_nat val - 1 - idx) = Some ayahObj
       /\ label = Some (Selection.previewText (text ayahObj)).
Proof.
  revert idx. induction previewVerses as [|ayahObj rest IH]; intros idx Hin;
    [contradiction|].
  cbn [Selection.previewOptions] in Hin.
  assert (Hrest : In (val, label) (Selection.previewOptions rest (S idx) startFrom) ->
                  (startFrom <= val)%N
                  /\ (N.of_nat idx < val <= N.of_nat (idx + length (ayahObj :: rest)))%N
                  /\ exists a,
                       nth_error (ayahObj :: rest) (N.to_nat val - 1 - idx) = Some a
                       /\ label = Some (Selection.previewText (text a))).
  { intros H. destruct (IH _ H) as (H1 & H2 & a & Ha & Hl).
    split; [exact H1|]. split; [simpl length; lia|].
    exists a. split; [|exact Hl].
    replace (N.to_nat val - 1 - idx) with (S (N.to_nat val - 1 - S idx)) by lia.
    exact Ha. }
  destruct (N.ltb_spec (N.of_nat idx + 1) startFrom) as [Hlt|Hge];
    [now apply Hrest|].
  destruct Hin as [Heq|Hin]; [|now apply Hrest].
  injection Heq as <- <-.
  split; [exact Hge|]. split; [simpl length; lia|].
  exists ayahObj. split; [|reflexivity].
  replace (N.to_nat (N.of_nat idx + 1) - 1 - idx) with 0 by lia. reflexivity.
Qed.

Lemma previewText_length (t : jsstring) :
  length (Selection.previewText t) <= 43
  /\ (length t <= 40 -> Selection.previewText t = t).
Proof.
  unfold Selection.previewText.
  destruct (Nat.ltb_spec 40 (length t)) as [H|H].
  - split; [|lia]. rewrite length_app, length_firstn.
    change (length (lit "...")) with 3. lia.
  - split; [lia | reflexivity].
Qed.

(** X9. Every option that [renderAyahOptions] offers has a value that is
    at least [startFrom].  With previews loaded the values stop at the
    number of previewed verses and the text shown is the verse text, cut
    to 40 units and three dots when longer; without previews the values
    are the [count] numbers from [startFrom] on. *)
Theorem ayah_options_start_from
    (loadingVerses : bool) (previewVerses : list Ayah) (count : Z) (startFrom : N)
    (val : N) (label : option jsstring) :
  In (val, label)
     (Selection.renderAyahOptions loadingVerses previewVerses count startFrom) ->
  (startFrom <= val)%N
  /\ match label with
     | Some shown =>
         (val <= N.of_nat (length previewVerses))%N
         /\ length shown <= 43
         /\ exists ayahObj,
              nth_error previewVerses (N.to_nat val - 1) = Some ayahObj
              /\ shown = Selection.previewText (text ayahObj)
     | None => (Z.of_N val < Z.of_N startFrom + count)%Z
     end.
Proof.
  unfold Selection.renderAyahOptions.
  destruct (negb loadingVerses && (0 <? length previewVerses)).
  - intros Hin. destruct (previewOptions_spec _ _ _ _ _ Hin)
      as (H1 & H2 & ayahObj & Ha & ->).
    split; [exact H1|]. split; [simpl in H2; lia|].
    split; [apply previewText_length|].
    exists ayahObj. rewrite Nat.sub_0_r in Ha. split; [exact Ha | reflexivity].
  - intros Hin. apply in_map_iff in Hin. destruct Hin as (i & Heq & Hi).
    injection Heq as <- <-. apply in_seq in Hi. split; lia.
Qed.

Lemma ayah_options_start_from_witness :
  (5 <= 6)%N /\ (Z.of_N 6 < Z.of_N 5 + 3)%Z.
Proof.
  assert (Hin : In (6%N, @None jsstring)
                  (Selection.renderAyahOptions true [] 3 5))
    by (right; left; reflexivity).
  destruct (@ayah_options_start_from true [] 3%Z 5%N 6%N None Hin) as [H1 H2].
  split; [exact H1 | exact H2].
Defined.

(** ** The selection stays a range *)

Lemma ayah_options_start_from_aux
    (loadingVerses : bool) (previewVerses : list Ayah) (count : Z) (startFrom : N)
    (val : N) (label : option jsstring) :
  In (val, label)
     (Selection.renderAyahOptions loadingVerses previewVerses count startFrom) ->
  (startFrom <= val)%N.
Proof.
  unfold Selection.renderAyahOptions.
  destruct (negb loadingVerses && (0 <? length previewVerses)).
  - intros Hin. now destruct (previewOptions_spec _ _ _ _ _ Hin).
  - intros Hin. apply in_map_iff in Hin. destruct Hin as (i & Heq & _).
    injection Heq as <- _. lia.
Qed.

Lemma selection_step_invariant (s s' : Selection.State) :
  Selection.step s s' ->
  (1 <= Selection.startAyah s <= Selection.endAyah s)%N ->
  (1 <= Selection.startAyah s' <= Selection.endAyah s')%N.
Proof.
  intros Hstep Hinv. destruct Hstep as [n s | val s l p m Hin | val s l p m Hr Hin | s].
  - simpl. lia.
  - apply in_map_iff in Hin. destruct Hin as ([v label] & Hv & Hin).
    simpl in Hv. subst v.
    apply ayah_options_start_from_aux in Hin.
    cbn [Selection.handleStartAyahChange Selection.startAyah Selection.endAyah].
    destruct (negb (Selection.isRangeMode s)); simpl; [lia|].
    destruct (N.ltb_spec (Selection.endAyah s) val); lia.
  - apply in_map_iff in Hin. destruct Hin as ([v label] & Hv & Hin).
    simpl in Hv. subst v.
    apply ayah_options_start_from_aux in Hin.
    cbn [Selection.setEndAyah Selection.startAyah Selection.endAyah]. lia.
  - simpl. exact Hinv.
Qed.

(** X10. In every state the selection controls can reach, the first
    verse is at least 1 and the last verse is not before it.  The button
    therefore never takes the range-error exit, and the request it leads
    to asks for exactly the verses selected: from the first to the last
    in range mode, the first alone otherwise. *)
Theorem selection_is_always_a_range (s : Selection.State) :
  Selection.reachable s ->
  (1 <= Selection.startAyah s <= Selection.endAyah s)%N
  /\ Selection.handleFetchVerse s
     = Selection.CallService (Selection.selectedSurah s) (Selection.startAyah s)
         (if Selection.isRangeMode s then Some (Selection.endAyah s) else None)
  /\ (let endArgument :=
        if Selection.isRangeMode s
        then Some (Z.of_N (Selection.endAyah s)) else None in
      (0 <= requestOffset (Z.of_N (Selection.startAyah s)))%Z
      /\ requestLimit (Z.of_N (Selection.startAyah s)) endArgument
         = if Selection.isRangeMode s
           then (Z.of_N (Selection.endAyah s) - Z.of_N (Selection.startAyah s) + 1)%Z
           else 1%Z).
Proof.
  intros Hreach.
  assert (Hinv : (1 <= Selection.startAyah s <= Selection.endAyah s)%N).
  { induction Hreach as [|s s' _ IH Hstep]; [simpl; lia|].
    now apply (selection_step_invariant Hstep). }
  split; [exact Hinv|]. split.
  - unfold Selection.handleFetchVerse.
    destruct (N.ltb_spec (Selection.endAyah s) (Selection.startAyah s)); [lia|].
    now rewrite andb_false_r.
  - cbv zeta. unfold requestOffset, requestLimit, actualEndAyah.
    split; [lia|].
    destruct (Selection.isRangeMode s); [|lia].
    destruct (Z.eqb_spec (Z.of_N (Selection.endAyah s)) 0); [lia|].
    destruct (Z.leb_spec (Z.of_N (Selection.startAyah s))
                (Z.of_N (Selection.endAyah s))); simpl; lia.
Qed.

Lemma selection_is_always_a_range_witness :
  let s := Selection.setEndAyah 4
             (Selection.handleStartAyahChange 2 Selection.initial) in
  Selection.reachable s
  /\ Selection.handleFetchVerse s = Selection.CallService 1 2 (Some 4%N).
Proof.
  intros s.
  assert (Hreach : Selection.reachable s).
  { eapply Selection.reachable_step.
    - eapply Selection.reachable_step; [apply Selection.reachable_initial|].
      apply (Selection.step_start 2 Selection.initial true [] 7).
      right; left; reflexivity.
    - apply (Selection.step_end 4
               (Selection.handleStartAyahChange 2 Selection.initial) true [] 7);
        [reflexivity|].
      right; right; left; reflexivity. }
  split; [exact Hreach|].
  destruct (selection_is_always_a_range Hreach) as (_ & H & _).
  exact H.
Defined.

(* ===================================================================== *)
(** * From the response of the API to the segments                        *)
(* ===================================================================== *)

Lemma strictEquals_spec (a b : jsstring) : strictEquals a b = true <-> a = b.
Proof.
  revert b. induction a as [|x a IH]; intros [|y b]; simpl;
    try (split; [discriminate | discriminate]); [tauto|].
  rewrite andb_true_iff, N.eqb_eq, IH. split.
  - intros [-> ->]. reflexivity.
  - intros H. injection H as -> ->. split; reflexivity.
Qed.

Lemma strictEquals_false (a b : jsstring) : strictEquals a b = false <-> a <> b.
Proof.
  rewrite <- strictEquals_spec. destruct (strictEquals a b); split;
    congruence.
Qed.

Section FindFacts.

Variable A : Type.
Variable p : nat -> A -> bool.

Lemma findFrom_Some (l : list A) (i k : nat) (a : A) :
  findFrom p l i = Some (k, a) ->
  i <= k
  /\ nth_error l (k - i) = Some a
  /\ p k a = true
  /\ forall j b, j < k - i -> nth_error l j = Some b -> p (i + j) b = false.
Proof.
  revert i. induction l as [|x l IH]; intros i H; simpl in H; [discriminate|].
  destruct (p i x) eqn:E.
  - injection H as <- <-. rewrite Nat.sub_diag. repeat split; auto. intros j b Hj. lia.
  - destruct (IH _ H) as (Hle & Hnth & Hp & Hbefore).
    split; [lia|]. split.
    { replace (k - i) with (S (k - S i)) by lia. exact Hnth. }
    split; [exact Hp|].
    intros [|j] b Hj Hb; simpl in Hb.
    + injection Hb as <-. now rewrite Nat.add_0_r.
    + replace (i + S j) with (S i + j) by lia. apply Hbefore; [lia | exact Hb].
Qed.

Lemma findFrom_None (l : list A) (i : nat) :
  findFrom p l i = None <->
  forall j b, nth_error l j = Some b -> p (i + j) b = false.
Proof.
  revert i. induction l as [|x l IH]; intros i; simpl.
  - split; [intros _ [|j] b H; discriminate | reflexivity].
  - destruct (p i x) eqn:E.
    + split; [discriminate|]. intros H. specialize (H 0 x eq_refl).
      rewrite Nat.add_0_r in H. congruence.
    + rewrite IH. split.
      * intros H [|j] b Hb; simpl in Hb.
        -- injection Hb as <-. now rewrite Nat.add_0_r.
        -- replace (i + S j) with (S i + j) by lia. now apply H.
      * intros H j b Hb. replace (S i + j) with (i + S j) by lia. now apply H.
Qed.

End FindFacts.

(** X11. When the search of part_000 finds its two editions they sit at
    two different places of [data]: the first is the first element that
    is quran-uthmani or an Arabic quran edition, the second the first
    other element whose identifier is not quran-uthmani.  When it does
    not, the rejection is the one for missing editions, and either no
    element passes the Arabic test or no element but the one found has
    another identifier. *)
Theorem part000_edition_search (data : list EditionData) :
  match Part000Response.findEditions data with
  | Fulfilled ((i, arabicEd), (j, otherEd)) =>
      i <> j
      /\ nth_error data i = Some arabicEd
      /\ nth_error data j = Some otherEd
      /\ Part000Response.isArabicEdition arabicEd = true
      /\ Part000Response.notUthmani otherEd = true
      /\ (forall k d, k < i -> nth_error data k = Some d ->
            Part000Response.isArabicEdition d = false)
      /\ (forall k d, k < j -> k <> i -> nth_error data k = Some d ->
            Part000Response.notUthmani d = false)
  | Rejected r =>
      r = Part000Response.missingEditions
      /\ ((forall d, In d data -> Part000Response.isArabicEdition d = false)
          \/ exists i arabicEd,
               nth_error data i = Some arabicEd
               /\ Part000Response.isArabicEdition arabicEd = true
               /\ forall k d, k <> i -> nth_error data k = Some d ->
                    Part000Response.notUthmani d = false)
  end.
Proof.
  unfold Part000Response.findEditions.
  destruct (findFrom (fun _ d => Part000Response.isArabicEdition d) data 0)
    as [[i arabicEd]|] eqn:Ea.
  - apply findFrom_Some in Ea. destruct Ea as (_ & Hi & Hpa & Hbefore).
    rewrite Nat.sub_0_r in Hi.
    destruct (findFrom _ data 0) as [[j otherEd]|] eqn:Eo.
    + apply findFrom_Some in Eo. destruct Eo as (_ & Hj & Hpo & Hbo).
      rewrite Nat.sub_0_r in Hj. apply andb_true_iff in Hpo.
      destruct Hpo as [Hnu Hdiff]. cbn [Part000Response.differsFrom] in Hdiff.
      apply negb_true_iff, Nat.eqb_neq in Hdiff.
      split; [congruence|]. repeat (split; [assumption|]).
      split.
      * intros k d Hk Hd. apply (Hbefore k d); [lia | exact Hd].
      * intros k d Hk Hki Hd. specialize (Hbo k d). rewrite Nat.sub_0_r in Hbo.
        specialize (Hbo Hk Hd). cbn [Nat.add] in Hbo.
        apply andb_false_iff in Hbo. destruct Hbo as [Hbo|Hbo]; [exact Hbo|].
        cbn [Part000Response.differsFrom] in Hbo.
        apply negb_false_iff, Nat.eqb_eq in Hbo. congruence.
    + split; [reflexivity|]. right. exists i, arabicEd.
      split; [exact Hi|]. split; [exact Hpa|].
      intros k d Hki Hd.
      pose proof (proj1 (findFrom_None _ data 0) Eo k d Hd) as Hnone.
      cbn [Nat.add] in Hnone. apply andb_false_iff in Hnone.
      destruct Hnone as [Hnone|Hnone]; [exact Hnone|].
      cbn [Part000Response.differsFrom] in Hnone.
      apply negb_false_iff, Nat.eqb_eq in Hnone. congruence.
  - split.
    + destruct (findFrom _ data 0); reflexivity.
    + left. intros d Hd. apply In_nth_error in Hd. destruct Hd as [k Hk].
      exact (proj1 (findFrom_None _ data 0) Ea k d Hk).
Qed.

Lemma part000_finds_pair (a t : EditionData) :
  uthmaniEdition a -> translationEdition t ->
  (exists i j, Part000Response.findEditions [a; t] = Fulfilled ((i, a), (j, t)))
  /\ (exists i j, Part000Response.findEditions [t; a] = Fulfilled ((i, a), (j, t))).
Proof.
  intros (ea & Ha & Hida & Hta) (et & Ht & Hidt & Htt).
  assert (HA : Part000Response.isArabicEdition a = true).
  { unfold Part000Response.isArabicEdition. rewrite Ha, Hida. reflexivity. }
  assert (HT : Part000Response.isArabicEdition t = false).
  { unfold Part000Response.isArabicEdition. rewrite Ht, Htt.
    apply strictEquals_false in Hidt. rewrite Hidt. simpl.
    apply andb_false_r. }
  assert (HNa : Part000Response.notUthmani a = false).
  { unfold Part000Response.notUthmani. rewrite Ha, Hida. reflexivity. }
  assert (HNt : Part000Response.notUthmani t = true).
  { unfold Part000Response.notUthmani. rewrite Ht.
    apply strictEquals_false in Hidt. now rewrite Hidt. }
  split.
  - exists 0, 1. unfold Part000Response.findEditions. simpl.
    rewrite HA. simpl. rewrite HNa, HNt. reflexivity.
  - exists 1, 0. unfold Part000Response.findEditions. simpl.
    rewrite HT, HA. simpl. rewrite HNt. reflexivity.
Qed.

Lemma gemini_finds_pair (a t : EditionData) :
  uthmaniEdition a -> translationEdition t ->
  forall data, data = [a; t] \/ data = [t; a] ->
  findThrowing (GeminiResponse.hasType (lit "quran")) data = Normal (Some a)
  /\ findThrowing (GeminiResponse.hasType (lit "translation")) data = Normal (Some t).
Proof.
  intros (ea & Ha & Hida & Hta) (et & Ht & Hidt & Htt) data Hdata.
  destruct Hdata as [-> | ->]; unfold GeminiResponse.hasType; simpl;
    rewrite ?Ha, ?Ht; simpl; rewrite ?Hta, ?Htt; simpl;
    rewrite ?Ha, ?Ht; simpl; rewrite ?Hta, ?Htt; split; reflexivity.
Qed.

(** X12. On a response that carries the two editions asked for, the
    quran-uthmani text and a translation, in either order, both modules
    pair the verses of the first with the translations of the second:
    part_000 returns the segments of that pairing, all under the English
    name of the Arabic edition, and geminiService.ts returns the same
    segments when every verse has a translation and is rejected with a
    TypeError otherwise. *)
Theorem two_editions_in_any_order
    (toLowerCase : jsstring -> jsstring) (random : RandomDraw)
    (ai : option GeminiService.AiResult) (a t : EditionData)
    (data : list EditionData) :
  uthmaniEdition a ->
  translationEdition t ->
  data = [a; t] \/ data = [t; a] ->
  let segs := List.map (renderGroup (englishName a))
                (verseGroups (ayahs a) (ayahs t)) in
  Part000Response.fetchVerseAndDesign toLowerCase random (okResponse data)
  = Fulfilled {| segments := segs;
                 design := Part000.getDesignFromText toLowerCase random
                             (firstTranslation segs) |}
  /\ GeminiResponse.fetchVerseAndDesign ai (okResponse data)
     = (if length (ayahs a) <=? length (ayahs t)
        then Fulfilled {| segments := segs; design := GeminiService.aiDesign ai |}
        else Rejected TypeErrorThrown)
  /\ Forall (fun s => surah s = englishName a) segs.
Proof.
  intros Ha Ht Hdata segs.
  assert (Hp : exists i j,
             Part000Response.findEditions data = Fulfilled ((i, a), (j, t))).
  { destruct (part000_finds_pair Ha Ht) as [H1 H2].
    destruct Hdata as [-> | ->]; assumption. }
  destruct Hp as (i & j & Hp).
  destruct (gemini_finds_pair Ha Ht Hdata) as [Hg1 Hg2].
  split; [|split].
  - unfold Part000Response.fetchVerseAndDesign, okResponse. cbn [ok body negb].
    rewrite Hp. unfold Part000.fetchVerseAndDesign.
    rewrite groupAyahs_part000. reflexivity.
  - unfold GeminiResponse.fetchVerseAndDesign, okResponse. cbn [ok body negb].
    rewrite Hg1, Hg2. unfold GeminiService.fetchVerseAndDesign.
    rewrite groupAyahs_gemini.
    destruct (length (ayahs a) <=? length (ayahs t)); reflexivity.
  - subst segs. apply Forall_map. apply Forall_forall. intros c _. reflexivity.
Qed.

Lemma two_editions_in_any_order_witness :
  let a := sampleUthmani [sampleVerse 1 200; sampleVerse 2 300] in
  let t := sampleTranslation [sampleVerse 1 20; sampleVerse 2 30] in
  uthmaniEdition a /\ translationEdition t
  /\ Part000Response.fetchVerseAndDesign asciiLower drawLow (okResponse [t; a])
     = Part000Response.fetchVerseAndDesign asciiLower drawLow (okResponse [a; t]).
Proof.
  intros a t.
  assert (Ha : uthmaniEdition a) by (eexists; repeat split; reflexivity).
  assert (Ht : translationEdition t)
    by (eexists; repeat split; try reflexivity; discriminate).
  split; [exact Ha|]. split; [exact Ht|].
  destruct (@two_editions_in_any_order asciiLower drawLow None a t [t; a] Ha Ht
              (or_intror eq_refl)) as (H1 & _).
  destruct (@two_editions_in_any_order asciiLower drawLow None a t [a; t] Ha Ht
              (or_introl eq_refl)) as (H2 & _).
  rewrite H1, H2. reflexivity.
Defined.

(** X13. [fetchVerseAndDesign] of part_000 is never rejected with a
    TypeError.  A response that is not [ok] is rejected with the API
    error that quotes its status and text, a body that is not JSON with
    the SyntaxError of [json()], a body without a [data] array with the
    message that says so, and a [data] without the two editions with the
    message for missing editions; in every other case the segments are
    those of the two editions found, under the name of the Arabic one. *)
Theorem part000_response_outcomes
    (toLowerCase : jsstring -> jsstring) (random : RandomDraw)
    (response : HttpResponse) :
  let result := Part000Response.fetchVerseAndDesign toLowerCase random response in
  result <> Rejected TypeErrorThrown
  /\ (ok response = false -> result = Rejected (apiError response))
  /\ (ok response = true -> body response = None ->
      result = Rejected SyntaxErrorThrown)
  /\ (ok response = true ->
      (exists j, body response = Some j /\ forall data, j <> JsonData data) ->
      result = Rejected Part000Response.dataArrayMissing)
  /\ (forall data, ok response = true -> body response = Some (JsonData data) ->
      match Part000Response.findEditions data with
      | Fulfilled ((_, arabicEd), (_, otherEd)) =>
          exists theme,
            result = Fulfilled
                       {| segments := List.map (renderGroup (englishName arabicEd))
                                        (verseGroups (ayahs arabicEd) (ayahs otherEd));
                          design := theme |}
      | Rejected r => result = Rejected Part000Response.missingEditions
      end).
Proof.
  intros result. subst result. unfold Part000Response.fetchVerseAndDesign.
  split; [|split; [|split; [|split]]].
  - destruct (ok response); simpl; [|discriminate].
    destruct (body response) as [[| | |data]|]; try discriminate.
    pose proof (part000_edition_search data) as Hs.
    destruct (Part000Response.findEditions data) as [[[i a] [j o]]|r].
    + unfold Part000.fetchVerseAndDesign. rewrite groupAyahs_part000. discriminate.
    + destruct Hs as [-> _]. discriminate.
  - intros ->. reflexivity.
  - intros -> ->. reflexivity.
  - intros -> (j & -> & Hj). destruct j; try reflexivity.
    exfalso. now apply (Hj data).
  - intros data -> ->. simpl.
    pose proof (part000_edition_search data) as Hs.
    destruct (Part000Response.findEditions data) as [[[i a] [j o]]|r].
    + unfold Part000.fetchVerseAndDesign. rewrite groupAyahs_part000.
      eexists. reflexivity.
    + destruct Hs as [-> _]. reflexivity.
Qed.

Lemma part000_response_outcomes_witness :
  Part000Response.fetchVerseAndDesign asciiLower drawLow
    {| ok := false; status := 404; errorText := lit "Not Found"; body := None |}
  = Rejected (ErrorMessage (lit "Quran API Error: 404 - Not Found")).
Proof.
  destruct (part000_response_outcomes asciiLower drawLow
              {| ok := false; status := 404; errorText := lit "Not Found";
                 body := None |}) as (_ & H & _).
  rewrite (H eq_refl). reflexivity.
Defined.

Lemma findThrowing_undefined_edition (wanted : jsstring)
    (before after : list EditionData) (d : EditionData) :
  edition d = None ->
  Forall (fun x => exists e, edition x = Some e /\ editionType e <> wanted) before ->
  findThrowing (GeminiResponse.hasType wanted) (before ++ d :: after)
  = Throw TypeError.
Proof.
  intros Hd Hbefore. induction Hbefore as [|x before (e & He & Hne) _ IH]; simpl.
  - unfold GeminiResponse.hasType. rewrite Hd. reflexivity.
  - unfold GeminiResponse.hasType at 1. rewrite He. simpl.
    apply strictEquals_false in Hne. rewrite Hne. exact IH.
Qed.

(** X14. [fetchVerseAndDesign] of geminiService.ts rejects a response
    that is not [ok] with the same API error as part_000, but has no
    test on the shape of the body: a body without a [data] array ends in
    a TypeError, and so does an element without [edition] that comes
    before any edition of type quran. *)
Theorem gemini_response_outcomes
    (ai : option GeminiService.AiResult) (response : HttpResponse) :
  let result := GeminiResponse.fetchVerseAndDesign ai response in
  (ok response = false -> result = Rejected (apiError response))
  /\ (ok response = true ->
      (exists j, body response = Some j /\ forall data, j <> JsonData data) ->
      result = Rejected TypeErrorThrown)
  /\ (forall before d after,
        ok response = true ->
        body response = Some (JsonData (before ++ d :: after)) ->
        edition d = None ->
        Forall (fun x => exists e, edition x = Some e
                                   /\ editionType e <> lit "quran") before ->
        result = Rejected TypeErrorThrown)
  /\ (forall data message,
        ok response = true -> body response = Some (JsonData data) ->
        result = Rejected (ErrorMessage message) ->
        message = lit "Invalid response format from Quran API").
Proof.
  intros result. subst result. unfold GeminiResponse.fetchVerseAndDesign.
  split; [|split; [|split]].
  - intros ->. reflexivity.
  - intros -> (j & -> & Hj). destruct j; try reflexivity.
    exfalso. now apply (Hj data).
  - intros before d after -> -> Hd Hbefore. simpl.
    rewrite findThrowing_undefined_edition; [reflexivity | exact Hd | exact Hbefore].
  - intros data message -> ->. simpl.
    destruct (findThrowing (GeminiResponse.hasType (lit "quran")) data)
      as [arabicEd|e]; [|discriminate].
    destruct (findThrowing (GeminiResponse.hasType (lit "translation")) data)
      as [transEd|e]; [|discriminate].
    destruct arabicEd as [a|], transEd as [t|];
      try (intros H; injection H as <-; reflexivity).
    destruct (GeminiService.fetchVerseAndDesign ai _ _ _) as [x|[]];
      discriminate.
Qed.

Lemma gemini_response_outcomes_witness :
  let noEdition := {| edition := None; ayahs := []; englishName := [] |} in
  let data := [noEdition; sampleUthmani [sampleVerse 1 3];
               sampleTranslation [sampleVerse 1 3]] in
  GeminiResponse.fetchVerseAndDesign None (okResponse data) = Rejected TypeErrorThrown
  /\ exists r, Part000Response.fetchVerseAndDesign asciiLower drawLow
                 (okResponse data) = Fulfilled r.
Proof.
  intros noEdition data.
  destruct (gemini_response_outcomes None (okResponse data)) as (_ & _ & H & _).
  split.
  - apply (H [] noEdition
             [sampleUthmani [sampleVerse 1 3]; sampleTranslation [sampleVerse 1 3]]);
      [reflexivity | reflexivity | reflexivity | constructor].
  - eexists. reflexivity.
Defined.

Lemma part000_edition_search_witness :
  exists i j a t,
    Part000Response.findEditions
      [sampleTranslation [sampleVerse 1 3]; sampleUthmani [sampleVerse 1 3]]
    = Fulfilled ((i, a), (j, t)) /\ i <> j.
Proof.
  pose proof (part000_edition_search
                [sampleTranslation [sampleVerse 1 3];
                 sampleUthmani [sampleVerse 1 3]]) as H.
  destruct (Part000Response.findEditions _) as [[[i a] [j t]]|r] eqn:E.
  - exists i, j, a, t. split; [reflexivity | apply H].
  - discriminate E.
Defined.

(* ===================================================================== *)
(** * The edition of a language                                           *)
(* ===================================================================== *)

Lemma editionIn_name (table : list (jsstring * jsstring)) (language : jsstring) :
  ~ In language objectPrototypeKeys ->
  Forall (fun entry => snd entry <> [] /\ snd entry <> lit "quran-uthmani") table ->
  exists name,
    editionIn table language = EditionName name
    /\ name <> []
    /\ name <> lit "quran-uthmani"
    /\ (In (language, name) table
        \/ (name = lit "en.sahih" /\ forall e, ~ In (language, e) table)).
Proof.
  intros Hproto Hvalues. unfold editionIn.
  destruct (List.find _ table) as [[key value]|] eqn:E.
  - apply find_some in E. destruct E as [Hin Hkey]. simpl in Hkey.
    apply strictEquals_spec in Hkey. subst key.
    rewrite Forall_forall in Hvalues. destruct (Hvalues _ Hin) as [H1 H2].
    simpl in H1, H2 |- *. exists value.
    destruct value; [congruence|]. simpl. repeat split; auto; discriminate.
  - assert (Hno : List.existsb (strictEquals language) objectPrototypeKeys = false).
    { destruct (List.existsb _ objectPrototypeKeys) eqn:Ex; [|reflexivity].
      apply existsb_exists in Ex. destruct Ex as (k & Hk & Heq).
      apply strictEquals_spec in Heq. subst k. contradiction. }
    rewrite Hno. exists (lit "en.sahih").
    split; [reflexivity|]. split; [discriminate|]. split; [discriminate|].
    right. split; [reflexivity|]. intros e Hin.
    pose proof (find_none _ _ E _ Hin) as Hf. simpl in Hf.
    apply strictEquals_false in Hf. congruence.
Qed.

Ltac split_language_tests language :=
  repeat match goal with
         | |- context [strictEquals ?k language] =>
             let E := fresh "E" in
             destruct (strictEquals k language) eqn:E;
             [apply strictEquals_spec in E; try (subst language; congruence)
             |];
             cbn [fst snd List.find]
         end.

(** X15. For a language name that is not a member of [Object.prototype],
    the edition of the request is a string that is not empty and is not
    quran-uthmani: the entry of the table for a listed language, and
    en.sahih for any other.  The two modules give the same edition for
    every language but Greek, which only geminiService.ts lists. *)
Theorem language_edition (language : jsstring) :
  ~ In language objectPrototypeKeys ->
  (exists name,
     Part000Request.edition language = EditionName name
     /\ name <> [] /\ name <> lit "quran-uthmani"
     /\ (In (language, name) Part000Request.LANGUAGE_EDITIONS
         \/ (name = lit "en.sahih"
             /\ forall e, ~ In (language, e) Part000Request.LANGUAGE_EDITIONS)))
  /\ (exists name,
        GeminiRequest.edition language = EditionName name
        /\ name <> [] /\ name <> lit "quran-uthmani"
        /\ (In (language, name) GeminiRequest.LANGUAGE_EDITIONS
            \/ (name = lit "en.sahih"
                /\ forall e, ~ In (language, e) GeminiRequest.LANGUAGE_EDITIONS)))
  /\ (language <> lit "Greek" ->
      Part000Request.edition language = GeminiRequest.edition language)
  /\ Part000Request.edition (lit "Greek") = EditionName (lit "en.sahih")
  /\ GeminiRequest.edition (lit "Greek") = EditionName (lit "el.vlachos").
Proof.
  intros Hproto. split; [|split; [|split; [|split; reflexivity]]].
  - apply editionIn_name; [exact Hproto|].
    unfold Part000Request.LANGUAGE_EDITIONS.
    repeat (constructor; [split; discriminate|]). constructor.
  - apply editionIn_name; [exact Hproto|].
    unfold GeminiRequest.LANGUAGE_EDITIONS.
    repeat (constructor; [split; discriminate|]). constructor.
  - intros Hgreek.
    unfold Part000Request.edition, GeminiRequest.edition, editionIn,
      Part000Request.LANGUAGE_EDITIONS, GeminiRequest.LANGUAGE_EDITIONS.
    cbn [fst snd List.find].
    split_language_tests language; reflexivity.
Qed.

Lemma language_edition_witness :
  ~ In (lit "Klingon") objectPrototypeKeys
  /\ Part000Request.edition (lit "Klingon") = GeminiRequest.edition (lit "Klingon").
Proof.
  assert (Hproto : ~ In (lit "Klingon") objectPrototypeKeys).
  { intros H. cbv in H. intuition discriminate. }
  split; [exact Hproto|].
  destruct (@language_edition (lit "Klingon") Hproto) as (_ & _ & H & _).
  apply H. discriminate.
Defined.

(* ===================================================================== *)
(** * Labels over a verse range, and the theme of a longer range          *)
(* ===================================================================== *)

Lemma unitAt_concat (X : Type) (cs : list (list X)) (j k : nat) (x : X) :
  unitAt cs j k = Some x ->
  nth_error (concat cs) (groupOffset cs j + k) = Some x.
Proof.
  revert j. induction cs as [|c cs IH]; intros j H.
  - unfold unitAt in H. destruct j; discriminate.
  - destruct j as [|j].
    + unfold unitAt in H. simpl in H. unfold groupOffset. simpl.
      rewrite nth_error_app1; [exact H|]. apply nth_error_Some. congruence.
    + rewrite groupOffset_succ. simpl.
      rewrite nth_error_app2 by lia.
      replace (length c + groupOffset cs j + k - length c)
        with (groupOffset cs j + k) by lia.
      apply IH. exact H.
Qed.

Lemma groupOffset_next (X : Type) (cs : list (list X)) (j : nat) (c : list X) :
  nth_error cs j = Some c ->
  groupOffset cs (S j) = groupOffset cs j + length c.
Proof.
  revert j. induction cs as [|c0 cs IH]; intros j H; [destruct j; discriminate|].
  destruct j as [|j].
  - simpl in H. injection H as ->. unfold groupOffset. simpl.
    rewrite app_nil_r. lia.
  - simpl in H. rewrite !groupOffset_succ, (IH j H). lia.
Qed.

Lemma verseUnits_number_at (arabicAyahs transAyahs : list Ayah) (i : nat)
    (u : VerseUnit) :
  nth_error (verseUnits arabicAyahs transAyahs) i = Some u ->
  nth_error arabicAyahs i = Some (fst u).
Proof.
  intros H. apply (map_nth_error fst) in H.
  rewrite verseUnits_fst in H. exact H.
Qed.

(** X16. When the verses of the input are numbered consecutively from
    [first], as the verses of a range are, the label of each segment
    runs from [first] plus the number of verses in the segments before
    it to the number just before the start of the next one: the labels
    tile the range without gap or overlap. *)
Theorem labels_tile_the_range
    (arabicAyahs transAyahs : list Ayah) (surahName : jsstring) (first : N) :
  (forall i v, nth_error arabicAyahs i = Some v ->
               numberInSurah v = (first + N.of_nat i)%N) ->
  let groups := verseGroups arabicAyahs transAyahs in
  producesSegments arabicAyahs transAyahs surahName
    (List.map (renderGroup surahName) groups)
  /\ groupOffset groups 0 = 0
  /\ groupOffset groups (length groups) = length arabicAyahs
  /\ forall j c,
       nth_error groups j = Some c ->
       groupOffset groups (S j) = groupOffset groups j + length c
       /\ 1 <= length c
       /\ ayah (renderGroup surahName c)
          = rangeLabel (first + N.of_nat (groupOffset groups j))
              (first + N.of_nat (groupOffset groups (S j) - 1)).
Proof.
  intros Hnum groups. split; [apply produces_verseGroups|].
  split; [reflexivity|]. split.
  { unfold groupOffset. rewrite firstn_all. subst groups.
    rewrite verseGroups_concat. apply verseUnits_length. }
  intros j c Hc.
  pose proof (groupOffset_next groups j Hc) as Hnext.
  split; [exact Hnext|].
  pose proof (verseGroups_nonempty arabicAyahs transAyahs) as Hne.
  rewrite Forall_forall in Hne. specialize (Hne c (nth_error_In _ _ Hc)).
  destruct c as [|u c]; [congruence|]. split; [simpl; lia|].
  cbn [ayah renderGroup]. f_equal.
  - assert (Hu : unitAt groups j 0 = Some u) by (unfold unitAt; rewrite Hc; reflexivity).
    apply unitAt_concat in Hu. subst groups. rewrite verseGroups_concat in Hu.
    apply verseUnits_number_at in Hu. apply Hnum in Hu.
    unfold verseNumber. rewrite Hu, Nat.add_0_r. reflexivity.
  - assert (Hl : unitAt groups j (length (u :: c) - 1) = Some (last (u :: c) u)).
    { unfold unitAt. rewrite Hc. apply nth_error_last. discriminate. }
    apply unitAt_concat in Hl. subst groups. rewrite verseGroups_concat in Hl.
    apply verseUnits_number_at in Hl. apply Hnum in Hl.
    unfold verseNumber. rewrite Hl. f_equal. f_equal. rewrite Hnext.
    simpl length. lia.
Qed.

Lemma labels_tile_the_range_witness :
  let input :=
    [sampleVerse 5 200; sampleVerse 6 100; sampleVerse 7 100; sampleVerse 8 300] in
  (forall i v, nth_error input i = Some v ->
               numberInSurah v = (5 + N.of_nat i)%N)
  /\ groupOffset (verseGroups input []) 1 = 3.
Proof.
  intros input.
  assert (Hnum : forall i v, nth_error input i = Some v ->
                             numberInSurah v = (5 + N.of_nat i)%N).
  { intros [|[|[|[|i]]]] v H; simpl in H; try (injection H as <-; reflexivity).
    destruct i; discriminate. }
  split; [exact Hnum|].
  destruct (@labels_tile_the_range input [] [] 5%N Hnum) as (_ & H0 & _ & H).
  destruct (H 0 _ eq_refl) as (Hnext & _). rewrite Hnext, H0. reflexivity.
Defined.

Lemma verseGroups_extend_kept (arabicAyahs moreAyahs transAyahs : list Ayah) :
  arabicAyahs <> [] ->
  exists tail,
    verseGroups (arabicAyahs ++ moreAyahs) transAyahs
    = removelast (verseGroups arabicAyahs transAyahs) ++ tail.
Proof.
  intros Hne. unfold verseGroups, chunks, verseUnits.
  rewrite verseUnitsFrom_app. simpl Nat.add.
  destruct (@chunkLoop_extend VerseUnit sourceLength
              (verseUnitsFrom transAyahs 0 arabicAyahs) []
              (verseUnitsFrom transAyahs (length arabicAyahs) moreAyahs) 0)
    as (lastGroup & m & _ & Hext).
  { right. destruct arabicAyahs; [congruence | discriminate]. }
  eexists. exact Hext.
Qed.

Lemma getDesignFromText_keyword
    (toLowerCase : jsstring -> jsstring) (random random' : RandomDraw)
    (text : jsstring) :
  (0 < maxScoreOf (Part000.countScores (toLowerCase text)))%Z ->
  Part000.getDesignFromText toLowerCase random text
  = Part000.getDesignFromText toLowerCase random' text.
Proof.
  intros Hpos. unfold Part000.getDesignFromText.
  destruct (selectBest_spec _ (countScores_nonneg (toLowerCase text)))
    as (Hmax & _ & _).
  rewrite Hmax.
  destruct (Z.eqb_spec (maxScoreOf (Part000.countScores (toLowerCase text))) 0);
    [lia | reflexivity].
Qed.

(** X17. In part_000 the theme is read from the first segment only: once
    the verses fill more than one card, verses that follow them do not
    change the first segment, and a second call, with a draw of its own,
    classifies the same text.  The two designs agree in text colour and
    opacity, and in the background as well when a keyword occurs in that
    text; when none occurs each call follows its own draw. *)
Theorem theme_fixed_by_first_card
    (toLowerCase : jsstring -> jsstring) (random random' : RandomDraw)
    (arabicAyahs moreAyahs transAyahs : list Ayah) (surahName : jsstring) :
  2 <= length (verseGroups arabicAyahs transAyahs) ->
  exists shorter longer,
    Part000.fetchVerseAndDesign toLowerCase random
      arabicAyahs transAyahs surahName = Normal shorter
    /\ Part000.fetchVerseAndDesign toLowerCase random'
         (arabicAyahs ++ moreAyahs) transAyahs surahName = Normal longer
    /\ hd_error (segments longer) = hd_error (segments shorter)
    /\ (let contextText := firstTranslation (segments shorter) in
        design shorter = Part000.getDesignFromText toLowerCase random contextText
        /\ design longer = Part000.getDesignFromText toLowerCase random' contextText
        /\ ((0 < maxScoreOf (Part000.countScores (toLowerCase contextText)))%Z ->
            design longer = design shorter)
        /\ (maxScoreOf (Part000.countScores (toLowerCase contextText)) = 0%Z ->
            elementAt Part000.types (Part000.randomIndex random)
            = Some (backgroundType (design shorter))
            /\ elementAt Part000.types (Part000.randomIndex random')
               = Some (backgroundType (design longer))))
    /\ textColor (design longer) = textColor (design shorter)
    /\ opacity (design longer) = opacity (design shorter).
Proof.
  intros Htwo. unfold Part000.fetchVerseAndDesign. rewrite !groupAyahs_part000.
  cbn [bind]. eexists. eexists. split; [reflexivity|]. split; [reflexivity|].
  cbn [segments design].
  assert (Hne : arabicAyahs <> []).
  { intros ->. simpl in Htwo. lia. }
  destruct (verseGroups_extend_kept moreAyahs transAyahs Hne) as [tail Hext].
  rewrite Hext.
  destruct (verseGroups arabicAyahs transAyahs) as [|g1 [|g2 gs]];
    simpl in Htwo; try lia.
  change (removelast (g1 :: g2 :: gs)) with (g1 :: removelast (g2 :: gs)).
  split; [reflexivity|].
  split;
    [| split; unfold Part000.getDesignFromText;
       [cbn [textColor] | cbn [opacity]]; reflexivity].
  cbv zeta. split; [reflexivity|]. split; [reflexivity|]. split.
  - intros Hpos. apply getDesignFromText_keyword. exact Hpos.
  - intros Hzero. split; apply getDesignFromText_fallback; exact Hzero.
Qed.

Lemma theme_fixed_by_first_card_witness :
  let input := [sampleVerse 1 300; sampleVerse 2 300] in
  2 <= length (verseGroups input [])
  /\ exists shorter longer,
       Part000.fetchVerseAndDesign asciiLower drawLow input [] [] = Normal shorter
       /\ Part000.fetchVerseAndDesign asciiLower drawHigh
            (input ++ [sampleVerse 3 100]) [] [] = Normal longer
       /\ hd_error (segments longer) = hd_error (segments shorter)
       /\ backgroundType (design shorter) = NATURE
       /\ backgroundType (design longer) = JANNAT.
Proof.
  intros input.
  assert (Htwo : 2 <= length (verseGroups input [])) by (vm_compute; lia).
  split; [exact Htwo|].
  destruct (@theme_fixed_by_first_card asciiLower drawLow drawHigh input
              [sampleVerse 3 100] [] [] Htwo)
    as (shorter & longer & H1 & H2 & H3 & (_ & _ & _ & H4) & _).
  exists shorter, longer.
  split; [exact H1|]. split; [exact H2|]. split; [exact H3|].
  assert (Hzero : maxScoreOf
                    (Part000.countScores
                       (asciiLower (firstTranslation (segments shorter)))) = 0%Z).
  { vm_compute in H1. injection H1 as <-. vm_compute. reflexivity. }
  destruct (H4 Hzero) as [Hs Hl].
  assert (El : elementAt Part000.types (Part000.randomIndex drawLow) = Some NATURE)
    by (vm_compute; reflexivity).
  assert (Eh : elementAt Part000.types (Part000.randomIndex drawHigh) = Some JANNAT)
    by (vm_compute; reflexivity).
  rewrite El in Hs. rewrite Eh in Hl.
  split; congruence.
Defined.

(** X18. For translations that are not empty, under one Arabic text, a
    longer translation never gets a larger font; the size lies between
    18 and 40, and is 18 whenever the Arabic text is longer than 2000
    units. *)
Theorem translationFontSize_monotone (v w : VerseSegment) :
  arabic v = arabic w ->
  1 <= length (translation v) ->
  length (translation v) <= length (translation w) ->
  (VerseCard.translationFontSize w <= VerseCard.translationFontSize v)%N
  /\ (18 <= VerseCard.translationFontSize v <= 40)%N
  /\ (2000 < length (arabic v) -> VerseCard.translationFontSize v = 18%N).
Proof.
  intros Harabic Hpos Hle. unfold VerseCard.translationFontSize. cbv zeta.
  rewrite <- Harabic. split; [|split].
  - split_thresholds.
  - split_thresholds.
  - intros Hlong. split_thresholds.
Qed.

Lemma translationFontSize_monotone_witness :
  let v := {| arabic := lit "abc"; translation := lit "one"; surah := []; ayah := [] |} in
  let w := {| arabic := lit "abc"; translation := repeat 97%N 120;
              surah := []; ayah := [] |} in
  arabic v = arabic w
  /\ 1 <= length (translation v)
  /\ (VerseCard.translationFontSize w <= VerseCard.translationFontSize v)%N.
Proof.
  intros v w.
  assert (H1 : arabic v = arabic w) by reflexivity.
  assert (H2 : 1 <= length (translation v)) by (simpl; lia).
  assert (H3 : length (translation v) <= length (translation w))
    by (unfold v, w; cbn [translation]; rewrite repeat_length; simpl; lia).
  split; [exact H1|]. split; [exact H2|].
  destruct (@translationFontSize_monotone v w H1 H2 H3) as (H & _).
  exact H.
Defined.
